(** * PyWindowsPatchManager: inventory reconciliation, update resolution and
      the update executor, embedded from the Python sources

    The development follows the three core modules of the repository:
    [program_detector.py] (adapters and [_deduplicate_programs]),
    [update_checker.py] (per-source update checks) and
    [update_installer.py] (sequential and bounded-concurrent installs),
    together with the exclusion predicate of [config_manager.py].

    Conventions of the embedding.
    - A Python [str] is a [string]; the character classes ([str.lower],
      [str.isspace], the [\s] and [\d] of [re]) are the ASCII ones, other
      code units are neither space, digit nor letter.
    - A Python [dict] is a [gmap]; a Python [list] is a [list].
    - An external process call ([subprocess.run]) asks a tool oracle, which
      may answer with a completed process or raise; every call is recorded
      in a trace of events.  Code that may raise lives in the monad [M]
      (trace passing plus an exception result), and [try ... except] is
      [try_except]. *)

From Stdlib Require Import ZArith Ascii String List Lia Bool.
From stdpp Require Import base option list gmap strings sorting.

Local Open Scope string_scope.
Local Open Scope Z_scope.
Local Open Scope list_scope.

(** ** Python string primitives *)

Module PyStr.

Definition code (c : ascii) : nat := nat_of_ascii c.

(** [str.isspace] on one character, also the class [\s] of [re]. *)
Definition is_space (c : ascii) : bool :=
  let n := code c in
  ((9 <=? n)%nat && (n <=? 13)%nat) || ((28 <=? n)%nat && (n <=? 32)%nat).

(** The class [\d] of [re]. *)
Definition is_digit (c : ascii) : bool :=
  let n := code c in (48 <=? n)%nat && (n <=? 57)%nat.

Definition is_upper (c : ascii) : bool :=
  let n := code c in (65 <=? n)%nat && (n <=? 90)%nat.

Definition is_lower (c : ascii) : bool :=
  let n := code c in (97 <=? n)%nat && (n <=? 122)%nat.

Definition lower_char (c : ascii) : ascii :=
  if is_upper c then ascii_of_nat (code c + 32) else c.

Definition upper_char (c : ascii) : ascii :=
  if is_lower c then ascii_of_nat (code c - 32) else c.

Fixpoint map_chars (f : ascii -> ascii) (s : string) : string :=
  match s with
  | EmptyString => EmptyString
  | String c t => String (f c) (map_chars f t)
  end.

(** [s.lower()] *)
Definition lower (s : string) : string := map_chars lower_char s.

Fixpoint lstrip (s : string) : string :=
  match s with
  | EmptyString => EmptyString
  | String c t => if is_space c then lstrip t else s
  end.

Fixpoint rstrip (s : string) : string :=
  match s with
  | EmptyString => EmptyString
  | String c t =>
      match rstrip t with
      | EmptyString => if is_space c then EmptyString else String c EmptyString
      | r => String c r
      end
  end.

(** [s.strip()] *)
Definition strip (s : string) : string := rstrip (lstrip s).

(** [s.startswith(pre)] *)
Fixpoint startswith (pre s : string) : bool :=
  match pre, s with
  | EmptyString, _ => true
  | String a p, String b t => if Ascii.eqb a b then startswith p t else false
  | String _ _, EmptyString => false
  end.

(** [needle in hay] *)
Fixpoint contains (needle hay : string) : bool :=
  startswith needle hay ||
  match hay with
  | EmptyString => false
  | String _ t => contains needle t
  end.

(** [not s] for a string: the empty string is falsy. *)
Definition is_empty (s : string) : bool :=
  match s with EmptyString => true | String _ _ => false end.

(** The character [c] joins the first piece of [l]. *)
Definition cons_head (c : ascii) (l : list string) : list string :=
  match l with
  | h :: r => String c h :: r
  | [] => [String c EmptyString]
  end.

(** [s.split(sep)] for a one-character separator: empty pieces are kept. *)
Fixpoint split_char (sep : ascii) (s : string) : list string :=
  match s with
  | EmptyString => [EmptyString]
  | String c t =>
      if Ascii.eqb c sep then EmptyString :: split_char sep t
      else cons_head c (split_char sep t)
  end.

Fixpoint split_ws_go (s : string) : string * list string :=
  match s with
  | EmptyString => (EmptyString, [])
  | String c t =>
      let '(cur, rest) := split_ws_go t in
      if is_space c
      then (EmptyString, if is_empty cur then rest else cur :: rest)
      else (String c cur, rest)
  end.

(** [s.split()]: pieces between runs of whitespace, none of them empty. *)
Definition split_ws (s : string) : list string :=
  let '(cur, rest) := split_ws_go s in
  if is_empty cur then rest else cur :: rest.

(** [re.split(r'\s{2,}', s)]: a run of two or more whitespace characters
    separates, a single one belongs to its piece.  [in_sep] holds while
    the rest of a separating run is being skipped. *)
Fixpoint re_split_2ws (in_sep : bool) (s : string) : list string :=
  match s with
  | EmptyString => [EmptyString]
  | String c t =>
      if is_space c then
        if in_sep then re_split_2ws true t
        else match t with
             | String c' _ =>
                 if is_space c' then EmptyString :: re_split_2ws true t
                 else cons_head c (re_split_2ws false t)
             | EmptyString => cons_head c (re_split_2ws false t)
             end
      else cons_head c (re_split_2ws false t)
  end.

(** [re.split(r'\s+', s, maxsplit)]: at most [maxsplit] separators are
    taken, what follows the last one is kept as it is. *)
Fixpoint re_split_ws (maxsplit : nat) (in_sep : bool) (s : string) : list string :=
  match s with
  | EmptyString => [EmptyString]
  | String c t =>
      if is_space c then
        if in_sep then re_split_ws maxsplit true t
        else match maxsplit with
             | O => cons_head c (re_split_ws O false t)
             | S m => EmptyString :: re_split_ws m true t
             end
      else cons_head c (re_split_ws maxsplit false t)
  end.

(** [s.replace(a, b)] for single characters. *)
Definition replace_char (a b : ascii) (s : string) : string :=
  map_chars (fun c => if Ascii.eqb c a then b else c) s.

Fixpoint title_go (prev_cased : bool) (s : string) : string :=
  match s with
  | EmptyString => EmptyString
  | String c t =>
      if is_lower c then
        String (if prev_cased then c else upper_char c) (title_go true t)
      else if is_upper c then
        String (if prev_cased then lower_char c else c) (title_go true t)
      else String c (title_go false t)
  end.

(** [s.title()] *)
Definition title (s : string) : string := title_go false s.

(** Longest prefix of digits, and what follows it. *)
Fixpoint span_digits (s : string) : string * string :=
  match s with
  | EmptyString => (EmptyString, EmptyString)
  | String c t =>
      if is_digit c then let '(d, r) := span_digits t in (String c d, r)
      else (EmptyString, s)
  end.

(** Longest prefix of dots and digits (the starred class of the patterns). *)
Fixpoint span_dots_digits (s : string) : string :=
  match s with
  | EmptyString => EmptyString
  | String c t =>
      if is_digit c || Ascii.eqb c "."
      then String c (span_dots_digits t) else EmptyString
  end.

(** [\d+(\.\d+){more}] at the start of [s]: the text matched and the rest.
    Every quantifier is greedy and is followed by a character outside its
    class, so the first attempt of the matcher is its only one. *)
Fixpoint match_groups (more : nat) (s : string) : option (string * string) :=
  let '(d, rest) := span_digits s in
  if is_empty d then None
  else match more with
       | O => Some (d, rest)
       | S m =>
           match rest with
           | String c rest' =>
               if Ascii.eqb c "." then
                 match match_groups m rest' with
                 | Some (g, r) => Some (d +:+ String c g, r)
                 | None => None
                 end
               else None
           | EmptyString => None
           end
       end.

(** A dotted version pattern: [groups] mandatory groups of digits and,
    when [tail] holds, a final run of dots and digits. *)
Record version_pattern := { groups : nat; tail : bool }.

Definition match_version (pat : version_pattern) (s : string) : option string :=
  match match_groups (groups pat - 1) s with
  | Some (g, r) => Some (if tail pat then g +:+ span_dots_digits r else g)
  | None => None
  end.

(** Three groups of digits, then any run of dots and digits. *)
Definition three_groups_tail : version_pattern := {| groups := 3; tail := true |}.
(** Two groups of digits, then any run of dots and digits. *)
Definition two_groups_tail : version_pattern := {| groups := 2; tail := true |}.
(** Exactly three groups of digits. *)
Definition three_groups : version_pattern := {| groups := 3; tail := false |}.

(** [re.search(pat, s)] for a bare version pattern: group 1 of the
    leftmost match. *)
Fixpoint re_search_version (pat : version_pattern) (s : string) : option string :=
  match match_version pat s with
  | Some v => Some v
  | None =>
      match s with
      | EmptyString => None
      | String _ t => re_search_version pat t
      end
  end.

Fixpoint drop_prefix (pre s : string) : option string :=
  match pre, s with
  | EmptyString, _ => Some s
  | String a p, String b t => if Ascii.eqb a b then drop_prefix p t else None
  | String _ _, EmptyString => None
  end.

(** The pattern [lit\s+(version)] at the start of [s]. *)
Definition match_after (lit : string) (pat : version_pattern) (s : string) : option string :=
  match drop_prefix lit s with
  | Some (String c t) =>
      if is_space c then match_version pat (lstrip t) else None
  | _ => None
  end.

(** [re.search(lit + r'\s+(version)', s)]: group 1 of the leftmost match,
    [lit] being the literal text the escaped pattern stands for. *)
Fixpoint re_search_after (lit : string) (pat : version_pattern) (s : string) : option string :=
  match match_after lit pat s with
  | Some v => Some v
  | None =>
      match s with
      | EmptyString => None
      | String _ t => re_search_after lit pat t
      end
  end.

End PyStr.

Import PyStr.

(** ** The data model ([program_detector.py], [update_installer.py]) *)

(** The dataclass [Program]; [==] on it compares all fields. *)
Record Program := mkProgram {
  name : string;
  version : string;
  publisher : string;
  install_location : string;
  update_available : bool;
  available_version : string;
  source : string;
  package_id : string
}.

Global Instance Program_eq_dec : EqDecision Program.
Proof. solve_decision. Defined.

(** [Program(name=.., version=.., package_id=.., source=..)]: the other
    fields take the defaults of the dataclass. *)
Definition new_program (n v pub loc src pid : string) : Program :=
  {| name := n; version := v; publisher := pub; install_location := loc;
     update_available := false; available_version := EmptyString;
     source := src; package_id := pid |}.

(** The two assignments [program.available_version = v] and
    [program.update_available = True]. *)
Definition mark_update (p : Program) (v : string) : Program :=
  {| name := name p; version := version p; publisher := publisher p;
     install_location := install_location p;
     update_available := true; available_version := v;
     source := source p; package_id := package_id p |}.

(** The class [UpdateResult] once [_install_single_update] has filled it in.
    The wall-clock fields [start_time] and [end_time] are both set by then
    and carry no information the model uses. *)
Record UpdateResult := mkResult {
  program : Program;
  success : bool;
  error_message : string;
  output : string
}.

(** The part of the configuration the core reads ([config_manager.py]); a
    flag holds the truth value of what [get] returns.  The limit of
    concurrent updates is an integer, or absent: a configuration file that
    stores anything else under that key is outside this record. *)
Record Config := mkConfig {
  winget_enabled : bool;
  chocolatey_enabled : bool;
  custom_enabled : bool;
  create_backups : bool;
  update_all_at_once : bool;
  max_concurrent_updates : option Z;
  download_only : bool;
  excluded_programs : list string;
  excluded_publishers : list string;
  excluded_keywords : list string
}.

(** [_get_default_config] *)
Definition default_config : Config :=
  {| winget_enabled := true; chocolatey_enabled := true; custom_enabled := true;
     create_backups := true; update_all_at_once := false;
     max_concurrent_updates := Some 3; download_only := false;
     excluded_programs :=
       ["Windows Security"; "Microsoft Edge WebView2";
        "Microsoft Visual C++ Redistributable"];
     excluded_publishers := ["Microsoft Corporation"];
     excluded_keywords := ["driver"; "codec"] |}.

(** [ConfigManager.is_program_excluded] *)
Definition is_program_excluded (cfg : Config) (program_name publisher : string) : bool :=
  if bool_decide (lower program_name ∈ map lower (excluded_programs cfg)) then true
  else if negb (is_empty publisher)
          && bool_decide (lower publisher ∈ map lower (excluded_publishers cfg))
  then true
  else existsb (fun keyword => contains (lower keyword) (lower program_name))
               (excluded_keywords cfg).

(** ** External processes, exceptions and the trace *)

(** What [subprocess.run] and the code around it can raise. *)
Inductive exn :=
| FileNotFoundError (msg : string)
| TimeoutExpired (msg : string)
| OtherError (msg : string).

(** [str(e)] *)
Definition exn_str (e : exn) : string :=
  match e with
  | FileNotFoundError msg => msg
  | TimeoutExpired msg => msg
  | OtherError msg => msg
  end.

(** [subprocess.CompletedProcess] with captured text output. *)
Record CompletedProcess := mkCompleted {
  returncode : Z;
  stdout : string;
  stderr : string
}.

(** The observable effects of the core, in the order they happen. *)
Inductive event :=
| Run (cmd : list string)
| Backup (programs : list Program)
| Progress (n : string) (ok : bool) (completed total : nat).

Definition trace := list event.

(** The external world: what a command does, given all that happened. *)
Definition tool_oracle := trace -> list string -> exn + CompletedProcess.

(** Computations that pass the trace along and may raise. *)
Definition M (A : Type) : Type := trace -> (exn + A) * trace.

Definition ret {A} (a : A) : M A := fun tr => (inr a, tr).

Definition raise {A} (e : exn) : M A := fun tr => (inl e, tr).

Definition bind {A B} (m : M A) (f : A -> M B) : M B :=
  fun tr =>
    match m tr with
    | (inr a, tr') => f a tr'
    | (inl e, tr') => (inl e, tr')
    end.

(** [try: body except Exception as e: handler(e)] *)
Definition try_except {A} (body : M A) (handler : exn -> M A) : M A :=
  fun tr =>
    match body tr with
    | (inr a, tr') => (inr a, tr')
    | (inl e, tr') => handler e tr'
    end.

Definition emit (e : event) : M unit := fun tr => (inr tt, (tr ++ [e])%list).

Declare Scope py_scope.
Delimit Scope py_scope with py.
Notation "x <- m ;; k" := (bind m (fun x => k))
  (at level 100, m at next level, right associativity) : py_scope.
Notation "m ;;; k" := (bind m (fun _ => k))
  (at level 100, right associativity) : py_scope.
Local Open Scope py_scope.

(** [subprocess.run(cmd, ...)]: the call is recorded, the oracle answers. *)
Definition subprocess_run (tool : tool_oracle) (cmd : list string) : M CompletedProcess :=
  fun tr => (tool tr cmd, (tr ++ [Run cmd])%list).

(** A [for] loop whose body threads an accumulator. *)
Fixpoint for_each {A S} (l : list A) (body : S -> A -> M S) (s : S) : M S :=
  match l with
  | [] => ret s
  | x :: r => s' <- body s x ;; for_each r body s'
  end.

(** No exception leaves the computation. *)
Definition never_raises {A} (m : M A) : Prop :=
  forall tr, exists a, fst (m tr) = inr a.

(** The commands recorded in a trace. *)
Definition runs (tr : trace) : list (list string) :=
  omap (fun e => match e with Run c => Some c | _ => None end) tr.

(** ** The program detector ([program_detector.py]) *)

Module ProgramDetector.

Definition newline : ascii := ascii_of_nat 10.
Definition tab : ascii := ascii_of_nat 9.

(** One line of [_parse_winget_output]; the state is [header_found] and
    [self.programs]. *)
Definition winget_line (st : bool * list Program) (raw : string) : bool * list Program :=
  let '(header_found, programs) := st in
  let line := strip raw in
  if is_empty line then st
  else if contains "Name" line && contains "Id" line && contains "Version" line
  then (true, programs)
  else if negb header_found || startswith "-" line then st
  else
    match re_split_2ws false line with
    | part0 :: part1 :: part2 :: _ =>
        let n := strip part0 in
        let pid := strip part1 in
        let version_str := strip part2 in
        if is_empty n || String.eqb n "Unknown" then st
        else if existsb (fun p => String.eqb (name p) n) programs then st
        else (header_found,
              (programs ++ [new_program n version_str EmptyString EmptyString "winget" pid])%list)
    | _ => st
    end.

Definition _parse_winget_output (output : string) (programs : list Program) : list Program :=
  snd (fold_left winget_line (split_char newline output) (false, programs)).

(** [_is_valid_program]; the entry is the dict built by the registry parser. *)
Definition skip_keywords : list string :=
  ["hotfix"; "security update"; "kb"; "update for";
   "redistributable"; "runtime"; "microsoft visual c++";
   "service pack"; "language pack"; ".net framework"].

Definition _is_valid_program (program_data : gmap string string) : bool :=
  match program_data !! "name" with
  | None => false
  | Some n =>
      if is_empty n then false
      else negb (existsb (fun keyword => contains keyword (lower n)) skip_keywords)
  end.

Definition _add_registry_program (program_data : gmap string string)
    (programs : list Program) : list Program :=
  let n := default EmptyString (program_data !! "name") in
  if existsb (fun p => String.eqb (name p) n) programs then programs
  else (programs ++
        [new_program n
           (default "Unknown" (program_data !! "version"))
           (default EmptyString (program_data !! "publisher"))
           (default EmptyString (program_data !! "install_location"))
           "registry" EmptyString])%list.

(** [if current_program and self._is_valid_program(current_program)] *)
Definition save_if_valid (current_program : gmap string string)
    (programs : list Program) : list Program :=
  if negb (bool_decide (current_program = ∅)) && _is_valid_program current_program
  then _add_registry_program current_program programs
  else programs.

(** One line of [_parse_registry_output]; the state is [current_program]
    and [self.programs]. *)
Definition registry_line (st : gmap string string * list Program) (raw : string)
    : gmap string string * list Program :=
  let '(current_program, programs) := st in
  let line := strip raw in
  if is_empty line then st
  else if startswith "HKEY_" line then (∅, save_if_valid current_program programs)
  else if contains (String tab EmptyString) line || contains "    " line then
    match re_split_ws 2 false line with
    | value_name :: _ :: value_data :: _ =>
        if String.eqb value_name "DisplayName"
        then (<["name" := value_data]> current_program, programs)
        else if String.eqb value_name "DisplayVersion"
        then (<["version" := value_data]> current_program, programs)
        else if String.eqb value_name "Publisher"
        then (<["publisher" := value_data]> current_program, programs)
        else if String.eqb value_name "InstallLocation"
        then (<["install_location" := value_data]> current_program, programs)
        else st
    | _ => st
    end
  else st.

Definition _parse_registry_output (output : string) (programs : list Program) : list Program :=
  if is_empty output then programs
  else
    let '(current_program, programs') :=
      fold_left registry_line (split_char newline output) (∅, programs) in
    save_if_valid current_program programs'.

(** One line of [_parse_chocolatey_output]. *)
Definition chocolatey_line (programs : list Program) (raw : string) : list Program :=
  let line := strip raw in
  if is_empty line || startswith "Chocolatey" line then programs
  else
    match split_char " " line with
    | n :: version_str :: _ =>
        if existsb (fun p => String.eqb (package_id p) n) programs then programs
        else (programs ++
              [new_program (title (replace_char "-" " " n)) version_str EmptyString EmptyString
                 "chocolatey" n])%list
    | _ => programs
    end.

Definition _parse_chocolatey_output (output : string) (programs : list Program) : list Program :=
  fold_left chocolatey_line (split_char newline output) programs.

Definition winget_list_cmd : list string :=
  ["winget"; "list"; "--accept-source-agreements"].

Definition registry_paths : list string :=
  ["HKLM\SOFTWARE\Microsoft\Windows\CurrentVersion\Uninstall";
   "HKLM\SOFTWARE\WOW6432Node\Microsoft\Windows\CurrentVersion\Uninstall"].

Definition reg_query_cmd (reg_path : string) : list string :=
  ["reg"; "query"; reg_path; "/s"].

Definition choco_list_cmd : list string := ["choco"; "list"; "--local-only"].

Section Scans.
Variable tool : tool_oracle.

Definition _scan_winget (programs : list Program) : M (list Program) :=
  try_except
    (result <- subprocess_run tool winget_list_cmd ;;
     if returncode result =? 0
     then ret (_parse_winget_output (stdout result) programs)
     else ret programs)
    (fun e =>
       match e with
       | FileNotFoundError _ => ret programs
       | TimeoutExpired _ => ret programs
       | OtherError _ => ret programs
       end).

Definition scan_registry_path (programs : list Program) (reg_path : string)
    : M (list Program) :=
  try_except
    (result <- subprocess_run tool (reg_query_cmd reg_path) ;;
     if (returncode result =? 0) && negb (is_empty (stdout result))
     then ret (_parse_registry_output (stdout result) programs)
     else ret programs)
    (fun e =>
       match e with
       | TimeoutExpired _ => ret programs
       | _ => ret programs
       end).

Definition _scan_registry (programs : list Program) : M (list Program) :=
  try_except
    (for_each registry_paths scan_registry_path programs)
    (fun _ => ret programs).

Definition _scan_chocolatey (programs : list Program) : M (list Program) :=
  try_except
    (result <- subprocess_run tool choco_list_cmd ;;
     if returncode result =? 0
     then ret (_parse_chocolatey_output (stdout result) programs)
     else ret programs)
    (fun e =>
       match e with
       | FileNotFoundError _ => ret programs
       | TimeoutExpired _ => ret programs
       | OtherError _ => ret programs
       end).
End Scans.

(** [priority.get(source, 4)] over
    [{"winget": 1, "chocolatey": 2, "registry": 3}] *)
Definition priority (src : string) : Z :=
  if String.eqb src "winget" then 1
  else if String.eqb src "chocolatey" then 2
  else if String.eqb src "registry" then 3
  else 4.

(** [list.sort(key=...)] is stable: an element goes before the first one
    whose key is not smaller, and the elements are inserted from the last
    to the first. *)
Fixpoint insert_by_priority (p : Program) (l : list Program) : list Program :=
  match l with
  | [] => [p]
  | q :: r =>
      if priority (source p) <=? priority (source q) then p :: l
      else q :: insert_by_priority p r
  end.

Definition sort_by_priority (l : list Program) : list Program :=
  foldr insert_by_priority [] l.

(** The identity key [program.name.lower().strip()] *)
Definition key (p : Program) : string := strip (lower (name p)).

(** The body of the loop of [_deduplicate_programs]; the state is [seen]
    and [unique_programs]. *)
Definition dedup_step (st : gmap string Program * list Program) (p : Program)
    : gmap string Program * list Program :=
  let '(seen, unique_programs) := st in
  match seen !! key p with
  | None => (<[key p := p]> seen, (unique_programs ++ [p])%list)
  | Some existing =>
      if priority (source p) <? priority (source existing)
      then (<[key p := p]> seen,
            (filter (fun q => q <> existing) unique_programs ++ [p])%list)
      else st
  end.

Definition _deduplicate_programs (programs : list Program) : list Program :=
  snd (fold_left dedup_step (sort_by_priority programs) (∅, [])).

Definition scan_installed_programs (tool : tool_oracle) : M (list Program) :=
  programs <- _scan_winget tool [] ;;
  programs <- _scan_registry tool programs ;;
  programs <- _scan_chocolatey tool programs ;;
  ret (_deduplicate_programs programs).

End ProgramDetector.

(** ** The update checker ([update_checker.py]) *)

(** The interface of [packaging.version] the checker uses: [parse] (which
    raises [InvalidVersion], here [None]) and the order [>] on versions. *)
Record VersionLib := mkVersionLib {
  Version : Type;
  version_parse : string -> option Version;
  version_gt : Version -> Version -> bool
}.

(** What [re.search] does with a pattern built at run time: the pattern may
    be ill-formed ([re.error]), may not match, or yields its group 1. *)
Inductive re_result :=
| re_error
| re_no_match
| re_match (group1 : string).

Module UpdateChecker.

Definition winget_upgrade_check_cmd (pid : string) : list string :=
  ["winget"; "upgrade"; "--id"; pid; "--exact"; "--accept-source-agreements"].

Definition choco_upgrade_check_cmd (pid : string) : list string :=
  ["choco"; "upgrade"; pid; "--noop"].

Definition winget_search_cmd (query : string) : list string :=
  ["winget"; "search"; query; "--exact"].

Section Checker.
Variable cfg : Config.
Variable tool : tool_oracle.
Variable lib : VersionLib.
(** [re.search(rf'{package_id} v(\d+\.\d+\.\d+[\.\d]* )', stdout)], by
    package id and output. *)
Variable re_search_package : string -> string -> re_result.

Definition _check_winget_updates (p : Program) : M Program :=
  try_except
    (if is_empty (package_id p) then ret p
     else
       result <- subprocess_run tool (winget_upgrade_check_cmd (package_id p)) ;;
       if contains "upgrade available" (lower (stdout result))
          || contains "available" (lower (stdout result))
       then
         match re_search_version three_groups_tail (stdout result) with
         | Some v => ret (mark_update p v)
         | None => ret (mark_update p "Unknown")
         end
       else ret p)
    (fun e =>
       match e with
       | TimeoutExpired _ => ret p
       | _ => ret p
       end).

Definition _check_chocolatey_updates (p : Program) : M Program :=
  try_except
    (if is_empty (package_id p) then ret p
     else
       result <- subprocess_run tool (choco_upgrade_check_cmd (package_id p)) ;;
       if contains "would like to upgrade" (lower (stdout result))
       then
         match re_search_package (package_id p) (stdout result) with
         | re_match v => ret (mark_update p v)
         | re_no_match => ret (mark_update p "Unknown")
         | re_error => raise (OtherError "re.error")
         end
       else ret p)
    (fun e =>
       match e with
       | TimeoutExpired _ => ret p
       | _ => ret p
       end).

(** The inner [try] of a custom checker: [version.parse] of the first
    word of the current version and of the candidate, then [>].  An
    empty current version ([IndexError]) or an unparsable one is
    swallowed by the bare [except]. *)
Definition compare_and_mark (p : Program) (candidate : string) : Program :=
  match split_ws (version p) with
  | [] => p
  | word :: _ =>
      match version_parse lib word, version_parse lib candidate with
      | Some current_ver, Some available_ver =>
          if version_gt lib available_ver current_ver
          then mark_update p candidate
          else p
      | _, _ => p
      end
  end.

(** The shape shared by the four custom checkers: [winget search] of a
    package, the version that follows the package id in the output. *)
Definition check_via_search (package : string) (pat : version_pattern)
    (p : Program) : M Program :=
  try_except
    (result <- subprocess_run tool (winget_search_cmd package) ;;
     if returncode result =? 0 then
       match re_search_after package pat (stdout result) with
       | Some candidate => ret (compare_and_mark p candidate)
       | None => ret p
       end
     else ret p)
    (fun _ => ret p).

Definition _check_chrome_update : Program -> M Program :=
  check_via_search "Google.Chrome" three_groups_tail.

Definition _check_firefox_update : Program -> M Program :=
  check_via_search "Mozilla.Firefox" two_groups_tail.

Definition _check_vlc_update : Program -> M Program :=
  check_via_search "VideoLAN.VLC" three_groups.

Definition _check_notepadpp_update : Program -> M Program :=
  check_via_search "Notepad++.Notepad++" two_groups_tail.

Definition custom_checkers : list (string * (Program -> M Program)) :=
  [("chrome", _check_chrome_update);
   ("firefox", _check_firefox_update);
   ("vlc", _check_vlc_update);
   ("notepad++", _check_notepadpp_update)].

(** The loop of [_check_custom_updates]: the first checker whose name
    occurs in the program name runs and ends the loop; if it raised, the
    loop would go on. *)
Fixpoint run_custom_checkers (checkers : list (string * (Program -> M Program)))
    (p : Program) : M Program :=
  match checkers with
  | [] => ret p
  | (n, checker) :: rest =>
      if contains n (lower (name p))
      then try_except (checker p) (fun _ => run_custom_checkers rest p)
      else run_custom_checkers rest p
  end.

Definition _check_custom_updates (p : Program) : M Program :=
  run_custom_checkers custom_checkers p.

(** The body of the loop of [check_for_updates]; the accumulator is
    [updated_programs]. *)
Definition check_one (updated_programs : list Program) (p : Program)
    : M (list Program) :=
  if is_program_excluded cfg (name p) (publisher p)
  then ret updated_programs
  else
    p' <- (if String.eqb (source p) "winget" && winget_enabled cfg
           then _check_winget_updates p
           else if String.eqb (source p) "chocolatey" && chocolatey_enabled cfg
           then _check_chocolatey_updates p
           else if custom_enabled cfg
           then _check_custom_updates p
           else ret p) ;;
    ret (updated_programs ++ [p'])%list.

Definition check_for_updates (programs : list Program) : M (list Program) :=
  for_each programs check_one [].
End Checker.

End UpdateChecker.

(** ** Release-only versions

    The fragment of PEP 440 made of a release segment alone, as
    [packaging.version] handles it: surrounding whitespace and one leading
    [v] are dropped, the segment is a dotted list of numbers, and versions
    compare as their tuples of numbers once the trailing zeros are gone. *)

Module ReleaseVersion.

Definition digit_value (c : ascii) : N := N.of_nat (code c - 48).

Fixpoint number_go (acc : N) (s : string) : option N :=
  match s with
  | EmptyString => Some acc
  | String c t =>
      if is_digit c then number_go (10 * acc + digit_value c)%N t else None
  end.

Definition number (s : string) : option N :=
  if is_empty s then None else number_go 0%N s.

Definition drop_v (s : string) : string :=
  match s with
  | String c t => if Ascii.eqb (lower_char c) "v" then t else s
  | EmptyString => s
  end.

Definition parse (s : string) : option (list N) :=
  mapM number (split_char "." (drop_v (strip s))).

Fixpoint drop_trailing_zeros (l : list N) : list N :=
  match l with
  | [] => []
  | x :: r =>
      match drop_trailing_zeros r with
      | [] => if (x =? 0)%N then [] else [x]
      | r' => x :: r'
      end
  end.

Fixpoint tuple_gt (a b : list N) : bool :=
  match a, b with
  | [], _ => false
  | _ :: _, [] => true
  | x :: a', y :: b' =>
      if (y <? x)%N then true
      else if (x =? y)%N then tuple_gt a' b'
      else false
  end.

Definition gt (a b : list N) : bool :=
  tuple_gt (drop_trailing_zeros a) (drop_trailing_zeros b).

Definition lib : VersionLib :=
  {| Version := list N; version_parse := parse; version_gt := gt |}.

End ReleaseVersion.

(** ** The update installer ([update_installer.py]) *)

Module UpdateInstaller.

Definition winget_upgrade_cmd (cfg : Config) (pid : string) : list string :=
  (["winget"; "upgrade"; "--id"; pid; "--exact"; "--silent";
    "--accept-source-agreements"; "--accept-package-agreements"]
   ++ (if download_only cfg then ["--download"] else []))%list.

Definition choco_upgrade_cmd (pid : string) : list string :=
  ["choco"; "upgrade"; pid; "-y"].

(** A started worker thread: the position of its program in the list, the
    poll at which it was started, its program, and what its call of
    [_install_single_update] yields. *)
Record thread := mkThread {
  th_index : nat;
  th_started : nat;
  th_program : Program;
  th_outcome : exn + UpdateResult
}.

(** The variables of [_install_concurrent_updates], the number of polls
    made so far (the clock of the model) and the trace. *)
Record loop_state := mkLoop {
  program_index : nat;
  threads : list thread;
  active_threads : Z;
  results : gmap string UpdateResult;
  completed : nat;
  polls : nat;
  events : trace
}.

Section Installer.
Variable cfg : Config.
Variable tool : tool_oracle.
(** Whether a [progress_callback] was passed; a callback that is passed
    is one that returns normally, and its calls are recorded. *)
Variable progress_callback : bool.
(** [thread.is_alive()] at a poll, for the thread started at a given
    poll on the program at a given index. *)
Variable is_alive : nat -> nat -> nat -> bool.

(** [self.config.get('update_behavior.max_concurrent_updates', 3)] *)
Definition max_concurrent : Z := default 3 (max_concurrent_updates cfg).

Definition _install_winget_update (p : Program) : M (bool * string * string) :=
  try_except
    (if is_empty (package_id p) then ret (false, EmptyString, "No package ID available")
     else
       result <- subprocess_run tool (winget_upgrade_cmd cfg (package_id p)) ;;
       ret (returncode result =? 0, stdout result, stderr result))
    (fun e =>
       match e with
       | TimeoutExpired _ => ret (false, EmptyString, "Update timed out")
       | _ => ret (false, EmptyString, "Exception: " +:+ exn_str e)
       end).

Definition _install_chocolatey_update (p : Program) : M (bool * string * string) :=
  try_except
    (if is_empty (package_id p) then ret (false, EmptyString, "No package ID available")
     else
       result <- subprocess_run tool (choco_upgrade_cmd (package_id p)) ;;
       ret (returncode result =? 0, stdout result, stderr result))
    (fun e =>
       match e with
       | TimeoutExpired _ => ret (false, EmptyString, "Update timed out")
       | _ => ret (false, EmptyString, "Exception: " +:+ exn_str e)
       end).

Definition _install_custom_update (p : Program) : M (bool * string * string) :=
  ret (false, EmptyString, "Custom update not implemented").

Definition _install_single_update (p : Program) : M UpdateResult :=
  try_except
    (r <- (if String.eqb (source p) "winget" then _install_winget_update p
           else if String.eqb (source p) "chocolatey" then _install_chocolatey_update p
           else _install_custom_update p) ;;
     let '(ok, out, err) := r in
     ret {| program := p; success := ok; error_message := err; output := out |})
    (fun e =>
       ret {| program := p; success := false;
              error_message := exn_str e; output := EmptyString |}).

(** [_create_backup]: the snapshot is written once; a failure of the
    file system is swallowed by the [except] of the source. *)
Definition _create_backup (programs : list Program) : M unit :=
  try_except (emit (Backup programs)) (fun _ => ret tt).

Definition call_progress (n : string) (ok : bool) (done total : nat) : M unit :=
  if progress_callback then emit (Progress n ok done total) else ret tt.

(** The body of the sequential loop of [install_updates]. *)
Definition sequential_step (total : nat) (res : gmap string UpdateResult)
    (p : Program) : M (gmap string UpdateResult) :=
  result <- _install_single_update p ;;
  let res' := <[name p := result]> res in
  call_progress (name p) (success result) (size res') total ;;;
  ret res'.

Section Concurrent.
Variable programs : list Program.

(** [thread.start()] and the three assignments after it.  The worker
    spawns its process at once; what it will write is kept in the
    thread until the worker ends. *)
Definition start_thread (st : loop_state) (p : Program) : loop_state :=
  let '(outcome, tr') := _install_single_update p (events st) in
  {| program_index := S (program_index st);
     threads := (threads st ++
                 [{| th_index := program_index st; th_started := polls st;
                     th_program := p; th_outcome := outcome |}])%list;
     active_threads := active_threads st + 1;
     results := results st;
     completed := completed st;
     polls := polls st;
     events := tr' |}.

(** The inner [while]: it runs at most once per program left. *)
Fixpoint spawn_loop (n : nat) (st : loop_state) : loop_state :=
  match n with
  | O => st
  | S n' =>
      if (active_threads st <? max_concurrent)
         && (program_index st <? length programs)%nat
      then match programs !! program_index st with
           | Some p => spawn_loop n' (start_thread st p)
           | None => st
           end
      else st
  end.

Definition spawn (st : loop_state) : loop_state :=
  spawn_loop (length programs - program_index st) st.

(** The end of [update_worker]: the result is stored under the name of
    the program, [completed] grows and the callback is called.  A
    worker that raised stores nothing. *)
Definition worker_finish (st : loop_state) (th : thread) : loop_state :=
  match th_outcome th with
  | inr result =>
      {| program_index := program_index st;
         threads := threads st;
         active_threads := active_threads st;
         results := <[name (th_program th) := result]> (results st);
         completed := S (completed st);
         polls := polls st;
         events :=
           snd (call_progress (name (th_program th)) (success result)
                  (S (completed st)) (length programs) (events st)) |}
  | inl _ => st
  end.

(** [threads.remove(thread)]: thread objects are equal only to
    themselves, and the index of the program tells them apart. *)
Definition remove_thread (th : thread) (l : list thread) : list thread :=
  filter (fun t => th_index t <> th_index th) l.

(** One round of the [for] over the copy [threads[:]]: a thread found
    dead is joined (its worker has ended), removed and discounted. *)
Definition reap_one (st : loop_state) (th : thread) : loop_state :=
  if is_alive (polls st) (th_started th) (th_index th) then st
  else
    let st' := worker_finish st th in
    {| program_index := program_index st';
       threads := remove_thread th (threads st');
       active_threads := active_threads st' - 1;
       results := results st';
       completed := completed st';
       polls := polls st';
       events := events st' |}.

Definition reap (st : loop_state) : loop_state :=
  foldl reap_one st (threads st).

(** [time.sleep(0.1)]: the clock of the model advances by one poll. *)
Definition sleep (st : loop_state) : loop_state :=
  {| program_index := program_index st;
     threads := threads st;
     active_threads := active_threads st;
     results := results st;
     completed := completed st;
     polls := S (polls st);
     events := events st |}.

(** One turn of the outer [while]. *)
Definition iteration (st : loop_state) : loop_state :=
  sleep (reap (spawn st)).

Definition loop_condition (st : loop_state) : bool :=
  (program_index st <? length programs)%nat || (0 <? active_threads st).

(** The outer [while]; [None] when the fuel does not reach its end. *)
Fixpoint poll_loop (fuel : nat) (st : loop_state) : option loop_state :=
  if loop_condition st then
    match fuel with
    | O => None
    | S fuel' => poll_loop fuel' (iteration st)
    end
  else Some st.

(** The final [for thread in threads: thread.join()]: each thread
    left is waited for, so its worker ends. *)
Definition join_all (st : loop_state) : loop_state :=
  foldl worker_finish st (threads st).

Definition initial (tr : trace) : loop_state :=
  {| program_index := 0; threads := []; active_threads := 0;
     results := ∅; completed := 0; polls := 0; events := tr |}.

Definition _install_concurrent_updates (fuel : nat) (tr : trace)
    : option ((exn + gmap string UpdateResult) * trace) :=
  match poll_loop fuel (initial tr) with
  | None => None
  | Some st =>
      let st' := join_all st in
      Some (inr (results st'), events st')
  end.

(** The threads that are running at the current poll. *)
Definition running (st : loop_state) : list thread :=
  filter (fun th => is_alive (polls st) (th_started th) (th_index th) = true)
         (threads st).
End Concurrent.

(** [install_updates]; [None] when the fuel of the polling loop does not
    reach the end of the call.  [_log_update_summary] only computes
    three numbers that it drops. *)
Definition install_updates (fuel : nat) (programs : list Program) (tr : trace)
    : option ((exn + gmap string UpdateResult) * trace) :=
  let programs_to_update := filter (fun p => update_available p = true) programs in
  match programs_to_update with
  | [] => Some (inr ∅, tr)
  | _ :: _ =>
      match (if create_backups cfg then _create_backup programs_to_update
             else ret tt) tr with
      | (inl e, tr1) => Some (inl e, tr1)
      | (inr _, tr1) =>
          if update_all_at_once cfg
          then Some (for_each programs_to_update
                       (sequential_step (length programs_to_update)) ∅ tr1)
          else _install_concurrent_updates programs_to_update fuel tr1
      end
  end.
End Installer.

End UpdateInstaller.

(** * Invariants and instances used by the proofs *)

Import ProgramDetector UpdateChecker UpdateInstaller.

(** What holds of [seen] and [unique_programs] once the programs of [done]
    have gone through the loop of [_deduplicate_programs]. *)
Record dedup_inv (done : list Program) (seen : gmap string Program)
    (unique : list Program) : Prop := {
  inv_nodup : NoDup unique;
  inv_unique_seen : ∀ p, p ∈ unique → seen !! key p = Some p;
  inv_seen_unique : ∀ k p, seen !! k = Some p → p ∈ unique ∧ key p = k;
  inv_seen_done : ∀ k p, seen !! k = Some p → p ∈ done;
  inv_seen_best : ∀ k p q, seen !! k = Some p → q ∈ done → key q = k →
                    priority (source p) <= priority (source q);
  inv_done_seen : ∀ q, q ∈ done → is_Some (seen !! key q)
}.

(** A call that did not deliver: the tool is missing, timed out, failed in
    some other way, or ended with a nonzero exit code. *)
Definition soft_failure (o : exn + CompletedProcess) : Prop :=
  match o with
  | inl _ => True
  | inr r => returncode r ≠ 0
  end.

(** A world in which no external tool exists. *)
Definition no_tools : tool_oracle :=
  fun _ cmd => inl (FileNotFoundError (default EmptyString (head cmd))).

(** A world in which every command succeeds and prints [out]. *)
Definition prints (out : string) : tool_oracle :=
  fun _ _ => inr {| returncode := 0; stdout := out; stderr := EmptyString |}.

(** The caching of a missing tool, read on two scans in a row: once the
    [winget] call of a scan has raised [FileNotFoundError], the next scan
    does not run [winget] again. *)
Definition scan_caches_not_found (tool : tool_oracle) : Prop :=
  ∀ tr msg,
    tool tr winget_list_cmd = inl (FileNotFoundError msg) →
    let tr1 := snd (scan_installed_programs tool tr) in
    winget_list_cmd ∉ runs (drop (length tr1) (snd (scan_installed_programs tool tr1))).

(** An update check that flags a program only for a candidate that is
    greater than the current version, whenever both parse.  The current
    version is read as the checkers read it: its first word. *)
Definition flags_only_newer (lib : VersionLib) (check : Program → M Program) : Prop :=
  ∀ p tr p' word current candidate,
    fst (check p tr) = inr p' →
    update_available p = false →
    update_available p' = true →
    head (split_ws (version p)) = Some word →
    version_parse lib word = Some current →
    version_parse lib (available_version p') = Some candidate →
    version_gt lib candidate current = true.

(** A pattern built from a package id that never matches. *)
Definition no_package_match : string → string → re_result :=
  fun _ _ => re_no_match.

(** A pattern built from a package id that does not compile, so that
    [re.search] raises [re.error]: such is the pattern of the package id
    [app(x64], whose opening parenthesis is never closed. *)
Definition ill_formed_pattern : string → string → re_result :=
  fun _ _ => re_error.

(** A chocolatey program whose package id gives an ill-formed pattern, and
    an output of [choco upgrade --noop] that announces an upgrade and holds
    no version. *)
Definition unclosed_parenthesis : Program :=
  new_program "App" "1.0" EmptyString EmptyString "chocolatey" "app(x64".

Definition upgrade_without_version : string :=
  "Chocolatey would like to upgrade app(x64".

(** Every worker ends within [D] polls of its start (an install is cut off
    by the timeout of its process call). *)
Definition bounded_lifetime (is_alive : nat → nat → nat → bool) (D : nat) : Prop :=
  ∀ now started i, (started + D ≤ now)%nat → is_alive now started i = false.

(** A worker that lives for [d] polls. *)
Definition alive_for (d : nat) : nat → nat → nat → bool :=
  fun now started _ => (now <? started + d)%nat.

Section LoopInvariants.

Variable cfg : Config.
Variable tool : tool_oracle.
Variable programs : list Program.

(** A started thread works on the program at its index and holds the
    result of the install of that program. *)
Record thread_ok (index : nat) (th : thread) : Prop := {
  tok_index : (th_index th < index)%nat;
  tok_program : programs !! th_index th = Some (th_program th);
  tok_outcome : ∃ r tr0, th_outcome th = inr r
                         ∧ fst (_install_single_update cfg tool (th_program th) tr0)
                           = inr r
}.

(** The invariant of the polling loop of [_install_concurrent_updates]. *)
Record loop_inv (st : loop_state) : Prop := {
  li_index : (program_index st ≤ length programs)%nat;
  li_active : active_threads st = Z.of_nat (length (threads st));
  li_bound : active_threads st <= Z.max 0 (max_concurrent cfg);
  li_nodup : NoDup (th_index <$> threads st);
  li_threads : ∀ th, th ∈ threads st → thread_ok (program_index st) th;
  li_cover : ∀ i p, (i < program_index st)%nat → programs !! i = Some p →
               i ∈ (th_index <$> threads st) ∨ is_Some (results st !! name p);
  li_results : ∀ n r, results st !! n = Some r →
                 ∃ p tr0, p ∈ programs ∧ name p = n
                          ∧ fst (_install_single_update cfg tool p tr0) = inr r
}.

(** No thread of the list has outlived the bound yet. *)
Definition young (D : nat) (st : loop_state) : Prop :=
  ∀ th, th ∈ threads st → (polls st ≤ th_started th + D)%nat.

(** What is left to do: the polls each thread may still live, and a full
    life plus one for each program not started. *)
Definition measure (D : nat) (st : loop_state) : nat :=
  (sum_list_with (fun th => th_started th + D + 1 - polls st) (threads st)
   + (D + 2) * (length programs - program_index st))%nat.

End LoopInvariants.

(** The result map of an install run over the programs [todo]: every
    program has an entry under its name, and every entry is keyed by the
    name of a program of [todo] and holds what the install of that program
    yields. *)
Definition covers (cfg : Config) (tool : tool_oracle) (todo : list Program)
    (res : gmap string UpdateResult) : Prop :=
  (∀ p, p ∈ todo → is_Some (res !! name p))
  ∧ (∀ n r, res !! n = Some r →
       ∃ p tr0, p ∈ todo ∧ name p = n
                ∧ fst (_install_single_update cfg tool p tr0) = inr r).

(** The programs [install_updates] attempts. *)
Definition attempted (programs : list Program) : list Program :=
  filter (fun p => update_available p = true) programs.

(** The state of the polling loop after [n] turns. *)
Definition run_polls (cfg : Config) (tool : tool_oracle) (progress_callback : bool)
    (is_alive : nat → nat → nat → bool) (programs : list Program)
    (n : nat) (tr : trace) : loop_state :=
  Nat.iter n (iteration cfg tool progress_callback is_alive programs) (initial tr).

(** No more threads than the limit are running, or started and not yet
    joined, in a state of the polling loop. *)
Definition within_limit (cfg : Config) (is_alive : nat → nat → nat → bool)
    (st : loop_state) : Prop :=
  Z.of_nat (length (running is_alive st)) <= max_concurrent cfg
  ∧ Z.of_nat (length (threads st)) <= max_concurrent cfg.

(** A call of [install_updates] ends: it returns or it raises. *)
Definition install_updates_ends (cfg : Config) (tool : tool_oracle)
    (progress_callback : bool) (is_alive : nat → nat → nat → bool)
    (programs : list Program) (tr : trace) : Prop :=
  ∃ fuel out,
    install_updates cfg tool progress_callback is_alive fuel programs tr = Some out.

(** The default configuration with another limit of concurrent updates. *)
Definition config_with_limit (k : Z) : Config :=
  {| winget_enabled := true; chocolatey_enabled := true; custom_enabled := true;
     create_backups := true; update_all_at_once := false;
     max_concurrent_updates := Some k; download_only := false;
     excluded_programs := excluded_programs default_config;
     excluded_publishers := excluded_publishers default_config;
     excluded_keywords := excluded_keywords default_config |}.

(** A program with an update available. *)
Definition updatable (n src pid : string) : Program :=
  mark_update (new_program n "1.0" EmptyString EmptyString src pid) "2.0".

(** A world in which [winget] works and [choco] is missing. *)
Definition only_winget : tool_oracle :=
  fun _ cmd =>
    match cmd with
    | "winget" :: _ => inr {| returncode := 0; stdout := "ok"; stderr := EmptyString |}
    | _ => inl (FileNotFoundError "choco")
    end.

(** Five programs with updates, the third of which cannot be installed. *)
Definition five_programs : list Program :=
  [updatable "Alpha" "winget" "Vendor.Alpha";
   updatable "Beta" "winget" "Vendor.Beta";
   updatable "Gamma" "chocolatey" "gamma";
   updatable "Delta" "winget" "Vendor.Delta";
   updatable "Epsilon" "winget" "Vendor.Epsilon"].

(** * Further definitions: what the rest of the code computes *)

(** The rank of the source of a program, and the order of the sort. *)
Definition rank (p : Program) : Z := priority (source p).

Definition by_rank (p q : Program) : Prop := rank p <= rank q.

(** The first record of each identity key, the keys of [seen] left out. *)
Fixpoint keep_first (seen : gset string) (l : list Program) : list Program :=
  match l with
  | [] => []
  | p :: r =>
      if decide (key p ∈ seen) then keep_first seen r
      else p :: keep_first ({[key p]} ∪ seen) r
  end.

(** [programs'] is [programs] followed by records that satisfy [ok] and
    whose identifiers [id] are new and distinct. *)
Definition extends_by (ok : Program → Prop) (id : Program → string)
    (programs programs' : list Program) : Prop :=
  ∃ added,
    programs' = programs ++ added
    ∧ Forall ok added
    ∧ NoDup (id <$> added)
    ∧ ∀ a, a ∈ added → id a ∉ id <$> programs.

(** The header line of the table [winget list] prints. *)
Definition is_winget_header (line : string) : bool :=
  contains "Name" line && contains "Id" line && contains "Version" line.

(** What [_parse_winget_output] builds. *)
Definition winget_record (a : Program) : Prop :=
  source a = "winget" ∧ name a ≠ EmptyString ∧ name a ≠ "Unknown"
  ∧ publisher a = EmptyString ∧ install_location a = EmptyString
  ∧ update_available a = false ∧ available_version a = EmptyString.

(** What [_add_registry_program] builds from a valid entry. *)
Definition registry_record (a : Program) : Prop :=
  source a = "registry" ∧ package_id a = EmptyString
  ∧ name a ≠ EmptyString
  ∧ (∀ keyword, keyword ∈ skip_keywords → contains keyword (lower (name a)) = false)
  ∧ update_available a = false ∧ available_version a = EmptyString.

(** What [_parse_chocolatey_output] builds. *)
Definition chocolatey_record (a : Program) : Prop :=
  source a = "chocolatey"
  ∧ name a = title (replace_char "-" " " (package_id a))
  ∧ publisher a = EmptyString ∧ install_location a = EmptyString
  ∧ update_available a = false ∧ available_version a = EmptyString.

(** A record as a scan leaves it: a known source and no update flagged. *)
Definition scanned_record (a : Program) : Prop :=
  (source a = "winget" ∨ source a = "registry" ∨ source a = "chocolatey")
  ∧ update_available a = false ∧ available_version a = EmptyString.

(** ** The configuration tree ([config_manager.py])

    What [json.load] yields: a [dict] keeps its items in the order of
    their insertion, so it is a list of pairs whose first match is the
    item of a key.  A number is kept as an integer; no code below looks
    at it. *)
#[warnings="-register-all"]
Inductive value :=
| VDict (items : list (string * value))
| VList (elems : list value)
| VStr (s : string)
| VNum (z : Z)
| VBool (b : bool)
| VNone.

Module ConfigManager.

(** [d[key]] on a dict; [None] stands for [KeyError]. *)
Fixpoint dict_get (key : string) (items : list (string * value)) : option value :=
  match items with
  | [] => None
  | (k, v) :: rest => if String.eqb k key then Some v else dict_get key rest
  end.

(** [d[key] = v] on a dict: the item of the key is replaced where it is,
    a new key goes to the end. *)
Fixpoint dict_set (key : string) (v : value) (items : list (string * value))
    : list (string * value) :=
  match items with
  | [] => [(key, v)]
  | (k, w) :: rest =>
      if String.eqb k key then (k, v) :: rest else (k, w) :: dict_set key v rest
  end.

(** [value[key]] with a string key: [KeyError] on a dict without the key,
    [TypeError] on anything that is not a dict. *)
Definition subscript (v : value) (key : string) : option value :=
  match v with
  | VDict items => dict_get key items
  | _ => None
  end.

(** The loop of [get]. *)
Fixpoint walk (keys : list string) (v : value) : option value :=
  match keys with
  | [] => Some v
  | key :: rest =>
      match subscript v key with
      | Some child => walk rest child
      | None => None
      end
  end.

(** [ConfigManager.get]: both exceptions give the default. *)
Definition get (config : value) (key_path : string) (default : value) : value :=
  match walk (split_char "." key_path) config with
  | Some v => v
  | None => default
  end.

(** The loop of [set] over [keys[:-1]] and the assignment to [keys[-1]],
    on the object [config]: the object as the code leaves it, and whether
    the assignment was reached.  On anything that is not a dict the test
    [key not in config], the assignment or the subscript raises
    [TypeError], which [set] swallows. *)
Fixpoint set_walk (keys : list string) (final : string) (v : value) (config : value)
    : value * bool :=
  match keys with
  | [] =>
      match config with
      | VDict items => (VDict (dict_set final v items), true)
      | _ => (config, false)
      end
  | key :: rest =>
      match config with
      | VDict items =>
          let items' :=
            match dict_get key items with
            | Some _ => items
            | None => dict_set key (VDict []) items
            end in
          match dict_get key items' with
          | Some child =>
              let '(child', reached) := set_walk rest final v child in
              (VDict (dict_set key child' items'), reached)
          | None => (VDict items', false)
          end
      | _ => (config, false)
      end
  end.

(** [ConfigManager.set]: the configuration afterwards, and whether
    [save_config] was called. *)
Definition set (config : value) (key_path : string) (v : value) : value * bool :=
  let keys := split_char "." key_path in
  set_walk (removelast keys) (List.last keys EmptyString) v config.

End ConfigManager.

(** ** What a check may do to a program *)

(** An update check leaves a program as it is, or flags it with a version. *)
Definition checked (p p' : Program) : Prop :=
  p' = p ∨ ∃ v, p' = mark_update p v.

(** The programs the exclusion filter lets through. *)
Definition kept (cfg : Config) (programs : list Program) : list Program :=
  filter (fun p => is_program_excluded cfg (name p) (publisher p) = false) programs.

(** A check of [p]: it does not raise, it runs at most one command and
    nothing else, and the program it yields is [p] checked. *)
Definition check_ok (p : Program) (m : M Program) : Prop :=
  ∀ tr, ∃ p' cmds,
    m tr = (inr p', tr ++ map Run cmds)
    ∧ checked p p' ∧ (length cmds ≤ 1)%nat.

(** The fields no check writes are equal, and a flag that was set is set. *)
Definition same_program_flag_kept (p p' : Program) : Prop :=
  name p' = name p ∧ version p' = version p ∧ publisher p' = publisher p
  ∧ install_location p' = install_location p ∧ source p' = source p
  ∧ package_id p' = package_id p
  ∧ (update_available p = true → update_available p' = true).

(** A configuration in which no update source is enabled. *)
Definition sources_disabled : Config :=
  {| winget_enabled := false; chocolatey_enabled := false; custom_enabled := false;
     create_backups := true; update_all_at_once := false;
     max_concurrent_updates := Some 3; download_only := false;
     excluded_programs := excluded_programs default_config;
     excluded_publishers := excluded_publishers default_config;
     excluded_keywords := excluded_keywords default_config |}.

(** ** What an install run leaves in the trace *)

(** The command the install of a program runs, if it runs one: none
    without a package id, none for a source other than winget and
    chocolatey. *)
Definition install_cmd (cfg : Config) (p : Program) : option (list string) :=
  if String.eqb (source p) "winget" then
    if is_empty (package_id p) then None
    else Some (winget_upgrade_cmd cfg (package_id p))
  else if String.eqb (source p) "chocolatey" then
    if is_empty (package_id p) then None
    else Some (choco_upgrade_cmd (package_id p))
  else None.

Definition install_cmds (cfg : Config) (p : Program) : list (list string) :=
  match install_cmd cfg p with
  | Some cmd => [cmd]
  | None => []
  end.

(** The calls of the progress callback recorded in a trace: name, success,
    completed count and total. *)
Definition progress_calls (tr : trace) : list (string * bool * nat * nat) :=
  omap (fun e => match e with
                 | Progress n ok done total => Some (n, ok, done, total)
                 | _ => None
                 end) tr.

(** The backups recorded in a trace. *)
Definition backups (tr : trace) : list (list Program) :=
  omap (fun e => match e with Backup ps => Some ps | _ => None end) tr.

(** A result that failed with a message and ran nothing. *)
Definition failed_result (p : Program) (msg : string) : UpdateResult :=
  {| program := p; success := false; error_message := msg; output := EmptyString |}.

(** The name, the completed count and the total of a call of the callback. *)
Definition call_name (c : string * bool * nat * nat) : string := c.1.1.1.
Definition call_done (c : string * bool * nat * nat) : nat := c.1.2.
Definition call_total (c : string * bool * nat * nat) : nat := c.2.

(** What an install run over [todo] has added to the trace when [started]
    programs have been started, [finished] of them have ended and the
    programs of [pending] are still running: no backup, the commands of the
    programs started, in their order, and one call of the callback (if
    there is one) for each program that has ended, counted from 1. *)
Record run_events (cfg : Config) (progress_callback : bool) (todo : list Program)
    (started finished : nat) (pending : list Program) (rest : trace) : Prop := {
  re_backups : backups rest = [];
  re_runs : runs rest = flat_map (install_cmds cfg) (take started todo);
  re_silent : progress_callback = false → progress_calls rest = [];
  re_counts : progress_callback = true →
                call_done <$> progress_calls rest = seq 1 finished;
  re_totals : Forall (fun c => call_total c = length todo) (progress_calls rest);
  re_names : progress_callback = true →
               (call_name <$> progress_calls rest) ++ (name <$> pending)
               ≡ₚ name <$> take started todo
}.

(** The invariant of the polling loop on the trace: what it has added to
    the trace [tr0] it started from. *)
Definition trace_inv (cfg : Config) (progress_callback : bool)
    (programs : list Program) (tr0 : trace) (st : loop_state) : Prop :=
  (completed st + length (threads st) = program_index st)%nat
  ∧ ∃ rest,
      events st = tr0 ++ rest
      ∧ run_events cfg progress_callback programs
          (program_index st) (completed st) (th_program <$> threads st) rest.

(** The default configuration in the sequential mode. *)
Definition sequential_config : Config :=
  {| winget_enabled := true; chocolatey_enabled := true; custom_enabled := true;
     create_backups := true; update_all_at_once := true;
     max_concurrent_updates := Some 3; download_only := false;
     excluded_programs := excluded_programs default_config;
     excluded_publishers := excluded_publishers default_config;
     excluded_keywords := excluded_keywords default_config |}.

(** * Properties *)


(** ** Reconciliation of the inventory *)

Section Dedup.

Implicit Types (p q : Program) (l done unique : list Program).
Implicit Types (seen : gmap string Program).

Lemma elem_of_insert_by_priority p q l :
  q ∈ insert_by_priority p l ↔ q = p ∨ q ∈ l.
Proof.
  induction l as [|x l IH]; simpl.
  - rewrite list_elem_of_singleton, elem_of_nil. tauto.
  - destruct (priority (source p) <=? priority (source x)).
    + rewrite !elem_of_cons. tauto.
    + rewrite !elem_of_cons, IH. tauto.
Qed.

Lemma elem_of_sort_by_priority q l : q ∈ sort_by_priority l ↔ q ∈ l.
Proof.
  induction l as [|x l IH]; simpl; [done|].
  rewrite elem_of_insert_by_priority, IH, elem_of_cons. tauto.
Qed.

Lemma dedup_inv_init : dedup_inv [] ∅ [].
Proof.
  split; [constructor|..]; intros *; rewrite ?lookup_empty, ?elem_of_nil; done.
Qed.

Lemma dedup_step_inv done seen unique p :
  dedup_inv done seen unique →
  dedup_inv (done ++ [p]) (dedup_step (seen, unique) p).1
            (dedup_step (seen, unique) p).2.
Proof.
  intros [Hnd Hus Hsu Hsd Hbest Hds]. unfold dedup_step.
  destruct (seen !! key p) as [existing|] eqn:Hlook.
  - destruct (Z.ltb_spec (priority (source p)) (priority (source existing)))
      as [Hlt|Hge]; simpl.
    + (* the new record replaces the one seen before *)
      destruct (Hsu _ _ Hlook) as [Hex_in Hex_key].
      assert (Hp_notin : p ∉ filter (fun q => q <> existing) unique).
      { rewrite list_elem_of_filter. intros [Hne Hin].
        apply Hus in Hin. rewrite Hlook in Hin. congruence. }
      split.
      * apply NoDup_app. split; [by apply NoDup_filter|].
        split; [|apply NoDup_singleton].
        intros x Hx ->%list_elem_of_singleton. done.
      * intros x [Hx| ->%list_elem_of_singleton]%elem_of_app.
        -- apply list_elem_of_filter in Hx as [Hne Hx].
           rewrite lookup_insert_ne; [by apply Hus|].
           intros Hk. apply Hus in Hx. rewrite <- Hk, Hlook in Hx. congruence.
        -- by rewrite lookup_insert_eq.
      * intros k x Hx. destruct (decide (key p = k)) as [<-|Hne].
        -- rewrite lookup_insert_eq in Hx. inversion Hx; subst x.
           split; [|done]. apply elem_of_app. right. by apply list_elem_of_singleton.
        -- rewrite lookup_insert_ne in Hx by done.
           destruct (Hsu _ _ Hx) as [Hin Hk]. split; [|done].
           apply elem_of_app. left. apply list_elem_of_filter. split; [|done].
           intros ->. congruence.
      * intros k x Hx. apply elem_of_app.
        destruct (decide (key p = k)) as [<-|Hne].
        -- rewrite lookup_insert_eq in Hx. inversion Hx; subst x.
           right. by apply list_elem_of_singleton.
        -- rewrite lookup_insert_ne in Hx by done. left. eauto.
      * intros k x q Hx Hq Hk. destruct (decide (key p = k)) as [<-|Hne].
        -- rewrite lookup_insert_eq in Hx. inversion Hx; subst x.
           apply elem_of_app in Hq as [Hq| ->%list_elem_of_singleton]; [|lia].
           specialize (Hbest _ _ _ Hlook Hq Hk). lia.
        -- rewrite lookup_insert_ne in Hx by done.
           apply elem_of_app in Hq as [Hq| ->%list_elem_of_singleton]; [eauto|].
           congruence.
      * intros q [Hq| ->%list_elem_of_singleton]%elem_of_app.
        -- destruct (decide (key p = key q)) as [->|Hne].
           ++ rewrite lookup_insert_eq. eauto.
           ++ rewrite lookup_insert_ne by done. eauto.
        -- rewrite lookup_insert_eq. eauto.
    + (* the record seen before stays *)
      split; try done.
      * intros k x Hx. apply elem_of_app. left. eauto.
      * intros k x q Hx Hq Hk.
        apply elem_of_app in Hq as [Hq| ->%list_elem_of_singleton]; [eauto|].
        rewrite Hk in Hlook. rewrite Hlook in Hx. inversion Hx; subst x. lia.
      * intros q [Hq| ->%list_elem_of_singleton]%elem_of_app; [eauto|].
        rewrite Hlook. eauto.
  - (* a new identity *)
    simpl.
    assert (Hp_notin : p ∉ unique).
    { intros Hin. apply Hus in Hin. congruence. }
    split.
    + apply NoDup_app. split; [done|]. split; [|apply NoDup_singleton].
      intros x Hx ->%list_elem_of_singleton. done.
    + intros x [Hx| ->%list_elem_of_singleton]%elem_of_app.
      * rewrite lookup_insert_ne; [by apply Hus|].
        intros Hk. apply Hus in Hx. rewrite <- Hk in Hx. congruence.
      * by rewrite lookup_insert_eq.
    + intros k x Hx. destruct (decide (key p = k)) as [<-|Hne].
      * rewrite lookup_insert_eq in Hx. inversion Hx; subst x.
        split; [|done]. apply elem_of_app. right. by apply list_elem_of_singleton.
      * rewrite lookup_insert_ne in Hx by done.
        destruct (Hsu _ _ Hx) as [Hin Hk]. split; [|done].
        apply elem_of_app. by left.
    + intros k x Hx. apply elem_of_app.
      destruct (decide (key p = k)) as [<-|Hne].
      * rewrite lookup_insert_eq in Hx. inversion Hx; subst x.
        right. by apply list_elem_of_singleton.
      * rewrite lookup_insert_ne in Hx by done. left. eauto.
    + intros k x q Hx Hq Hk. destruct (decide (key p = k)) as [<-|Hne].
      * rewrite lookup_insert_eq in Hx. inversion Hx; subst x.
        apply elem_of_app in Hq as [Hq| ->%list_elem_of_singleton]; [|lia].
        apply Hds in Hq as [y Hy]. rewrite Hk in Hy. congruence.
      * rewrite lookup_insert_ne in Hx by done.
        apply elem_of_app in Hq as [Hq| ->%list_elem_of_singleton]; [eauto|].
        congruence.
    + intros q [Hq| ->%list_elem_of_singleton]%elem_of_app.
      * destruct (decide (key p = key q)) as [->|Hne].
        -- rewrite lookup_insert_eq. eauto.
        -- rewrite lookup_insert_ne by done. eauto.
      * rewrite lookup_insert_eq. eauto.
Qed.

Lemma dedup_fold_inv l done seen unique :
  dedup_inv done seen unique →
  dedup_inv (done ++ l) (fold_left dedup_step l (seen, unique)).1
            (fold_left dedup_step l (seen, unique)).2.
Proof.
  revert done seen unique.
  induction l as [|p l IH]; intros done seen unique Hinv.
  - by rewrite app_nil_r.
  - apply (dedup_step_inv _ _ _ p) in Hinv.
    change (fold_left dedup_step (p :: l) (seen, unique))
      with (fold_left dedup_step l (dedup_step (seen, unique) p)).
    destruct (dedup_step (seen, unique) p) as [seen' unique'].
    replace (done ++ p :: l) with ((done ++ [p]) ++ l)
      by (by rewrite <- app_assoc).
    by apply IH.
Qed.

Lemma priority_default src :
  src ≠ "winget" → src ≠ "chocolatey" → src ≠ "registry" → priority src = 4.
Proof.
  intros H1 H2 H3. unfold priority.
  by rewrite (proj2 (String.eqb_neq _ _) H1), (proj2 (String.eqb_neq _ _) H2),
    (proj2 (String.eqb_neq _ _) H3).
Qed.

(** C1.  For every list of scanned programs (the concatenation of the
    per-source scans held in [self.programs]), the reconciled inventory
    has at most one record per identity key (the name lowercased and
    stripped); each surviving record is one of the scanned records, whole,
    and its source has the best rank among all scanned records with its
    key; every scanned key keeps a record.  The ranks are winget 1,
    chocolatey 2, registry 3 and 4 for any other source. *)
Theorem deduplicate_one_record_per_key_best_source programs :
  let inventory := _deduplicate_programs programs in
  NoDup (key <$> inventory)
  ∧ (∀ p, p ∈ inventory →
       p ∈ programs
       ∧ ∀ q, q ∈ programs → key q = key p →
           priority (source p) <= priority (source q))
  ∧ (∀ q, q ∈ programs → ∃ p, p ∈ inventory ∧ key p = key q)
  ∧ (priority "winget" = 1 ∧ priority "chocolatey" = 2
     ∧ priority "registry" = 3
     ∧ ∀ src, src ≠ "winget" → src ≠ "chocolatey" → src ≠ "registry" →
         priority src = 4).
Proof.
  intros inventory.
  pose proof (dedup_fold_inv (sort_by_priority programs) [] ∅ []
                dedup_inv_init) as Hinv.
  rewrite app_nil_l in Hinv.
  unfold inventory, _deduplicate_programs.
  destruct (fold_left dedup_step (sort_by_priority programs) (∅, []))
    as [seen unique]. simpl in *.
  destruct Hinv as [Hnd Hus Hsu Hsd Hbest Hds].
  split; [|split; [|split]].
  - apply NoDup_fmap_2_strong; [|done].
    intros x y Hx Hy Hk. apply Hus in Hx, Hy. rewrite Hk in Hx. congruence.
  - intros p Hp. apply Hus in Hp. split.
    + apply elem_of_sort_by_priority. eauto.
    + intros q Hq Hk. apply (Hbest (key p) p q); [done| |done].
      by apply elem_of_sort_by_priority.
  - intros q Hq. apply elem_of_sort_by_priority, Hds in Hq as [p Hp].
    exists p. by apply Hsu.
  - repeat split; try reflexivity. apply priority_default.
Qed.

End Dedup.

(** ** Exceptions stay inside the adapters *)

Section Monad.

Context {A B : Type}.

Lemma never_raises_ret (a : A) : never_raises (ret a).
Proof. intros tr. by exists a. Qed.

Lemma never_raises_bind (m : M A) (f : A → M B) :
  never_raises m → (∀ a, never_raises (f a)) → never_raises (bind m f).
Proof.
  intros Hm Hf tr. unfold bind.
  destruct (Hm tr) as [a Ha]. destruct (m tr) as [[e|a'] tr']; simpl in Ha.
  - discriminate.
  - apply Hf.
Qed.

Lemma never_raises_try_except (body : M A) (handler : exn → M A) :
  (∀ e, never_raises (handler e)) → never_raises (try_except body handler).
Proof.
  intros Hh tr. unfold try_except.
  destruct (body tr) as [[e|a] tr']; [apply Hh|by exists a].
Qed.

End Monad.

Lemma never_raises_for_each {A S : Type} (l : list A) (body : S → A → M S) s :
  (∀ s x, never_raises (body s x)) → never_raises (for_each l body s).
Proof.
  intros Hbody. revert s.
  induction l as [|x l IH]; intros s; simpl.
  - apply never_raises_ret.
  - apply never_raises_bind; [apply Hbody|apply IH].
Qed.

Ltac handlers_return :=
  intros [?|?|?]; apply never_raises_ret.

Section Scans.

Variable tool : tool_oracle.

Lemma scan_winget_never_raises programs : never_raises (_scan_winget tool programs).
Proof. apply never_raises_try_except. handlers_return. Qed.

Lemma scan_registry_never_raises programs : never_raises (_scan_registry tool programs).
Proof. apply never_raises_try_except. intros e. apply never_raises_ret. Qed.

Lemma scan_chocolatey_never_raises programs :
  never_raises (_scan_chocolatey tool programs).
Proof. apply never_raises_try_except. handlers_return. Qed.

Lemma scan_installed_programs_never_raises :
  never_raises (scan_installed_programs tool).
Proof.
  unfold scan_installed_programs.
  apply never_raises_bind; [apply scan_winget_never_raises|intros ?].
  apply never_raises_bind; [apply scan_registry_never_raises|intros ?].
  apply never_raises_bind; [apply scan_chocolatey_never_raises|intros ?].
  apply never_raises_ret.
Qed.

Lemma scan_winget_soft programs tr :
  soft_failure (tool tr winget_list_cmd) →
  _scan_winget tool programs tr = (inr programs, tr ++ [Run winget_list_cmd]).
Proof.
  unfold _scan_winget, try_except, bind, subprocess_run, soft_failure.
  destruct (tool tr winget_list_cmd) as [[?|?|?]|r]; try done.
  intros Hrc. by rewrite (proj2 (Z.eqb_neq _ _) Hrc).
Qed.

Lemma scan_registry_path_soft programs path tr :
  soft_failure (tool tr (reg_query_cmd path)) →
  scan_registry_path tool programs path tr
  = (inr programs, tr ++ [Run (reg_query_cmd path)]).
Proof.
  unfold scan_registry_path, try_except, bind, subprocess_run, soft_failure.
  destruct (tool tr (reg_query_cmd path)) as [[?|?|?]|r]; try done.
  intros Hrc. by rewrite (proj2 (Z.eqb_neq _ _) Hrc).
Qed.

Lemma scan_registry_soft programs tr :
  (∀ tr' path, soft_failure (tool tr' (reg_query_cmd path))) →
  _scan_registry tool programs tr
  = (inr programs, tr ++ map (fun path => Run (reg_query_cmd path)) registry_paths).
Proof.
  intros Hsoft.
  unfold _scan_registry, try_except, registry_paths, for_each, bind.
  rewrite scan_registry_path_soft by apply Hsoft.
  rewrite scan_registry_path_soft by apply Hsoft.
  unfold ret. simpl. by rewrite <- app_assoc.
Qed.

Lemma scan_chocolatey_soft programs tr :
  soft_failure (tool tr choco_list_cmd) →
  _scan_chocolatey tool programs tr = (inr programs, tr ++ [Run choco_list_cmd]).
Proof.
  unfold _scan_chocolatey, try_except, bind, subprocess_run, soft_failure.
  destruct (tool tr choco_list_cmd) as [[?|?|?]|r]; try done.
  intros Hrc. by rewrite (proj2 (Z.eqb_neq _ _) Hrc).
Qed.

Lemma deduplicate_nil : _deduplicate_programs [] = [].
Proof. reflexivity. Qed.

(** C7.  No adapter scan lets an exception out.  When its external tool
    is missing, times out or ends with a nonzero exit code, the adapter
    leaves the list of programs as it was; when all the tools fail in this
    way the whole scan returns the empty list. *)
Theorem scans_degrade_to_empty :
  (∀ programs, never_raises (_scan_winget tool programs))
  ∧ (∀ programs, never_raises (_scan_registry tool programs))
  ∧ (∀ programs, never_raises (_scan_chocolatey tool programs))
  ∧ never_raises (scan_installed_programs tool)
  ∧ (∀ programs tr, soft_failure (tool tr winget_list_cmd) →
       fst (_scan_winget tool programs tr) = inr programs)
  ∧ (∀ programs tr,
       (∀ tr' path, soft_failure (tool tr' (reg_query_cmd path))) →
       fst (_scan_registry tool programs tr) = inr programs)
  ∧ (∀ programs tr, soft_failure (tool tr choco_list_cmd) →
       fst (_scan_chocolatey tool programs tr) = inr programs)
  ∧ ((∀ tr cmd, soft_failure (tool tr cmd)) →
       ∀ tr, fst (scan_installed_programs tool tr) = inr []).
Proof.
  split; [apply scan_winget_never_raises|].
  split; [apply scan_registry_never_raises|].
  split; [apply scan_chocolatey_never_raises|].
  split; [apply scan_installed_programs_never_raises|].
  split; [intros programs tr H; by rewrite scan_winget_soft|].
  split; [intros programs tr H; by rewrite scan_registry_soft|].
  split; [intros programs tr H; by rewrite scan_chocolatey_soft|].
  intros Hsoft tr. unfold scan_installed_programs, bind.
  rewrite scan_winget_soft by apply Hsoft.
  rewrite scan_registry_soft by (intros; apply Hsoft).
  rewrite scan_chocolatey_soft by apply Hsoft.
  reflexivity.
Qed.

End Scans.

(** ** Every call runs its tool *)


Lemma is_empty_false s : s ≠ EmptyString → is_empty s = false.
Proof. by destruct s. Qed.

Lemma is_empty_true s : s = EmptyString → is_empty s = true.
Proof. by intros ->. Qed.

Section Traces.

Variable cfg : Config.
Variable tool : tool_oracle.
Variable re_search_package : string → string → re_result.

Lemma scan_winget_trace programs tr :
  ∃ programs', _scan_winget tool programs tr
               = (inr programs', tr ++ [Run winget_list_cmd]).
Proof.
  unfold _scan_winget, try_except, bind, subprocess_run.
  destruct (tool tr winget_list_cmd) as [[?|?|?]|r]; simpl; eauto.
  destruct (returncode r =? 0); simpl; eauto.
Qed.

Lemma scan_registry_path_trace programs path tr :
  ∃ programs', scan_registry_path tool programs path tr
               = (inr programs', tr ++ [Run (reg_query_cmd path)]).
Proof.
  unfold scan_registry_path, try_except, bind, subprocess_run.
  destruct (tool tr (reg_query_cmd path)) as [[?|?|?]|r]; simpl; eauto.
  destruct ((returncode r =? 0) && negb (is_empty (stdout r))); simpl; eauto.
Qed.

Lemma scan_registry_trace programs tr :
  ∃ programs', _scan_registry tool programs tr
               = (inr programs',
                  tr ++ map (fun path => Run (reg_query_cmd path)) registry_paths).
Proof.
  unfold _scan_registry, try_except, registry_paths, for_each, bind.
  destruct (scan_registry_path_trace programs
              "HKLM\SOFTWARE\Microsoft\Windows\CurrentVersion\Uninstall" tr)
    as [ps1 ->].
  destruct (scan_registry_path_trace ps1
              "HKLM\SOFTWARE\WOW6432Node\Microsoft\Windows\CurrentVersion\Uninstall"
              (tr ++ [Run (reg_query_cmd
                 "HKLM\SOFTWARE\Microsoft\Windows\CurrentVersion\Uninstall")]))
    as [ps2 ->].
  exists ps2. unfold ret. simpl. by rewrite <- app_assoc.
Qed.

Lemma scan_chocolatey_trace programs tr :
  ∃ programs', _scan_chocolatey tool programs tr
               = (inr programs', tr ++ [Run choco_list_cmd]).
Proof.
  unfold _scan_chocolatey, try_except, bind, subprocess_run.
  destruct (tool tr choco_list_cmd) as [[?|?|?]|r]; simpl; eauto.
  destruct (returncode r =? 0); simpl; eauto.
Qed.

Lemma scan_installed_programs_trace tr :
  snd (scan_installed_programs tool tr)
  = tr ++ Run winget_list_cmd
          :: map (fun path => Run (reg_query_cmd path)) registry_paths
          ++ [Run choco_list_cmd].
Proof.
  unfold scan_installed_programs, bind.
  destruct (scan_winget_trace [] tr) as [ps1 ->].
  destruct (scan_registry_trace ps1 (tr ++ [Run winget_list_cmd])) as [ps2 ->].
  destruct (scan_chocolatey_trace ps2
              ((tr ++ [Run winget_list_cmd])
               ++ map (fun path => Run (reg_query_cmd path)) registry_paths))
    as [ps3 ->].
  simpl. by rewrite <- !app_assoc.
Qed.

Lemma check_winget_trace p tr :
  package_id p ≠ EmptyString →
  snd (_check_winget_updates tool p tr)
  = tr ++ [Run (winget_upgrade_check_cmd (package_id p))].
Proof.
  intros Hid. unfold _check_winget_updates, try_except, bind, subprocess_run.
  rewrite (is_empty_false _ Hid).
  destruct (tool tr _) as [[?|?|?]|r]; simpl; try done.
  destruct (_ || _); [|done].
  by destruct (re_search_version three_groups_tail (stdout r)).
Qed.

Lemma check_chocolatey_trace p tr :
  package_id p ≠ EmptyString →
  snd (_check_chocolatey_updates tool re_search_package p tr)
  = tr ++ [Run (choco_upgrade_check_cmd (package_id p))].
Proof.
  intros Hid. unfold _check_chocolatey_updates, try_except, bind, subprocess_run.
  rewrite (is_empty_false _ Hid).
  destruct (tool tr _) as [[?|?|?]|r]; simpl; try done.
  destruct (contains _ _); [|done].
  by destruct (re_search_package (package_id p) (stdout r)).
Qed.

Lemma install_winget_trace p tr :
  package_id p ≠ EmptyString →
  snd (_install_winget_update cfg tool p tr)
  = tr ++ [Run (winget_upgrade_cmd cfg (package_id p))].
Proof.
  intros Hid. unfold _install_winget_update, try_except, bind, subprocess_run.
  rewrite (is_empty_false _ Hid).
  by destruct (tool tr _) as [[?|?|?]|r].
Qed.

Lemma install_chocolatey_trace p tr :
  package_id p ≠ EmptyString →
  snd (_install_chocolatey_update tool p tr)
  = tr ++ [Run (choco_upgrade_cmd (package_id p))].
Proof.
  intros Hid. unfold _install_chocolatey_update, try_except, bind, subprocess_run.
  rewrite (is_empty_false _ Hid).
  by destruct (tool tr _) as [[?|?|?]|r].
Qed.

(** C8, as the code has it.  Nothing is cached: whatever the trace holds
    (a tool that was found missing included), a scan runs [winget], [reg]
    on both registry paths and [choco] once more, and an update check or
    an install of a program with a package id runs its tool once more. *)
Theorem every_call_runs_its_tool_again :
  (∀ tr, snd (scan_installed_programs tool tr)
         = tr ++ Run winget_list_cmd
                 :: map (fun path => Run (reg_query_cmd path)) registry_paths
                 ++ [Run choco_list_cmd])
  ∧ (∀ p tr, package_id p ≠ EmptyString →
       snd (_check_winget_updates tool p tr)
       = tr ++ [Run (winget_upgrade_check_cmd (package_id p))])
  ∧ (∀ p tr, package_id p ≠ EmptyString →
       snd (_check_chocolatey_updates tool re_search_package p tr)
       = tr ++ [Run (choco_upgrade_check_cmd (package_id p))])
  ∧ (∀ p tr, package_id p ≠ EmptyString →
       snd (_install_winget_update cfg tool p tr)
       = tr ++ [Run (winget_upgrade_cmd cfg (package_id p))])
  ∧ (∀ p tr, package_id p ≠ EmptyString →
       snd (_install_chocolatey_update tool p tr)
       = tr ++ [Run (choco_upgrade_cmd (package_id p))]).
Proof.
  split; [apply scan_installed_programs_trace|].
  split; [apply check_winget_trace|].
  split; [apply check_chocolatey_trace|].
  split; [apply install_winget_trace|apply install_chocolatey_trace].
Qed.

(** C10.  A program without a package id goes through the winget check
    and the chocolatey check untouched, and neither runs a tool: the
    program returned is the program given and the trace is the same. *)
Theorem checks_skip_empty_package_id p tr :
  package_id p = EmptyString →
  _check_winget_updates tool p tr = (inr p, tr)
  ∧ _check_chocolatey_updates tool re_search_package p tr = (inr p, tr).
Proof.
  intros Hid.
  unfold _check_winget_updates, _check_chocolatey_updates, try_except.
  by rewrite (is_empty_true _ Hid).
Qed.

(** The fallback of the two checks.  When the output of [winget upgrade]
    signals an upgrade (it contains "available", in any case) and holds
    no version, the program leaves the check with [update_available] set
    and "Unknown" as its available version; so does the chocolatey check
    when the output says "would like to upgrade" and the version pattern
    is well formed and does not match. *)
Lemma signal_without_version_marks_unknown p tr result :
  package_id p ≠ EmptyString →
  (tool tr (winget_upgrade_check_cmd (package_id p)) = inr result →
   contains "upgrade available" (lower (stdout result))
     || contains "available" (lower (stdout result)) = true →
   re_search_version three_groups_tail (stdout result) = None →
   ∃ p', fst (_check_winget_updates tool p tr) = inr p'
         ∧ update_available p' = true ∧ available_version p' = "Unknown"
         ∧ p' = mark_update p "Unknown")
  ∧ (tool tr (choco_upgrade_check_cmd (package_id p)) = inr result →
     contains "would like to upgrade" (lower (stdout result)) = true →
     re_search_package (package_id p) (stdout result) = re_no_match →
     ∃ p', fst (_check_chocolatey_updates tool re_search_package p tr) = inr p'
           ∧ update_available p' = true ∧ available_version p' = "Unknown"
           ∧ p' = mark_update p "Unknown").
Proof.
  intros Hid. split.
  - intros Hrun Hsignal Hnone. exists (mark_update p "Unknown").
    unfold _check_winget_updates, try_except, bind, subprocess_run.
    by rewrite (is_empty_false _ Hid), Hrun, Hsignal, Hnone.
  - intros Hrun Hsignal Hnone. exists (mark_update p "Unknown").
    unfold _check_chocolatey_updates, try_except, bind, subprocess_run.
    by rewrite (is_empty_false _ Hid), Hrun, Hsignal, Hnone.
Qed.

(** C5 fails on the chocolatey check.  When the output of
    [choco upgrade --noop] says "would like to upgrade" and the pattern
    built from the package id does not compile, [re.search] raises, the
    handler of the check swallows the exception and the program leaves
    the check as it came: a program that was not flagged is not flagged,
    and its available version is not "Unknown", though the tool has
    announced the upgrade and no version could be extracted. *)
Theorem chocolatey_signal_lost_on_pattern_error p tr result :
  package_id p ≠ EmptyString →
  tool tr (choco_upgrade_check_cmd (package_id p)) = inr result →
  contains "would like to upgrade" (lower (stdout result)) = true →
  re_search_package (package_id p) (stdout result) = re_error →
  _check_chocolatey_updates tool re_search_package p tr
  = (inr p, tr ++ [Run (choco_upgrade_check_cmd (package_id p))])
  ∧ (update_available p = false →
     ∀ p', fst (_check_chocolatey_updates tool re_search_package p tr) = inr p' →
           update_available p' = false
           ∧ p' ≠ mark_update p "Unknown").
Proof.
  intros Hid Hrun Hsignal Herr.
  assert (Heq : _check_chocolatey_updates tool re_search_package p tr
                = (inr p, tr ++ [Run (choco_upgrade_check_cmd (package_id p))])).
  { unfold _check_chocolatey_updates, try_except, bind, subprocess_run, raise.
    by rewrite (is_empty_false _ Hid), Hrun, Hsignal, Herr. }
  split; [exact Heq|].
  intros Hflag p' Hp'. rewrite Heq in Hp'. simpl in Hp'.
  injection Hp' as <-. split; [exact Hflag|].
  intros Hmark. rewrite Hmark in Hflag. discriminate.
Qed.

End Traces.

(** ** Version comparison in the update checks *)

Section Versions.

Variable tool : tool_oracle.
Variable lib : VersionLib.

Lemma compare_and_mark_cases p candidate :
  (compare_and_mark lib p candidate = p)
  ∨ (∃ word current available,
       head (split_ws (version p)) = Some word
       ∧ version_parse lib word = Some current
       ∧ version_parse lib candidate = Some available
       ∧ version_gt lib available current = true
       ∧ compare_and_mark lib p candidate = mark_update p candidate).
Proof.
  unfold compare_and_mark.
  destruct (split_ws (version p)) as [|word ws]; [by left|].
  destruct (version_parse lib word) as [current|] eqn:Hcur; [|by left].
  destruct (version_parse lib candidate) as [available|] eqn:Hav; [|by left].
  destruct (version_gt lib available current) eqn:Hgt; [|by left].
  right. by exists word, current, available.
Qed.

Lemma compare_and_mark_parsed p candidate word current available :
  head (split_ws (version p)) = Some word →
  version_parse lib word = Some current →
  version_parse lib candidate = Some available →
  compare_and_mark lib p candidate
  = if version_gt lib available current then mark_update p candidate else p.
Proof.
  unfold compare_and_mark.
  destruct (split_ws (version p)) as [|w ws]; [done|].
  intros [= ->] -> ->. done.
Qed.

Lemma check_via_search_cases package pat p tr :
  fst (check_via_search tool lib package pat p tr) = inr p
  ∨ ∃ candidate,
      fst (check_via_search tool lib package pat p tr)
      = inr (compare_and_mark lib p candidate).
Proof.
  unfold check_via_search, try_except, bind, subprocess_run.
  destruct (tool tr (winget_search_cmd package)) as [e|r]; [by left|].
  destruct (returncode r =? 0); [|by left].
  destruct (re_search_after package pat (stdout r)) as [candidate|]; [|by left].
  right. by exists candidate.
Qed.

Lemma check_via_search_flags_only_newer package pat :
  flags_only_newer lib (check_via_search tool lib package pat).
Proof.
  intros p tr p' word current candidate Hrun Hold Hnew Hword Hcur Hcand.
  destruct (check_via_search_cases package pat p tr) as [Hsame|[c Hc]].
  - rewrite Hsame in Hrun. inversion Hrun; subst p'. congruence.
  - rewrite Hc in Hrun. inversion Hrun; subst p'.
    destruct (compare_and_mark_cases p c)
      as [Hsame|(w & cur & av & Hw & Hpc & Hpa & Hgt & Hmark)].
    + rewrite Hsame in Hnew. congruence.
    + rewrite Hmark in Hcand. simpl in Hcand.
      rewrite Hw in Hword. inversion Hword; subst w. congruence.
Qed.

Lemma check_via_search_parsed package pat p tr result candidate word
    current available :
  tool tr (winget_search_cmd package) = inr result →
  returncode result = 0 →
  re_search_after package pat (stdout result) = Some candidate →
  head (split_ws (version p)) = Some word →
  version_parse lib word = Some current →
  version_parse lib candidate = Some available →
  fst (check_via_search tool lib package pat p tr)
  = inr (if version_gt lib available current
         then mark_update p candidate else p).
Proof.
  intros Hrun Hrc Hsearch Hword Hcur Hav.
  unfold check_via_search, try_except, bind, subprocess_run.
  rewrite Hrun, Hrc, Hsearch. simpl.
  by rewrite (compare_and_mark_parsed _ _ _ _ _ Hword Hcur Hav).
Qed.

Lemma check_winget_marks_on_signal p tr result v :
  package_id p ≠ EmptyString →
  tool tr (winget_upgrade_check_cmd (package_id p)) = inr result →
  contains "upgrade available" (lower (stdout result))
    || contains "available" (lower (stdout result)) = true →
  re_search_version three_groups_tail (stdout result) = Some v →
  fst (_check_winget_updates tool p tr) = inr (mark_update p v).
Proof.
  intros Hid Hrun Hsignal Hv.
  unfold _check_winget_updates, try_except, bind, subprocess_run.
  by rewrite (is_empty_false _ Hid), Hrun, Hsignal, Hv.
Qed.

Lemma check_chocolatey_marks_on_signal re_search_package p tr result v :
  package_id p ≠ EmptyString →
  tool tr (choco_upgrade_check_cmd (package_id p)) = inr result →
  contains "would like to upgrade" (lower (stdout result)) = true →
  re_search_package (package_id p) (stdout result) = re_match v →
  fst (_check_chocolatey_updates tool re_search_package p tr)
  = inr (mark_update p v).
Proof.
  intros Hid Hrun Hsignal Hv.
  unfold _check_chocolatey_updates, try_except, bind, subprocess_run.
  by rewrite (is_empty_false _ Hid), Hrun, Hsignal, Hv.
Qed.

(** C4, as the code has it.  The four custom checkers (Chrome, Firefox,
    VLC, Notepad++) flag a program only for a candidate greater than the
    first word of its current version when both parse; when the search
    succeeds and both parse, the program is marked with the candidate
    exactly when the candidate is greater.  With the current version
    1.2.0, the candidate 1.3.0 marks the program with 1.3.0 and the
    candidate 1.2.0 leaves it as it was.  The winget check and the
    chocolatey check compare no versions: when the output of the tool
    carries the signal ("available" for winget, "would like to upgrade"
    for chocolatey) and the version pattern matches, they mark the
    program with the version found in the output, whatever its current
    version. *)
Theorem custom_checkers_flag_only_newer :
  (flags_only_newer lib (_check_chrome_update tool lib)
   ∧ flags_only_newer lib (_check_firefox_update tool lib)
   ∧ flags_only_newer lib (_check_vlc_update tool lib)
   ∧ flags_only_newer lib (_check_notepadpp_update tool lib))
  ∧ (∀ p tr result candidate word current available,
       tool tr (winget_search_cmd "Google.Chrome") = inr result →
       returncode result = 0 →
       re_search_after "Google.Chrome" three_groups_tail (stdout result)
         = Some candidate →
       head (split_ws (version p)) = Some word →
       version_parse lib word = Some current →
       version_parse lib candidate = Some available →
       fst (_check_chrome_update tool lib p tr)
       = inr (if version_gt lib available current
              then mark_update p candidate else p))
  ∧ (let p := new_program "Google Chrome" "1.2.0" EmptyString EmptyString "registry" EmptyString in
     fst (_check_chrome_update
            (prints "Google Chrome  Google.Chrome  1.3.0  winget")
            ReleaseVersion.lib p [])
     = inr (mark_update p "1.3.0")
     ∧ fst (_check_chrome_update
              (prints "Google Chrome  Google.Chrome  1.2.0  winget")
              ReleaseVersion.lib p [])
       = inr p)
  ∧ (∀ p tr result v,
       package_id p ≠ EmptyString →
       tool tr (winget_upgrade_check_cmd (package_id p)) = inr result →
       contains "upgrade available" (lower (stdout result))
         || contains "available" (lower (stdout result)) = true →
       re_search_version three_groups_tail (stdout result) = Some v →
       fst (_check_winget_updates tool p tr) = inr (mark_update p v))
  ∧ (∀ re_search_package p tr result v,
       package_id p ≠ EmptyString →
       tool tr (choco_upgrade_check_cmd (package_id p)) = inr result →
       contains "would like to upgrade" (lower (stdout result)) = true →
       re_search_package (package_id p) (stdout result) = re_match v →
       fst (_check_chocolatey_updates tool re_search_package p tr)
       = inr (mark_update p v)).
Proof.
  split; [repeat split; apply check_via_search_flags_only_newer|].
  split; [intros *; apply check_via_search_parsed|].
  split; [split; vm_compute; reflexivity|].
  split; [intros *; apply check_winget_marks_on_signal|].
  intros *. apply check_chocolatey_marks_on_signal.
Qed.

End Versions.

(** C4 fails on the winget check: the program has version 1.2.0, the only
    version in the output of the tool is 1.2.0, and the program is flagged. *)
Lemma winget_check_flags_equal_version :
  ¬ flags_only_newer ReleaseVersion.lib
      (_check_winget_updates (prints "App 1.2.0: no newer version available")).
Proof.
  intros Hflag.
  specialize (Hflag (new_program "App" "1.2.0" EmptyString EmptyString "winget" "Vendor.App") []
                (mark_update (new_program "App" "1.2.0" EmptyString EmptyString "winget" "Vendor.App")
                   "1.2.0")
                "1.2.0" [1%N; 2%N; 0%N] [1%N; 2%N; 0%N]).
  vm_compute in Hflag.
  specialize (Hflag eq_refl eq_refl eq_refl eq_refl eq_refl eq_refl).
  discriminate.
Qed.

(** C8 fails: in a world without tools the first scan finds [winget]
    missing, and the second scan runs it again. *)
Lemma missing_tool_is_run_again : ¬ scan_caches_not_found no_tools.
Proof.
  intros Hcache. specialize (Hcache [] "winget" eq_refl).
  vm_compute in Hcache. apply Hcache.
  apply list_elem_of_In. simpl. auto.
Qed.

(** C3 fails on an excluded program: with the default exclusions, the
    check of a list holding "Microsoft Edge WebView2" returns the empty
    list; the program is not in the list returned. *)
Lemma check_for_updates_drops_excluded :
  let p := new_program "Microsoft Edge WebView2" "118.0" EmptyString EmptyString "winget"
             "Microsoft.EdgeWebView2Runtime" in
  check_for_updates default_config (prints EmptyString) ReleaseVersion.lib
    no_package_match [p] []
  = (inr [], []).
Proof. vm_compute. reflexivity. Qed.

(** ** The update executor *)

Section InstallerProofs.

Variable cfg : Config.
Variable tool : tool_oracle.
Variable progress_callback : bool.
Variable is_alive : nat → nat → nat → bool.

Local Abbreviation install := (_install_single_update cfg tool).

Lemma install_winget_returns p tr :
  ∃ t tr', _install_winget_update cfg tool p tr = (inr t, tr').
Proof.
  unfold _install_winget_update, try_except, bind, subprocess_run.
  destruct (is_empty (package_id p)); [by eexists _, _|].
  destruct (tool tr _) as [[?|?|?]|r]; by eexists _, _.
Qed.

Lemma install_chocolatey_returns p tr :
  ∃ t tr', _install_chocolatey_update tool p tr = (inr t, tr').
Proof.
  unfold _install_chocolatey_update, try_except, bind, subprocess_run.
  destruct (is_empty (package_id p)); [by eexists _, _|].
  destruct (tool tr _) as [[?|?|?]|r]; by eexists _, _.
Qed.

(** The install of one program always yields a result, and the result
    names the program. *)
Lemma install_single_update_returns p tr :
  ∃ r tr', install p tr = (inr r, tr') ∧ program r = p.
Proof.
  unfold _install_single_update, try_except, bind.
  destruct (String.eqb (source p) "winget").
  - destruct (install_winget_returns p tr) as ([[ok out] err] & tr' & ->).
    by eexists _, _.
  - destruct (String.eqb (source p) "chocolatey").
    + destruct (install_chocolatey_returns p tr) as ([[ok out] err] & tr' & ->).
      by eexists _, _.
    + by eexists _, _.
Qed.

Lemma install_result_program p tr r :
  fst (install p tr) = inr r → program r = p.
Proof.
  destruct (install_single_update_returns p tr) as (r' & tr' & -> & Hp).
  simpl. congruence.
Qed.

Section Loop.

Variable programs : list Program.

Local Abbreviation inv := (loop_inv cfg tool programs).
Local Abbreviation start := (start_thread cfg tool).
Local Abbreviation spawn_n := (spawn_loop cfg tool programs).
Local Abbreviation finish := (worker_finish progress_callback programs).
Local Abbreviation reap1 := (reap_one progress_callback is_alive programs).

Lemma start_thread_eq st p :
  ∃ r tr',
    install p (events st) = (inr r, tr')
    ∧ start st p
      = {| program_index := S (program_index st);
           threads := threads st ++
             [{| th_index := program_index st; th_started := polls st;
                 th_program := p; th_outcome := inr r |}];
           active_threads := active_threads st + 1;
           results := results st;
           completed := completed st;
           polls := polls st;
           events := tr' |}.
Proof.
  destruct (install_single_update_returns p (events st)) as (r & tr' & Hr & _).
  exists r, tr'. split; [done|]. unfold start_thread. by rewrite Hr.
Qed.

Lemma thread_ok_mono i j th :
  (i ≤ j)%nat → thread_ok cfg tool programs i th → thread_ok cfg tool programs j th.
Proof. intros Hij [H1 H2 H3]. split; [lia|done..]. Qed.

Lemma start_thread_inv st p :
  inv st →
  programs !! program_index st = Some p →
  active_threads st < max_concurrent cfg →
  inv (start st p).
Proof.
  intros [Hidx Hact Hbound Hnd Hth Hcov Hres] Hp Hlt.
  destruct (start_thread_eq st p) as (r & tr' & Hr & ->).
  split; simpl.
  - apply lookup_lt_Some in Hp. lia.
  - rewrite length_app. simpl. lia.
  - lia.
  - rewrite fmap_app. apply NoDup_app. split; [done|].
    split; [|apply NoDup_singleton].
    intros i Hi ->%list_elem_of_singleton.
    apply list_elem_of_fmap in Hi as (th & Hi & Hin).
    apply Hth in Hin as [Hlti _ _]. simpl in Hi. lia.
  - intros th [Hin| ->%list_elem_of_singleton]%elem_of_app.
    + apply (thread_ok_mono (program_index st)); [lia|by apply Hth].
    + split; simpl; [lia|done|]. exists r, (events st). by rewrite Hr.
  - intros i q Hi Hq. rewrite fmap_app.
    destruct (decide (i = program_index st)) as [->|Hne].
    + left. apply elem_of_app. right. by apply list_elem_of_singleton.
    + destruct (Hcov i q) as [Hin|Hsome]; [lia|done| |by right].
      left. apply elem_of_app. by left.
  - done.
Qed.

Lemma spawn_loop_inv n st : inv st → inv (spawn_n n st).
Proof.
  revert st. induction n as [|n IH]; intros st Hinv; simpl; [done|].
  destruct (Z.ltb_spec (active_threads st) (max_concurrent cfg)) as [Hlt|];
    [|done].
  destruct (Nat.ltb_spec (program_index st) (length programs)) as [Hidx|];
    [|done].
  simpl. destruct (programs !! program_index st) as [p|] eqn:Hp; [|done].
  apply IH. by apply start_thread_inv.
Qed.

Lemma start_thread_polls st p : polls (start st p) = polls st.
Proof. by destruct (start_thread_eq st p) as (r & tr' & _ & ->). Qed.

Lemma spawn_loop_polls n st : polls (spawn_n n st) = polls st.
Proof.
  revert st. induction n as [|n IH]; intros st; simpl; [done|].
  destruct (_ && _); [|done].
  destruct (programs !! program_index st); [|done].
  by rewrite IH, start_thread_polls.
Qed.

Lemma start_thread_young D st p :
  young D st → young D (start st p).
Proof.
  intros Hy. unfold young. rewrite start_thread_polls.
  destruct (start_thread_eq st p) as (r & tr' & _ & ->). simpl.
  intros th [Hin| ->%list_elem_of_singleton]%elem_of_app; [by apply Hy|].
  simpl. lia.
Qed.

Lemma spawn_loop_young D n st : young D st → young D (spawn_n n st).
Proof.
  revert st. induction n as [|n IH]; intros st Hy; simpl; [done|].
  destruct (_ && _); [|done].
  destruct (programs !! program_index st); [|done].
  by apply IH, start_thread_young.
Qed.

Lemma start_thread_measure D st p :
  (program_index st < length programs)%nat →
  (measure programs D (start st p) < measure programs D st)%nat.
Proof.
  intros Hidx. unfold measure. rewrite start_thread_polls.
  destruct (start_thread_eq st p) as (r & tr' & _ & ->). simpl.
  rewrite sum_list_with_app. simpl.
  replace (length programs - program_index st)%nat
    with (S (length programs - S (program_index st)))%nat by lia.
  lia.
Qed.

Lemma spawn_loop_measure D n st :
  (measure programs D (spawn_n n st) ≤ measure programs D st)%nat.
Proof.
  revert st. induction n as [|n IH]; intros st; simpl; [done|].
  destruct (Z.ltb_spec (active_threads st) (max_concurrent cfg)) as [Hlt|];
    [|done].
  destruct (Nat.ltb_spec (program_index st) (length programs)) as [Hidx|];
    [|done].
  simpl. destruct (programs !! program_index st) as [p|]; [|done].
  specialize (IH (start st p)).
  pose proof (start_thread_measure D st p Hidx). lia.
Qed.

Lemma spawn_loop_threads_length n st :
  (length (threads st) ≤ length (threads (spawn_n n st)))%nat.
Proof.
  revert st. induction n as [|n IH]; intros st; simpl; [done|].
  destruct (_ && _); [|done].
  destruct (programs !! program_index st) as [p|]; [|done].
  specialize (IH (start st p)).
  destruct (start_thread_eq st p) as (r & tr' & _ & Heq).
  rewrite Heq in IH at 1. simpl in IH. rewrite length_app in IH. simpl in IH. lia.
Qed.

(** While the loop goes on and the limit is positive, some thread is in
    the list once the inner loop has run. *)
Lemma spawn_threads_nonempty st :
  0 < max_concurrent cfg →
  inv st →
  loop_condition programs st = true →
  (0 < length (threads (spawn cfg tool programs st)))%nat.
Proof.
  intros Hk Hinv Hcond. unfold spawn.
  destruct (threads st) as [|th ths] eqn:Hths.
  - pose proof (li_active _ _ _ _ Hinv) as Hact. rewrite Hths in Hact.
    simpl in Hact. unfold loop_condition in Hcond. rewrite Hact in Hcond.
    rewrite orb_false_r in Hcond. apply Nat.ltb_lt in Hcond.
    destruct (length programs - program_index st)%nat as [|n] eqn:Hn; [lia|].
    cbn [spawn_loop]. rewrite Hact. change (Z.of_nat 0) with 0.
    rewrite (proj2 (Z.ltb_lt 0 (max_concurrent cfg)) Hk).
    rewrite (proj2 (Nat.ltb_lt _ _) Hcond). cbn [andb].
    destruct (lookup_lt_is_Some_2 programs (program_index st) Hcond) as [p Hp].
    rewrite Hp.
    pose proof (spawn_loop_threads_length n (start st p)) as Hlen.
    destruct (start_thread_eq st p) as (r & tr' & _ & Heq).
    rewrite Heq in Hlen at 1. simpl in Hlen. rewrite length_app in Hlen.
    simpl in Hlen. lia.
  - pose proof (spawn_loop_threads_length
                  (length programs - program_index st) st) as Hlen.
    rewrite Hths in Hlen. simpl in Hlen. lia.
Qed.

Lemma reap_one_alive st th :
  is_alive (polls st) (th_started th) (th_index th) = true →
  reap1 st th = st.
Proof. unfold reap_one. by intros ->. Qed.

Lemma reap_one_dead st th r :
  is_alive (polls st) (th_started th) (th_index th) = false →
  th_outcome th = inr r →
  reap1 st th
  = {| program_index := program_index st;
       threads := remove_thread th (threads st);
       active_threads := active_threads st - 1;
       results := <[name (th_program th) := r]> (results st);
       completed := S (completed st);
       polls := polls st;
       events :=
         snd (call_progress progress_callback (name (th_program th))
                (success r) (S (completed st)) (length programs) (events st)) |}.
Proof. unfold reap_one, worker_finish. by intros -> ->. Qed.

Lemma reap_one_polls st th : polls (reap1 st th) = polls st.
Proof.
  unfold reap_one, worker_finish.
  destruct (is_alive _ _ _); [done|]. by destruct (th_outcome th).
Qed.

Lemma reap_one_threads st th :
  threads (reap1 st th) = threads st
  ∨ threads (reap1 st th) = remove_thread th (threads st).
Proof.
  unfold reap_one, worker_finish.
  destruct (is_alive _ _ _); [by left|]. right. by destruct (th_outcome th).
Qed.

Lemma remove_thread_length th (l : list thread) :
  NoDup (th_index <$> l) → th ∈ l →
  S (length (remove_thread th l)) = length l.
Proof.
  unfold remove_thread.
  induction l as [|x l IH]; intros Hnd Hin; [by apply elem_of_nil in Hin|].
  rewrite fmap_cons in Hnd. apply NoDup_cons in Hnd as [Hx Hnd].
  rewrite filter_cons. destruct (decide (th_index x ≠ th_index th)) as [Hne|Heq].
  - simpl. f_equal. apply IH; [done|].
    apply elem_of_cons in Hin as [->|Hin]; [done|done].
  - apply dec_stable in Heq.
    assert (Hall : filter (λ t, th_index t ≠ th_index th) l = l).
    { clear IH Hin Hnd. induction l as [|y l IH]; [done|].
      rewrite fmap_cons, not_elem_of_cons in Hx. destruct Hx as [Hxy Hx].
      rewrite filter_cons. rewrite decide_True by congruence.
      f_equal. by apply IH. }
    by rewrite Hall.
Qed.

Lemma remove_thread_nodup th (l : list thread) :
  NoDup (th_index <$> l) → NoDup (th_index <$> remove_thread th l).
Proof.
  intros Hnd. eapply sublist_NoDup; [exact Hnd|].
  apply fmap_sublist, sublist_filter.
Qed.

Lemma reap_one_inv st th : inv st → th ∈ threads st → inv (reap1 st th).
Proof.
  intros Hinv Hin.
  destruct (is_alive (polls st) (th_started th) (th_index th)) eqn:Halive.
  { by rewrite reap_one_alive. }
  destruct Hinv as [Hidx Hact Hbound Hnd Hth Hcov Hres].
  destruct (Hth _ Hin) as [Hlt Hprog (r & tr0 & Hout & Hr)].
  rewrite (reap_one_dead st th r Halive Hout).
  split; simpl.
  - done.
  - pose proof (remove_thread_length th _ Hnd Hin). lia.
  - lia.
  - by apply remove_thread_nodup.
  - intros t [_ Ht]%list_elem_of_filter. by apply Hth.
  - intros i p Hi Hp.
    destruct (decide (i = th_index th)) as [->|Hne].
    + right. rewrite Hprog in Hp. inversion Hp; subst p.
      rewrite lookup_insert_eq. eauto.
    + destruct (Hcov i p Hi Hp) as [Hidxs|Hsome].
      * left. apply list_elem_of_fmap in Hidxs as (t & -> & Ht).
        apply list_elem_of_fmap_2. apply list_elem_of_filter. split; [|done].
        done.
      * right. apply lookup_insert_is_Some'. by right.
  - intros n r' Hlook.
    destruct (decide (name (th_program th) = n)) as [<-|Hne].
    + rewrite lookup_insert_eq in Hlook. inversion Hlook; subst r'.
      exists (th_program th), tr0. split; [|done].
      by eapply list_elem_of_lookup_2.
    + rewrite lookup_insert_ne in Hlook by done. by apply Hres.
Qed.

Lemma reap_fold_inv l st :
  inv st → NoDup (th_index <$> l) → (∀ th, th ∈ l → th ∈ threads st) →
  inv (foldl reap1 st l).
Proof.
  revert st. induction l as [|h l IH]; intros st Hinv Hnd Hsub; [done|].
  rewrite fmap_cons in Hnd. apply NoDup_cons in Hnd as [Hh Hnd].
  simpl. apply IH; [|done|].
  - apply reap_one_inv; [done|]. apply Hsub. by left.
  - intros th Hin.
    destruct (reap_one_threads st h) as [->| ->].
    + apply Hsub. by right.
    + apply list_elem_of_filter. split; [|apply Hsub; by right].
      intros Heq. apply Hh. rewrite <- Heq. by apply list_elem_of_fmap_2.
Qed.

Lemma reap_inv st : inv st → inv (reap progress_callback is_alive programs st).
Proof.
  intros Hinv. apply reap_fold_inv; [done| |done].
  apply (li_nodup _ _ _ _ Hinv).
Qed.

Lemma reap_fold_polls l st : polls (foldl reap1 st l) = polls st.
Proof.
  revert st. induction l as [|h l IH]; intros st; [done|].
  simpl. by rewrite IH, reap_one_polls.
Qed.

Lemma reap_one_index st th : program_index (reap1 st th) = program_index st.
Proof.
  unfold reap_one, worker_finish.
  destruct (is_alive _ _ _); [done|]. by destruct (th_outcome th).
Qed.

Lemma reap_fold_index l st : program_index (foldl reap1 st l) = program_index st.
Proof.
  revert st. induction l as [|h l IH]; intros st; [done|].
  simpl. by rewrite IH, reap_one_index.
Qed.

Lemma reap_fold_sublist l st :
  threads (foldl reap1 st l) `sublist_of` threads st.
Proof.
  revert st. induction l as [|h l IH]; intros st; [done|].
  simpl. etrans; [apply IH|].
  destruct (reap_one_threads st h) as [->| ->]; [done|apply sublist_filter].
Qed.

(** A thread that the loop over the copy leaves in the list was found
    alive. *)
Lemma reap_fold_alive l st :
  (∀ th, th ∈ threads st →
     is_alive (polls st) (th_started th) (th_index th) = true ∨ th ∈ l) →
  ∀ th, th ∈ threads (foldl reap1 st l) →
    is_alive (polls st) (th_started th) (th_index th) = true.
Proof.
  revert st. induction l as [|h l IH]; intros st Hcov th Hin.
  - destruct (Hcov th Hin) as [|Hnil]; [done|by apply elem_of_nil in Hnil].
  - simpl in Hin. rewrite <- (reap_one_polls st h).
    apply IH; [|done]. clear th Hin. intros th Hin.
    rewrite reap_one_polls.
    destruct (is_alive (polls st) (th_started h) (th_index h)) eqn:Hh.
    + rewrite reap_one_alive in Hin by done.
      destruct (Hcov th Hin) as [|[->|]%elem_of_cons]; auto.
    + destruct (reap_one_threads st h) as [Heq|Heq]; rewrite Heq in Hin.
      * destruct (Hcov th Hin) as [|[->|]%elem_of_cons]; auto.
        unfold reap_one in Heq. rewrite Hh in Heq. simpl in Heq.
        assert (Hths : threads (finish st h) = threads st).
        { unfold worker_finish. by destruct (th_outcome h). }
        rewrite Hths in Heq. rewrite <- Heq in Hin.
        apply list_elem_of_filter in Hin as [Hne _]. done.
      * apply list_elem_of_filter in Hin as [Hne Hin].
        destruct (Hcov th Hin) as [|[->|]%elem_of_cons]; auto; done.
Qed.

Local Abbreviation step := (iteration cfg tool progress_callback is_alive programs).
Local Abbreviation loop := (poll_loop cfg tool progress_callback is_alive programs).

Lemma iteration_threads st :
  threads (step st)
  = threads (reap progress_callback is_alive programs (spawn cfg tool programs st)).
Proof. done. Qed.

Lemma iteration_polls st : polls (step st) = S (polls st).
Proof.
  unfold iteration, sleep, reap, spawn. simpl.
  by rewrite reap_fold_polls, spawn_loop_polls.
Qed.

Lemma iteration_inv st : inv st → inv (step st).
Proof.
  intros Hinv. unfold iteration.
  assert (Hr : inv (reap progress_callback is_alive programs
                      (spawn cfg tool programs st)))
    by (apply reap_inv, spawn_loop_inv, Hinv).
  destruct Hr. by split.
Qed.

Lemma iteration_young D st :
  bounded_lifetime is_alive D → young D (step st).
Proof.
  intros Hbound th Hin. rewrite iteration_polls.
  rewrite iteration_threads in Hin. unfold reap in Hin.
  apply reap_fold_alive in Hin; [|by right].
  unfold spawn in Hin. rewrite spawn_loop_polls in Hin.
  destruct (decide (th_started th + D ≤ polls st)%nat) as [Hle|]; [|lia].
  apply (Hbound _ _ (th_index th)) in Hle. congruence.
Qed.

Lemma sublist_measure D now (l1 l2 : list thread) :
  l1 `sublist_of` l2 →
  (∀ th, th ∈ l2 → (now ≤ th_started th + D)%nat) →
  (sum_list_with (fun th => th_started th + D + 1 - S now) l1 + length l2
   ≤ sum_list_with (fun th => th_started th + D + 1 - now) l2)%nat.
Proof.
  induction 1 as [|x l1 l2 Hsub IH|x l1 l2 Hsub IH]; intros Hy; simpl.
  - done.
  - specialize (Hy x (ltac:(by left)) ) as Hx.
    specialize (IH (fun th Hin => Hy th (ltac:(by right)))). lia.
  - specialize (Hy x (ltac:(by left)) ) as Hx.
    specialize (IH (fun th Hin => Hy th (ltac:(by right)))). lia.
Qed.

Lemma iteration_measure D st :
  0 < max_concurrent cfg →
  inv st → young D st →
  loop_condition programs st = true →
  (measure programs D (step st) < measure programs D st)%nat.
Proof.
  intros Hk Hinv Hy Hcond.
  pose proof (spawn_threads_nonempty st Hk Hinv Hcond) as Hne.
  pose proof (spawn_loop_measure D (length programs - program_index st) st)
    as Hspawn.
  pose proof (spawn_loop_young D (length programs - program_index st) st Hy)
    as Hy1.
  fold (spawn cfg tool programs st) in Hspawn, Hy1.
  set (st1 := spawn cfg tool programs st) in *.
  pose proof (sublist_measure D (polls st1)
                (threads (reap progress_callback is_alive programs st1))
                (threads st1) (reap_fold_sublist _ _) Hy1) as Hsum.
  unfold measure in *. rewrite iteration_polls, iteration_threads.
  fold st1.
  assert (Hidx : program_index (step st) = program_index st1).
  { unfold iteration, sleep, reap. simpl. by rewrite reap_fold_index. }
  rewrite Hidx.
  assert (Hpolls : polls st1 = polls st) by apply spawn_loop_polls.
  rewrite Hpolls in *. lia.
Qed.

Lemma loop_step fuel st :
  loop_condition programs st = true →
  loop (S fuel) st = loop fuel (step st).
Proof. intros Hcond. simpl. by rewrite Hcond. Qed.

Lemma loop_stop fuel st :
  loop_condition programs st = false → loop fuel st = Some st.
Proof. intros Hcond. destruct fuel; simpl; by rewrite Hcond. Qed.

(** With a positive limit and workers that end, the polling loop ends. *)
Lemma poll_loop_terminates D :
  bounded_lifetime is_alive D →
  0 < max_concurrent cfg →
  ∀ fuel st,
    (measure programs D st ≤ fuel)%nat → inv st → young D st →
    ∃ st', loop fuel st = Some st' ∧ inv st'
           ∧ loop_condition programs st' = false.
Proof.
  intros Hbound Hk. induction fuel as [|fuel IH]; intros st Hm Hinv Hy.
  - destruct (loop_condition programs st) eqn:Hcond.
    + pose proof (iteration_measure D st Hk Hinv Hy Hcond). lia.
    + exists st. by rewrite loop_stop.
  - destruct (loop_condition programs st) eqn:Hcond.
    + rewrite loop_step by done. apply IH.
      * pose proof (iteration_measure D st Hk Hinv Hy Hcond). lia.
      * by apply iteration_inv.
      * by apply iteration_young.
    + exists st. by rewrite loop_stop.
Qed.

(** Whatever the fuel, a loop that ends does so in a state of the
    invariant in which nothing is left. *)
Lemma poll_loop_sound fuel st st' :
  loop fuel st = Some st' → inv st →
  inv st' ∧ loop_condition programs st' = false.
Proof.
  revert st. induction fuel as [|fuel IH]; intros st Hloop Hinv.
  - simpl in Hloop. destruct (loop_condition programs st) eqn:Hcond; [done|].
    by inversion Hloop; subst.
  - destruct (loop_condition programs st) eqn:Hcond.
    + rewrite loop_step in Hloop by done.
      apply (IH _ Hloop). by apply iteration_inv.
    + rewrite loop_stop in Hloop by done. by inversion Hloop; subst.
Qed.

Lemma initial_inv tr : inv (initial tr).
Proof.
  split; simpl; try done; try lia; try (intros; lia).
  - constructor.
  - intros th Hin. by apply elem_of_nil in Hin.
Qed.

Lemma loop_exit st :
  inv st → loop_condition programs st = false →
  threads st = [] ∧ covers cfg tool programs (results st).
Proof.
  intros [Hidx Hact Hbound Hnd Hth Hcov Hres] Hcond.
  unfold loop_condition in Hcond. apply orb_false_iff in Hcond as [Hi Ha].
  apply Nat.ltb_ge in Hi. apply Z.ltb_ge in Ha.
  assert (Hnil : threads st = []).
  { destruct (threads st); [done|]. simpl in Hact. lia. }
  split; [done|]. split; [|done].
  intros p [i Hp]%list_elem_of_lookup_1.
  destruct (Hcov i p) as [Hin|]; [|done| |done].
  - apply lookup_lt_Some in Hp. lia.
  - rewrite Hnil in Hin. by apply elem_of_nil in Hin.
Qed.

Lemma install_concurrent_returns D tr :
  bounded_lifetime is_alive D →
  0 < max_concurrent cfg →
  ∃ fuel res tr',
    _install_concurrent_updates cfg tool progress_callback is_alive
      programs fuel tr = Some (inr res, tr')
    ∧ covers cfg tool programs res.
Proof.
  intros Hbound Hk.
  destruct (poll_loop_terminates D Hbound Hk
              (measure programs D (initial tr)) (initial tr))
    as (st' & Hloop & Hinv & Hcond).
  - done.
  - apply initial_inv.
  - intros th Hin. by apply elem_of_nil in Hin.
  - destruct (loop_exit st' Hinv Hcond) as [Hnil Hcov].
    exists (measure programs D (initial tr)), (results st'), (events st').
    unfold _install_concurrent_updates. rewrite Hloop.
    unfold join_all. rewrite Hnil. simpl. done.
Qed.

Lemma install_concurrent_sound fuel tr out tr' :
  _install_concurrent_updates cfg tool progress_callback is_alive
    programs fuel tr = Some (out, tr') →
  ∃ res, out = inr res ∧ covers cfg tool programs res.
Proof.
  unfold _install_concurrent_updates.
  destruct (loop fuel (initial tr)) as [st'|] eqn:Hloop; [|done].
  destruct (poll_loop_sound _ _ _ Hloop (initial_inv tr)) as [Hinv Hcond].
  destruct (loop_exit st' Hinv Hcond) as [Hnil Hcov].
  unfold join_all. rewrite Hnil. simpl. intros [= <- <-]. eauto.
Qed.

(** The list of threads never holds more than the limit allows. *)
Lemma threads_within_limit st :
  inv st → 0 < max_concurrent cfg →
  Z.of_nat (length (running is_alive st)) <= max_concurrent cfg
  ∧ Z.of_nat (length (threads st)) <= max_concurrent cfg.
Proof.
  intros Hinv Hk.
  pose proof (li_active _ _ _ _ Hinv). pose proof (li_bound _ _ _ _ Hinv).
  pose proof (length_filter
                (fun th => is_alive (polls st) (th_started th) (th_index th) = true)
                (threads st)) as Hlen.
  unfold running. lia.
Qed.

Lemma run_polls_inv n tr :
  inv (run_polls cfg tool progress_callback is_alive programs n tr).
Proof.
  induction n as [|n IH]; [apply initial_inv|].
  unfold run_polls. simpl. by apply iteration_inv.
Qed.

(** The states the polling loop goes through are those of [run_polls]. *)
Lemma poll_loop_visits fuel st st' :
  loop fuel st = Some st' → ∃ n, (n ≤ fuel)%nat ∧ st' = Nat.iter n step st.
Proof.
  revert st. induction fuel as [|fuel IH]; intros st Hloop.
  - simpl in Hloop. destruct (loop_condition programs st); [done|].
    exists 0%nat. by inversion Hloop.
  - destruct (loop_condition programs st) eqn:Hcond.
    + rewrite loop_step in Hloop by done.
      destruct (IH _ Hloop) as (n & Hn & ->).
      exists (S n). split; [lia|]. by rewrite Nat.iter_succ_r.
    + rewrite loop_stop in Hloop by done.
      exists 0%nat. split; [lia|]. by inversion Hloop.
Qed.

(** With a limit that is not positive and a program left to start, the
    loop starts nothing and never ends. *)
Lemma poll_loop_stuck fuel st :
  max_concurrent cfg <= 0 →
  threads st = [] → active_threads st = 0 →
  (program_index st < length programs)%nat →
  loop fuel st = None.
Proof.
  intros Hk. revert st. induction fuel as [|fuel IH]; intros st Hths Hact Hidx.
  - simpl. unfold loop_condition.
    by rewrite (proj2 (Nat.ltb_lt _ _) Hidx).
  - rewrite loop_step
      by (unfold loop_condition; by rewrite (proj2 (Nat.ltb_lt _ _) Hidx)).
    assert (Hspawn : spawn cfg tool programs st = st).
    { unfold spawn. destruct (length programs - program_index st)%nat; [done|].
      simpl. rewrite Hact.
      by rewrite (proj2 (Z.ltb_ge 0 (max_concurrent cfg)) Hk). }
    unfold iteration. rewrite Hspawn. unfold reap. rewrite Hths. simpl.
    apply IH; simpl; done.
Qed.

End Loop.

Lemma call_progress_returns n ok done total tr :
  ∃ tr', call_progress progress_callback n ok done total tr = (inr tt, tr').
Proof. unfold call_progress. destruct progress_callback; by eexists. Qed.

Lemma create_backup_returns l tr :
  ∃ tr', _create_backup l tr = (inr tt, tr').
Proof. by eexists. Qed.

Lemma sequential_returns total l res tr :
  ∃ res' tr',
    for_each l (sequential_step cfg tool progress_callback total) res tr
    = (inr res', tr')
    ∧ (∀ p, p ∈ l → is_Some (res' !! name p))
    ∧ (∀ n, is_Some (res !! n) → is_Some (res' !! n))
    ∧ (∀ n r, res' !! n = Some r →
         res !! n = Some r
         ∨ ∃ p tr0, p ∈ l ∧ name p = n ∧ fst (install p tr0) = inr r).
Proof.
  revert res tr. induction l as [|p l IH]; intros res tr.
  - exists res, tr. split; [done|]. split; [|split].
    + intros p Hin. by apply elem_of_nil in Hin.
    + done.
    + intros n r Hr. by left.
  - destruct (install_single_update_returns p tr) as (r & tr1 & Hr & Hprog).
    destruct (call_progress_returns (name p) (success r)
                (size (<[name p := r]> res)) total tr1) as [tr2 Hcb].
    destruct (IH (<[name p := r]> res) tr2)
      as (res' & tr' & Hrun & Hall & Hmono & Hsound).
    exists res', tr'. split; [|split; [|split]].
    + simpl. unfold bind at 1. unfold sequential_step at 1. unfold bind at 1.
      rewrite Hr. unfold bind at 1. rewrite Hcb. unfold ret at 1. exact Hrun.
    + intros q [->|Hq]%elem_of_cons; [|by apply Hall].
      apply Hmono. rewrite lookup_insert_eq. eauto.
    + intros n Hn. apply Hmono, lookup_insert_is_Some'. by right.
    + intros n r' Hlook. destruct (Hsound n r' Hlook) as [Hold|Hnew].
      * destruct (decide (name p = n)) as [<-|Hne].
        -- rewrite lookup_insert_eq in Hold. inversion Hold; subst r'.
           right. exists p, tr. split; [by left|]. by rewrite Hr.
        -- rewrite lookup_insert_ne in Hold by done. by left.
      * destruct Hnew as (q & tr0 & Hq & Hn & Hi). right.
        exists q, tr0. split; [by right|done].
Qed.

Lemma sequential_covers total l tr :
  ∃ res tr',
    for_each l (sequential_step cfg tool progress_callback total) ∅ tr
    = (inr res, tr')
    ∧ covers cfg tool l res.
Proof.
  destruct (sequential_returns total l ∅ tr)
    as (res & tr' & Hrun & Hall & _ & Hsound).
  exists res, tr'. split; [done|]. split; [done|].
  intros n r Hlook. destruct (Hsound n r Hlook) as [Hempty|]; [|done].
  by rewrite lookup_empty in Hempty.
Qed.

Lemma covers_nil : covers cfg tool [] ∅.
Proof.
  split.
  - intros p Hin. by apply elem_of_nil in Hin.
  - intros n r Hlook. by rewrite lookup_empty in Hlook.
Qed.

(** With the sequential mode or a positive limit, and workers that end,
    [install_updates] returns a map that covers the attempted programs. *)
Lemma install_updates_returns D programs tr :
  bounded_lifetime is_alive D →
  update_all_at_once cfg = true ∨ 0 < max_concurrent cfg →
  ∃ fuel res tr',
    install_updates cfg tool progress_callback is_alive fuel programs tr
    = Some (inr res, tr')
    ∧ covers cfg tool (attempted programs) res.
Proof.
  intros Hbound Hmode. unfold install_updates. fold (attempted programs).
  destruct (attempted programs) as [|p todo] eqn:Htodo.
  { exists 0%nat, ∅, tr. split; [done|apply covers_nil]. }
  destruct (create_backup_returns (p :: todo) tr) as [trb Hb].
  assert (Hbackup : ∃ tr1,
             (if create_backups cfg then _create_backup (p :: todo) else ret tt) tr
             = (inr tt, tr1)).
  { destruct (create_backups cfg); [by exists trb|by exists tr]. }
  destruct Hbackup as [tr1 ->].
  destruct (update_all_at_once cfg) eqn:Hseq.
  - destruct (sequential_covers (length (p :: todo)) (p :: todo) tr1)
      as (res & tr' & Hrun & Hcov).
    exists 0%nat, res, tr'. by rewrite Hrun.
  - destruct Hmode as [|Hk]; [done|].
    apply (install_concurrent_returns (p :: todo) D tr1 Hbound Hk).
Qed.

(** Whatever the limit and the fuel, a call of [install_updates] that
    ends has returned a map that covers the attempted programs: it has
    not raised. *)
Lemma install_updates_sound fuel programs tr out tr' :
  install_updates cfg tool progress_callback is_alive fuel programs tr
  = Some (out, tr') →
  ∃ res, out = inr res ∧ covers cfg tool (attempted programs) res.
Proof.
  unfold install_updates. fold (attempted programs).
  destruct (attempted programs) as [|p todo] eqn:Htodo.
  { intros [= <- <-]. exists ∅. split; [done|apply covers_nil]. }
  destruct (create_backup_returns (p :: todo) tr) as [trb Hb].
  assert (Hbackup : ∃ tr1,
             (if create_backups cfg then _create_backup (p :: todo) else ret tt) tr
             = (inr tt, tr1)).
  { destruct (create_backups cfg); [by exists trb|by exists tr]. }
  destruct Hbackup as [tr1 ->].
  destruct (update_all_at_once cfg).
  - destruct (sequential_covers (length (p :: todo)) (p :: todo) tr1)
      as (res & tr2 & Hrun & Hcov).
    rewrite Hrun. intros [= <- <-]. eauto.
  - apply install_concurrent_sound.
Qed.

Lemma attempted_spec programs p :
  p ∈ attempted programs ↔ p ∈ programs ∧ update_available p = true.
Proof. unfold attempted. rewrite list_elem_of_filter. tauto. Qed.

Lemma nodup_fmap_inj {A B} (f : A → B) (l : list A) x y :
  NoDup (f <$> l) → x ∈ l → y ∈ l → f x = f y → x = y.
Proof.
  induction l as [|a l IH]; intros Hnd Hx Hy Hf; [by apply elem_of_nil in Hx|].
  rewrite fmap_cons in Hnd. apply NoDup_cons in Hnd as [Ha Hnd].
  apply elem_of_cons in Hx as [->|Hx]; apply elem_of_cons in Hy as [->|Hy].
  - done.
  - exfalso. apply Ha. rewrite Hf. by apply list_elem_of_fmap_2.
  - exfalso. apply Ha. rewrite <- Hf. by apply list_elem_of_fmap_2.
  - by apply IH.
Qed.

(** When the attempted programs have distinct names, the map has as many
    entries as there are programs, and the entry under the name of a
    program is the result of that very program. *)
Lemma covers_distinct_names todo res :
  covers cfg tool todo res →
  NoDup (name <$> todo) →
  size res = length todo
  ∧ ∀ p, p ∈ todo → ∃ r, res !! name p = Some r ∧ program r = p.
Proof.
  intros [Hall Hsound] Hnd. split.
  - assert (Hdom : dom res = list_to_set (name <$> todo)).
    { apply set_eq. intros n. rewrite elem_of_dom, elem_of_list_to_set. split.
      - intros [r Hr]. destruct (Hsound n r Hr) as (p & tr0 & Hp & <- & _).
        by apply list_elem_of_fmap_2.
      - intros (p & -> & Hp)%list_elem_of_fmap. by apply Hall. }
    rewrite <- size_dom, Hdom, size_list_to_set by done.
    by rewrite length_fmap.
  - intros p Hp. destruct (Hall p Hp) as [r Hr]. exists r. split; [done|].
    destruct (Hsound _ r Hr) as (q & tr0 & Hq & Hname & Hi).
    rewrite (install_result_program _ _ _ Hi).
    by apply (nodup_fmap_inj name todo).
Qed.

End InstallerProofs.

Lemma alive_for_bounded d : bounded_lifetime (alive_for d) d.
Proof.
  intros now started i Hle. unfold alive_for. apply Nat.ltb_ge. lia.
Qed.

(** ** Bounded concurrency, termination and the result map *)

(** C9.  With a positive limit, at every poll of the bounded-concurrent
    loop (before the inner loop, after any number of its rounds, and after
    the dead threads have been joined) the threads that are running, and
    even those started and not yet joined, are no more than the limit.  The
    sequential mode calls one install after the other. *)
Theorem running_within_limit cfg tool progress_callback is_alive programs tr n m :
  0 < max_concurrent cfg →
  let st := run_polls cfg tool progress_callback is_alive programs n tr in
  within_limit cfg is_alive st
  ∧ within_limit cfg is_alive (spawn_loop cfg tool programs m st)
  ∧ within_limit cfg is_alive
      (reap progress_callback is_alive programs (spawn cfg tool programs st)).
Proof.
  intros Hk st.
  pose proof (run_polls_inv cfg tool progress_callback is_alive programs n tr)
    as Hinv.
  fold st in Hinv. unfold within_limit.
  split; [|split].
  - by apply (threads_within_limit cfg tool is_alive programs).
  - apply (threads_within_limit cfg tool is_alive programs); [|done].
    by apply spawn_loop_inv.
  - apply (threads_within_limit cfg tool is_alive programs); [|done].
    by apply reap_inv, spawn_loop_inv.
Qed.

Lemma running_within_limit_witness :
  0 < max_concurrent (config_with_limit 2)
  ∧ within_limit (config_with_limit 2) (alive_for 3)
      (spawn_loop (config_with_limit 2) only_winget five_programs 5
         (run_polls (config_with_limit 2) only_winget true (alive_for 3)
            five_programs 1 [])).
Proof.
  split; [reflexivity|].
  apply (running_within_limit (config_with_limit 2) only_winget true (alive_for 3)
           five_programs [] 1 5).
  reflexivity.
Defined.

(** C2, as the code has it.  For a configuration whose limit of
    concurrent updates is an integer or absent, and a progress callback
    that returns normally: in the sequential mode, or with a limit of at
    least 1 and workers that each end within a bounded number of polls,
    [install_updates] returns, and every attempted program has then reached
    a terminal state: its result is in the map returned.  A limit that is
    not positive is not raised to the caller, it is never validated: in the
    bounded-concurrent mode with such a limit and a program to update, the
    call never returns. *)
Theorem install_updates_returns_with_all_results
    cfg tool progress_callback is_alive programs tr :
  (∀ D,
     bounded_lifetime is_alive D →
     update_all_at_once cfg = true ∨ 0 < max_concurrent cfg →
     ∃ fuel res tr',
       install_updates cfg tool progress_callback is_alive fuel programs tr
       = Some (inr res, tr')
       ∧ ∀ p, p ∈ programs → update_available p = true →
           ∃ r, res !! name p = Some r ∧ name (program r) = name p)
  ∧ (update_all_at_once cfg = false →
     max_concurrent cfg <= 0 →
     (∃ p, p ∈ programs ∧ update_available p = true) →
     ∀ fuel,
       install_updates cfg tool progress_callback is_alive fuel programs tr = None).
Proof.
  split.
  - intros D Hbound Hmode.
    destruct (install_updates_returns cfg tool progress_callback is_alive D
                programs tr Hbound Hmode) as (fuel & res & tr' & Hrun & Hall & Hsound).
    exists fuel, res, tr'. split; [done|].
    intros p Hp Hup.
    destruct (Hall p) as [r Hr]; [by apply attempted_spec|].
    exists r. split; [done|].
    destruct (Hsound _ _ Hr) as (q & tr0 & _ & Hname & Hi).
    by rewrite (install_result_program _ _ _ _ _ Hi).
  - intros Hseq Hk (p & Hp & Hup) fuel.
    assert (Htodo : p ∈ attempted programs) by (by apply attempted_spec).
    unfold install_updates. fold (attempted programs).
    destruct (attempted programs) as [|q todo]; [by apply elem_of_nil in Htodo|].
    destruct (create_backup_returns (q :: todo) tr) as [trb Hb].
    assert (Hbackup : ∃ tr1,
               (if create_backups cfg then _create_backup (q :: todo) else ret tt) tr
               = (inr tt, tr1)).
    { destruct (create_backups cfg); [by exists trb|by exists tr]. }
    destruct Hbackup as [tr1 ->]. rewrite Hseq.
    unfold _install_concurrent_updates.
    rewrite poll_loop_stuck; [done|done|done|done|simpl; lia].
Qed.

Lemma install_updates_returns_with_all_results_witness :
  bounded_lifetime (alive_for 3) 3
  ∧ ∃ fuel res tr',
      install_updates (config_with_limit 2) only_winget true (alive_for 3)
        fuel five_programs [] = Some (inr res, tr')
      ∧ ∀ p, p ∈ five_programs → update_available p = true →
          ∃ r, res !! name p = Some r ∧ name (program r) = name p.
Proof.
  split; [apply alive_for_bounded|].
  apply (proj1 (install_updates_returns_with_all_results (config_with_limit 2)
                  only_winget true (alive_for 3) five_programs []) 3%nat
           (alive_for_bounded 3)).
  right. reflexivity.
Defined.

(** C2 fails for a limit of 0: with one program to update in the
    bounded-concurrent mode, the call neither returns nor raises, whatever
    the number of polls it is given. *)
Lemma install_updates_hangs_on_limit_zero :
  ¬ install_updates_ends (config_with_limit 0) only_winget false (alive_for 1)
      [updatable "Alpha" "winget" "Vendor.Alpha"] [].
Proof.
  intros (fuel & out & Hrun).
  unfold install_updates in Hrun. simpl in Hrun.
  unfold _install_concurrent_updates in Hrun.
  rewrite poll_loop_stuck in Hrun; [done|done|done|done|simpl; lia].
Qed.

(** C6.  In the sequential mode, or with a positive limit and workers that
    end, [install_updates] returns a map in which every program with
    [update_available] has its entry, under its name, and every entry is
    keyed by the name of such a program and holds the result of the install
    of that program, whatever happened to the other programs: a failure is
    one more result.  When the names of these programs are distinct, the
    map has exactly as many entries as there are such programs, and the
    entry of each is its own result.  A call that ends, with any fuel, has
    returned such a map. *)
Theorem install_updates_one_entry_per_attempted
    cfg tool progress_callback is_alive D programs tr :
  bounded_lifetime is_alive D →
  update_all_at_once cfg = true ∨ 0 < max_concurrent cfg →
  (∃ fuel res tr',
     install_updates cfg tool progress_callback is_alive fuel programs tr
     = Some (inr res, tr')
     ∧ (∀ p, p ∈ programs → update_available p = true →
          ∃ r, res !! name p = Some r)
     ∧ (∀ n r, res !! n = Some r →
          ∃ p tr0, p ∈ programs ∧ update_available p = true ∧ name p = n
                   ∧ program r = p
                   ∧ fst (_install_single_update cfg tool p tr0) = inr r)
     ∧ (NoDup (name <$> attempted programs) →
          size res = length (attempted programs)
          ∧ ∀ p, p ∈ programs → update_available p = true →
              ∃ r, res !! name p = Some r ∧ program r = p))
  ∧ (∀ fuel out tr',
       install_updates cfg tool progress_callback is_alive fuel programs tr
       = Some (out, tr') →
       ∃ res, out = inr res ∧ covers cfg tool (attempted programs) res).
Proof.
  intros Hbound Hmode. split; [|intros *; apply install_updates_sound].
  destruct (install_updates_returns cfg tool progress_callback is_alive D
              programs tr Hbound Hmode) as (fuel & res & tr' & Hrun & Hcov).
  exists fuel, res, tr'. split; [done|].
  pose proof Hcov as [Hall Hsound].
  split; [|split].
  - intros p Hp Hup. apply Hall. by apply attempted_spec.
  - intros n r Hr. destruct (Hsound n r Hr) as (p & tr0 & Hp & Hname & Hi).
    apply attempted_spec in Hp as [Hp Hup]. exists p, tr0.
    repeat split; try done.
    by apply (install_result_program cfg tool p tr0).
  - intros Hnd.
    destruct (covers_distinct_names cfg tool _ _ Hcov Hnd) as [Hsize Hown].
    split; [done|]. intros p Hp Hup. apply Hown. by apply attempted_spec.
Qed.

Lemma install_updates_one_entry_per_attempted_witness :
  bounded_lifetime (alive_for 3) 3
  ∧ (update_all_at_once (config_with_limit 2) = true
     ∨ 0 < max_concurrent (config_with_limit 2))
  ∧ ∃ fuel res tr',
      install_updates (config_with_limit 2) only_winget true (alive_for 3)
        fuel five_programs [] = Some (inr res, tr')
      ∧ size res = 5%nat
      ∧ ∀ p, p ∈ five_programs → ∃ r, res !! name p = Some r ∧ program r = p.
Proof.
  split; [apply alive_for_bounded|].
  split; [right; reflexivity|].
  destruct (install_updates_one_entry_per_attempted (config_with_limit 2)
              only_winget true (alive_for 3) 3 five_programs []
              (alive_for_bounded 3) (or_intror eq_refl))
    as [(fuel & res & tr' & Hrun & _ & _ & Hdistinct) _].
  exists fuel, res, tr'. split; [exact Hrun|].
  destruct Hdistinct as [Hsize Hown].
  { vm_compute. repeat constructor; vm_compute; intros Hin;
      repeat (apply elem_of_cons in Hin as [Hin|Hin]; [discriminate|]);
      by apply elem_of_nil in Hin. }
  split; [exact Hsize|].
  intros p Hp. apply Hown; [exact Hp|].
  repeat (apply elem_of_cons in Hp as [->|Hp]; [reflexivity|]).
  by apply elem_of_nil in Hp.
Defined.

(** ** Instances of the update checks *)

Lemma checks_skip_empty_package_id_witness :
  let p := new_program "Notepad" "1.0" EmptyString EmptyString "winget" EmptyString in
  package_id p = EmptyString
  ∧ _check_winget_updates no_tools p [] = (inr p, [])
  ∧ _check_chocolatey_updates no_tools no_package_match p [] = (inr p, []).
Proof.
  split; [reflexivity|].
  apply (checks_skip_empty_package_id no_tools no_package_match). reflexivity.
Defined.

Lemma signal_without_version_marks_unknown_witness :
  let p := new_program "App" "1.2.0" EmptyString EmptyString "winget" "Vendor.App" in
  package_id p ≠ EmptyString
  ∧ ∃ p', fst (_check_winget_updates (prints "1 upgrades available.") p []) = inr p'
          ∧ update_available p' = true ∧ available_version p' = "Unknown"
          ∧ p' = mark_update p "Unknown".
Proof.
  split; [discriminate|].
  apply (signal_without_version_marks_unknown (prints "1 upgrades available.")
           no_package_match (new_program "App" "1.2.0" EmptyString EmptyString "winget" "Vendor.App") []
           {| returncode := 0; stdout := "1 upgrades available."; stderr := EmptyString |});
    [discriminate|reflexivity|reflexivity|reflexivity].
Defined.

Lemma chocolatey_signal_lost_on_pattern_error_witness :
  package_id unclosed_parenthesis ≠ EmptyString
  ∧ contains "would like to upgrade" (lower upgrade_without_version) = true
  ∧ _check_chocolatey_updates (prints upgrade_without_version) ill_formed_pattern
      unclosed_parenthesis []
    = (inr unclosed_parenthesis, [Run ["choco"; "upgrade"; "app(x64"; "--noop"]])
  ∧ update_available unclosed_parenthesis = false.
Proof.
  split; [discriminate|]. split; [reflexivity|]. split; [|reflexivity].
  apply (chocolatey_signal_lost_on_pattern_error (prints upgrade_without_version)
           ill_formed_pattern unclosed_parenthesis []
           {| returncode := 0; stdout := upgrade_without_version;
              stderr := EmptyString |});
    [discriminate|reflexivity|reflexivity|reflexivity].
Defined.

(** * Further properties of the code *)

(** ** The reconciled inventory as a function of the scanned list *)

Section DedupFunction.

Implicit Types (p q : Program) (l : list Program) (seen : gset string).

Lemma insert_by_priority_perm p l : insert_by_priority p l ≡ₚ p :: l.
Proof.
  induction l as [|x l IH]; simpl; [done|].
  destruct (priority (source p) <=? priority (source x)); [done|].
  rewrite IH. apply Permutation_swap.
Qed.

Lemma sort_by_priority_perm l : sort_by_priority l ≡ₚ l.
Proof.
  induction l as [|x l IH]; simpl; [done|].
  by rewrite insert_by_priority_perm, IH.
Qed.

Lemma insert_by_priority_sorted p l :
  StronglySorted by_rank l → StronglySorted by_rank (insert_by_priority p l).
Proof.
  induction l as [|x l IH]; intros Hs; simpl.
  - repeat constructor.
  - apply StronglySorted_inv in Hs as [Hs Hx].
    destruct (Z.leb_spec (priority (source p)) (priority (source x))) as [Hle|Hgt].
    + constructor; [by constructor|].
      constructor; [done|].
      eapply Forall_impl; [exact Hx|]. unfold by_rank, rank. intros; simpl in *; lia.
    + constructor; [by apply IH|].
      rewrite insert_by_priority_perm. constructor; [|done].
      unfold by_rank, rank. lia.
Qed.

Lemma sort_by_priority_sorted l : StronglySorted by_rank (sort_by_priority l).
Proof.
  induction l as [|x l IH]; simpl; [constructor|].
  by apply insert_by_priority_sorted.
Qed.

(** A list in the order of the ranks is left as it is by the sort. *)
Lemma sort_by_priority_id l :
  StronglySorted by_rank l → sort_by_priority l = l.
Proof.
  induction l as [|x l IH]; intros Hs; simpl; [done|].
  apply StronglySorted_inv in Hs as [Hs Hx]. rewrite IH by done.
  destruct l as [|y l]; [done|]. simpl.
  apply Forall_cons in Hx as [Hxy _]. unfold by_rank, rank in Hxy.
  by rewrite (proj2 (Z.leb_le _ _) Hxy).
Qed.

Lemma keep_first_sublist seen l : keep_first seen l `sublist_of` l.
Proof.
  revert seen. induction l as [|p l IH]; intros seen; simpl; [done|].
  destruct (decide (key p ∈ seen)).
  - by apply sublist_cons.
  - by apply sublist_skip.
Qed.

Lemma strongly_sorted_sublist (l1 l2 : list Program) :
  l1 `sublist_of` l2 → StronglySorted by_rank l2 → StronglySorted by_rank l1.
Proof.
  induction 1 as [|x l1 l2 Hsub IH|x l1 l2 Hsub IH]; intros Hs.
  - constructor.
  - apply StronglySorted_inv in Hs as [Hs Hx]. constructor; [by apply IH|].
    apply Forall_forall. intros y Hy. rewrite Forall_forall in Hx.
    apply Hx. by apply (sublist_subseteq _ _ Hsub).
  - apply StronglySorted_inv in Hs as [Hs Hx]. by apply IH.
Qed.

Lemma keep_first_keys seen l :
  NoDup (key <$> keep_first seen l)
  ∧ ∀ p, p ∈ keep_first seen l → key p ∉ seen.
Proof.
  revert seen. induction l as [|p l IH]; intros seen; simpl.
  - split; [constructor|]. intros q Hq. by apply elem_of_nil in Hq.
  - destruct (decide (key p ∈ seen)) as [Hin|Hnotin]; [apply IH|].
    destruct (IH ({[key p]} ∪ seen)) as [Hnd Hout].
    split.
    + rewrite fmap_cons. constructor; [|done].
      intros (q & Hk & Hq)%list_elem_of_fmap.
      apply Hout in Hq. apply Hq, elem_of_union. left.
      by apply elem_of_singleton.
    + intros q [->|Hq]%elem_of_cons; [done|].
      apply Hout in Hq. intros Hin. apply Hq, elem_of_union. by right.
Qed.

Lemma keep_first_id seen l :
  NoDup (key <$> l) → (∀ p, p ∈ l → key p ∉ seen) → keep_first seen l = l.
Proof.
  revert seen. induction l as [|p l IH]; intros seen Hnd Hout; simpl; [done|].
  rewrite fmap_cons in Hnd. apply NoDup_cons in Hnd as [Hp Hnd].
  rewrite decide_False by (apply Hout; by left).
  f_equal. apply IH; [done|].
  intros q Hq. apply not_elem_of_union. split; [|apply Hout; by right].
  intros Heq%elem_of_singleton. apply Hp. rewrite <- Heq.
  by apply list_elem_of_fmap_2.
Qed.

(** On a list in the order of the ranks the loop never replaces a record:
    it keeps the first record of each key. *)
Lemma dedup_fold_sorted l (seen : gmap string Program) unique :
  StronglySorted by_rank l →
  (∀ k e, seen !! k = Some e → Forall (by_rank e) l) →
  snd (fold_left dedup_step l (seen, unique))
  = unique ++ keep_first (dom seen) l.
Proof.
  revert seen unique.
  induction l as [|p l IH]; intros seen unique Hs Hseen.
  - simpl. by rewrite app_nil_r.
  - apply StronglySorted_inv in Hs as [Hs Hp].
    change (fold_left dedup_step (p :: l) (seen, unique))
      with (fold_left dedup_step l (dedup_step (seen, unique) p)).
    unfold dedup_step. simpl keep_first.
    destruct (seen !! key p) as [existing|] eqn:Hlook.
    + pose proof (Hseen _ _ Hlook) as Hex.
      apply Forall_cons in Hex as [Hrank Hex]. unfold by_rank, rank in Hrank.
      rewrite (proj2 (Z.ltb_ge _ _) Hrank).
      rewrite decide_True by (apply elem_of_dom; eauto).
      apply IH; [done|].
      intros k e He. specialize (Hseen k e He).
      by apply Forall_cons in Hseen as [_ ?].
    + rewrite decide_False by (by apply not_elem_of_dom).
      rewrite IH.
      * rewrite dom_insert_L. by rewrite <- app_assoc.
      * done.
      * intros k e He. destruct (decide (key p = k)) as [<-|Hne].
        -- rewrite lookup_insert_eq in He. by inversion He; subst.
        -- rewrite lookup_insert_ne in He by done.
           specialize (Hseen k e He). by apply Forall_cons in Hseen as [_ ?].
Qed.

Lemma deduplicate_as_keep_first l :
  _deduplicate_programs l = keep_first ∅ (sort_by_priority l).
Proof.
  unfold _deduplicate_programs.
  rewrite dedup_fold_sorted.
  - by rewrite dom_empty_L.
  - apply sort_by_priority_sorted.
  - intros k e He. by rewrite lookup_empty in He.
Qed.

Lemma deduplicate_sorted l : StronglySorted by_rank (_deduplicate_programs l).
Proof.
  rewrite deduplicate_as_keep_first.
  eapply strongly_sorted_sublist; [apply keep_first_sublist|].
  apply sort_by_priority_sorted.
Qed.

(** X1.  Reconciling a reconciled inventory changes nothing. *)
Theorem deduplicate_idempotent l :
  _deduplicate_programs (_deduplicate_programs l) = _deduplicate_programs l.
Proof.
  rewrite (deduplicate_as_keep_first (_deduplicate_programs l)).
  rewrite sort_by_priority_id by apply deduplicate_sorted.
  rewrite deduplicate_as_keep_first.
  apply keep_first_id; apply keep_first_keys.
Qed.

(** X2.  The reconciled inventory is the list sorted by rank (records of
    one rank in their order of arrival) in which only the first record of
    each identity key is kept; it lists the records in the order of the
    ranks, and it is never longer than the list it comes from. *)
Theorem deduplicate_first_of_each_key_in_rank_order l :
  _deduplicate_programs l = keep_first ∅ (sort_by_priority l)
  ∧ StronglySorted by_rank (_deduplicate_programs l)
  ∧ sort_by_priority l ≡ₚ l
  ∧ (length (_deduplicate_programs l) ≤ length l)%nat.
Proof.
  split; [apply deduplicate_as_keep_first|].
  split; [apply deduplicate_sorted|].
  split; [apply sort_by_priority_perm|].
  rewrite deduplicate_as_keep_first.
  rewrite <- (Permutation_length (sort_by_priority_perm l)).
  apply sublist_length, keep_first_sublist.
Qed.

(** X3.  When no two records share an identity key, reconciliation drops
    nothing: it only sorts the records by rank. *)
Theorem deduplicate_distinct_keys_only_sorts l :
  NoDup (key <$> l) →
  _deduplicate_programs l = sort_by_priority l
  ∧ _deduplicate_programs l ≡ₚ l.
Proof.
  intros Hnd.
  assert (Heq : _deduplicate_programs l = sort_by_priority l).
  { rewrite deduplicate_as_keep_first. apply keep_first_id.
    - by rewrite (sort_by_priority_perm l).
    - intros p _. apply not_elem_of_empty. }
  split; [done|]. rewrite Heq. apply sort_by_priority_perm.
Qed.

End DedupFunction.

Lemma deduplicate_distinct_keys_only_sorts_witness :
  NoDup (key <$> five_programs)
  ∧ _deduplicate_programs five_programs = sort_by_priority five_programs
  ∧ _deduplicate_programs five_programs ≡ₚ five_programs.
Proof.
  assert (H : NoDup (key <$> five_programs)).
  { apply (bool_decide_unpack (NoDup (key <$> five_programs))).
    vm_compute. exact I. }
  split; [exact H|].
  exact (deduplicate_distinct_keys_only_sorts five_programs H).
Defined.

(** ** The parsers of the adapters *)

Section Parsers.

Implicit Types (programs added : list Program) (a p : Program).

Lemma existsb_id_false (id : Program → string) n programs :
  existsb (fun p => String.eqb (id p) n) programs = false →
  n ∉ id <$> programs.
Proof.
  intros Hex (p & -> & Hp)%list_elem_of_fmap.
  assert (existsb (fun q => String.eqb (id q) (id p)) programs = true) as Htrue.
  { apply existsb_exists. exists p. split; [by apply list_elem_of_In|].
    apply String.eqb_refl. }
  congruence.
Qed.

Lemma extends_by_refl ok id programs : extends_by ok id programs programs.
Proof.
  exists []. rewrite app_nil_r. repeat split; try constructor.
  intros a Ha. by apply elem_of_nil in Ha.
Qed.

Lemma extends_by_trans ok id l1 l2 l3 :
  extends_by ok id l1 l2 → extends_by ok id l2 l3 → extends_by ok id l1 l3.
Proof.
  intros (a1 & -> & Hok1 & Hnd1 & Hnew1) (a2 & -> & Hok2 & Hnd2 & Hnew2).
  exists (a1 ++ a2). split; [by rewrite app_assoc|].
  split; [by apply Forall_app|]. split.
  - rewrite fmap_app. apply NoDup_app. split; [done|]. split; [|done].
    intros x Hx (a & -> & Ha)%list_elem_of_fmap.
    apply (Hnew2 a Ha). rewrite fmap_app. apply elem_of_app. by right.
  - intros a [Ha|Ha]%elem_of_app; [by apply Hnew1|].
    intros Hin. apply (Hnew2 a Ha). rewrite fmap_app. apply elem_of_app. by left.
Qed.

Lemma extends_by_snoc (ok : Program → Prop) id programs a :
  ok a → id a ∉ id <$> programs → extends_by ok id programs (programs ++ [a]).
Proof.
  intros Hok Hnew. exists [a]. split; [done|].
  split; [by constructor|]. split; [apply NoDup_singleton|].
  by intros b ->%list_elem_of_singleton.
Qed.

Lemma extends_by_nodup ok id programs programs' :
  extends_by ok id programs programs' →
  NoDup (id <$> programs) → NoDup (id <$> programs').
Proof.
  intros (added & -> & _ & Hnd & Hnew) Hold.
  rewrite fmap_app. apply NoDup_app. split; [done|]. split; [|done].
  intros x Hx (a & -> & Ha)%list_elem_of_fmap. by apply (Hnew a Ha).
Qed.

Lemma extends_by_impl (ok ok' : Program → Prop) id programs programs' :
  (∀ a, ok a → ok' a) →
  extends_by ok id programs programs' → extends_by ok' id programs programs'.
Proof.
  intros Himpl (added & -> & Hok & Hnd & Hnew).
  exists added. repeat split; try done. by eapply Forall_impl.
Qed.

Lemma extends_by_forall (ok P : Program → Prop) id programs programs' :
  (∀ a, ok a → P a) →
  extends_by ok id programs programs' →
  Forall P programs → Forall P programs'.
Proof.
  intros Himpl (added & -> & Hok & _) Hold.
  apply Forall_app. split; [done|]. by eapply Forall_impl.
Qed.

(** *** [winget list] *)

Lemma winget_line_extends st raw :
  extends_by winget_record name st.2 (winget_line st raw).2.
Proof.
  destruct st as [header_found programs]. unfold winget_line.
  destruct (is_empty (strip raw)); [apply extends_by_refl|].
  destruct (_ && _); [apply extends_by_refl|].
  destruct (_ || _); [apply extends_by_refl|].
  destruct (re_split_2ws false (strip raw)) as [|part0 [|part1 [|part2 rest]]];
    try apply extends_by_refl.
  destruct (is_empty (strip part0)) eqn:Hempty; [apply extends_by_refl|].
  destruct (String.eqb (strip part0) "Unknown") eqn:Hunknown;
    [apply extends_by_refl|].
  simpl orb. cbv iota.
  destruct (existsb _ programs) eqn:Hex; [apply extends_by_refl|].
  apply extends_by_snoc.
  - repeat split; try done.
    + simpl. intros Hn. by rewrite Hn in Hempty.
    + simpl. by apply String.eqb_neq.
  - by apply existsb_id_false.
Qed.

Lemma parse_winget_fold_extends lines st :
  extends_by winget_record name st.2 (fold_left winget_line lines st).2.
Proof.
  revert st. induction lines as [|raw lines IH]; intros st.
  - apply extends_by_refl.
  - simpl. eapply extends_by_trans; [apply winget_line_extends|apply IH].
Qed.

Lemma parse_winget_fold_no_header lines programs :
  (∀ line, line ∈ lines → is_winget_header (strip line) = false) →
  fold_left winget_line lines (false, programs) = (false, programs).
Proof.
  induction lines as [|raw lines IH]; intros Hno; [done|].
  simpl. unfold is_winget_header in Hno.
  rewrite (Hno raw) by (by left).
  destruct (is_empty (strip raw)); apply IH; intros; apply Hno; by right.
Qed.

Lemma parse_winget_extends output programs :
  extends_by winget_record name programs (_parse_winget_output output programs).
Proof. apply (parse_winget_fold_extends _ (false, programs)). Qed.

(** X4.  [_parse_winget_output] keeps the programs it is given and adds
    after them records of source winget with no update flagged, whose
    names are not empty, are not "Unknown", are new and are distinct: a
    list with distinct names keeps distinct names.  Without a header line
    naming Name, Id and Version nothing is added. *)
Theorem parse_winget_output_appends_new_names output programs :
  extends_by winget_record name programs (_parse_winget_output output programs)
  ∧ (NoDup (name <$> programs) →
     NoDup (name <$> _parse_winget_output output programs))
  ∧ ((∀ line, line ∈ split_char newline output →
        is_winget_header (strip line) = false) →
     _parse_winget_output output programs = programs).
Proof.
  pose proof (parse_winget_extends output programs) as Hext.
  split; [done|]. split; [by eapply extends_by_nodup|].
  intros Hno. unfold _parse_winget_output.
  by rewrite parse_winget_fold_no_header.
Qed.

(** *** [reg query] *)

Lemma is_valid_program_true (program_data : gmap string string) :
  _is_valid_program program_data = true →
  ∃ n, program_data !! "name" = Some n ∧ n ≠ EmptyString
       ∧ ∀ keyword, keyword ∈ skip_keywords → contains keyword (lower n) = false.
Proof.
  unfold _is_valid_program.
  destruct (program_data !! "name") as [n|]; [|done].
  destruct (is_empty n) eqn:Hempty; [done|].
  intros Hvalid%negb_true_iff. exists n. split; [done|]. split.
  - intros ->. done.
  - intros keyword Hk. destruct (contains keyword (lower n)) eqn:Hc; [|done].
    assert (existsb (fun kw => contains kw (lower n)) skip_keywords = true) as Ht.
    { apply existsb_exists. exists keyword. split; [by apply list_elem_of_In|done]. }
    congruence.
Qed.

Lemma save_if_valid_extends current programs :
  extends_by registry_record name programs (save_if_valid current programs).
Proof.
  unfold save_if_valid.
  destruct (negb (bool_decide (current = ∅))); [|apply extends_by_refl].
  destruct (_is_valid_program current) eqn:Hvalid; [|apply extends_by_refl].
  simpl. destruct (is_valid_program_true _ Hvalid) as (n & Hn & Hne & Hkw).
  unfold _add_registry_program. rewrite Hn. simpl.
  destruct (existsb _ programs) eqn:Hex; [apply extends_by_refl|].
  apply extends_by_snoc; [|by apply existsb_id_false].
  by repeat split.
Qed.

Lemma registry_line_extends st raw :
  extends_by registry_record name st.2 (registry_line st raw).2.
Proof.
  destruct st as [current programs]. unfold registry_line.
  destruct (is_empty (strip raw)); [apply extends_by_refl|].
  destruct (startswith "HKEY_" (strip raw)); [apply save_if_valid_extends|].
  destruct (_ || _); [|apply extends_by_refl].
  destruct (re_split_ws 2 false (strip raw)) as [|v0 [|v1 [|v2 rest]]];
    try apply extends_by_refl.
  repeat (destruct (String.eqb v0 _); [apply extends_by_refl|]).
  apply extends_by_refl.
Qed.

Lemma parse_registry_fold_extends lines st :
  extends_by registry_record name st.2 (fold_left registry_line lines st).2.
Proof.
  revert st. induction lines as [|raw lines IH]; intros st.
  - apply extends_by_refl.
  - simpl. eapply extends_by_trans; [apply registry_line_extends|apply IH].
Qed.

Lemma parse_registry_extends output programs :
  extends_by registry_record name programs (_parse_registry_output output programs).
Proof.
  unfold _parse_registry_output.
  destruct (is_empty output); [apply extends_by_refl|].
  pose proof (parse_registry_fold_extends (split_char newline output)
                (∅, programs)) as Hfold.
  destruct (fold_left registry_line (split_char newline output) (∅, programs))
    as [current programs'].
  eapply extends_by_trans; [exact Hfold|apply save_if_valid_extends].
Qed.

(** X5.  [_parse_registry_output] keeps the programs it is given and
    adds after them records of source registry, without package id and
    with no update flagged, whose names are new, distinct, not empty and
    hold none of the skip keywords (hotfix, runtime, ...) whatever the
    case of their letters. *)
Theorem parse_registry_output_appends_valid_names output programs :
  extends_by registry_record name programs (_parse_registry_output output programs)
  ∧ (NoDup (name <$> programs) →
     NoDup (name <$> _parse_registry_output output programs)).
Proof.
  pose proof (parse_registry_extends output programs) as Hext.
  split; [done|by eapply extends_by_nodup].
Qed.

(** *** [choco list] *)

Lemma chocolatey_line_extends programs raw :
  extends_by chocolatey_record package_id programs (chocolatey_line programs raw).
Proof.
  unfold chocolatey_line.
  destruct (_ || _); [apply extends_by_refl|].
  destruct (split_char " " (strip raw)) as [|n [|version_str rest]];
    try apply extends_by_refl.
  destruct (existsb _ programs) eqn:Hex; [apply extends_by_refl|].
  apply extends_by_snoc; [by repeat split|by apply existsb_id_false].
Qed.

Lemma parse_chocolatey_extends output programs :
  extends_by chocolatey_record package_id programs
    (_parse_chocolatey_output output programs).
Proof.
  unfold _parse_chocolatey_output. revert programs.
  induction (split_char newline output) as [|raw lines IH]; intros programs.
  - apply extends_by_refl.
  - simpl. eapply extends_by_trans; [apply chocolatey_line_extends|apply IH].
Qed.

(** X6.  [_parse_chocolatey_output] keeps the programs it is given and
    adds after them records of source chocolatey with no update flagged,
    named after their package id (dashes to spaces, title case), whose
    package ids are new and distinct. *)
Theorem parse_chocolatey_output_appends_new_ids output programs :
  extends_by chocolatey_record package_id programs
    (_parse_chocolatey_output output programs).
Proof. apply parse_chocolatey_extends. Qed.

End Parsers.

(** ** The whole scan *)

Section ScanPipeline.

Variable tool : tool_oracle.

Lemma winget_record_scanned a : winget_record a → scanned_record a.
Proof. intros (Hs & _ & _ & _ & _ & Hu & Hv). split; [by left|done]. Qed.

Lemma registry_record_scanned a : registry_record a → scanned_record a.
Proof. intros (Hs & _ & _ & _ & Hu & Hv). split; [right; by left|done]. Qed.

Lemma chocolatey_record_scanned a : chocolatey_record a → scanned_record a.
Proof. intros (Hs & _ & _ & _ & Hu & Hv). split; [right; by right|done]. Qed.

Lemma scan_winget_keeps programs tr :
  Forall scanned_record programs →
  ∃ programs' tr',
    _scan_winget tool programs tr = (inr programs', tr')
    ∧ Forall scanned_record programs'.
Proof.
  intros Hold. unfold _scan_winget, try_except, bind, subprocess_run.
  destruct (tool tr winget_list_cmd) as [[?|?|?]|r]; simpl; eauto.
  destruct (returncode r =? 0); simpl; eauto.
  eexists _, _. split; [done|].
  eapply extends_by_forall; [apply winget_record_scanned| |done].
  apply parse_winget_extends.
Qed.

Lemma scan_registry_path_keeps programs path tr :
  Forall scanned_record programs →
  ∃ programs' tr',
    scan_registry_path tool programs path tr = (inr programs', tr')
    ∧ Forall scanned_record programs'.
Proof.
  intros Hold. unfold scan_registry_path, try_except, bind, subprocess_run.
  destruct (tool tr (reg_query_cmd path)) as [[?|?|?]|r]; simpl; eauto.
  destruct (_ && _); simpl; eauto.
  eexists _, _. split; [done|].
  eapply extends_by_forall; [apply registry_record_scanned| |done].
  apply parse_registry_extends.
Qed.

Lemma scan_registry_keeps programs tr :
  Forall scanned_record programs →
  ∃ programs' tr',
    _scan_registry tool programs tr = (inr programs', tr')
    ∧ Forall scanned_record programs'.
Proof.
  intros Hold. unfold _scan_registry, try_except, registry_paths, for_each, bind.
  destruct (scan_registry_path_keeps programs
              "HKLM\SOFTWARE\Microsoft\Windows\CurrentVersion\Uninstall" tr Hold)
    as (ps1 & tr1 & -> & H1).
  destruct (scan_registry_path_keeps ps1
              "HKLM\SOFTWARE\WOW6432Node\Microsoft\Windows\CurrentVersion\Uninstall"
              tr1 H1)
    as (ps2 & tr2 & -> & H2).
  by exists ps2, tr2.
Qed.

Lemma scan_chocolatey_keeps programs tr :
  Forall scanned_record programs →
  ∃ programs' tr',
    _scan_chocolatey tool programs tr = (inr programs', tr')
    ∧ Forall scanned_record programs'.
Proof.
  intros Hold. unfold _scan_chocolatey, try_except, bind, subprocess_run.
  destruct (tool tr choco_list_cmd) as [[?|?|?]|r]; simpl; eauto.
  destruct (returncode r =? 0); simpl; eauto.
  eexists _, _. split; [done|].
  eapply extends_by_forall; [apply chocolatey_record_scanned| |done].
  apply parse_chocolatey_extends.
Qed.

Lemma deduplicate_subset l p : p ∈ _deduplicate_programs l → p ∈ l.
Proof.
  rewrite deduplicate_as_keep_first. intros Hin.
  rewrite <- (sort_by_priority_perm l).
  by apply (sublist_subseteq _ _ (keep_first_sublist ∅ (sort_by_priority l))).
Qed.

(** X7.  Whatever the tools answer, [scan_installed_programs] returns an
    inventory with at most one record per identity key, in the order of
    the ranks of the sources, in which every record comes from winget,
    the registry or chocolatey and has no update flagged. *)
Theorem scan_installed_programs_inventory tr :
  ∃ inventory tr',
    scan_installed_programs tool tr = (inr inventory, tr')
    ∧ NoDup (key <$> inventory)
    ∧ StronglySorted by_rank inventory
    ∧ Forall scanned_record inventory.
Proof.
  unfold scan_installed_programs, bind.
  destruct (scan_winget_keeps [] tr) as (ps1 & tr1 & -> & H1); [constructor|].
  destruct (scan_registry_keeps ps1 tr1 H1) as (ps2 & tr2 & -> & H2).
  destruct (scan_chocolatey_keeps ps2 tr2 H2) as (ps3 & tr3 & -> & H3).
  exists (_deduplicate_programs ps3), tr3. split; [done|].
  split; [|split].
  - rewrite deduplicate_as_keep_first. apply keep_first_keys.
  - apply deduplicate_sorted.
  - apply Forall_forall. intros p Hp%deduplicate_subset.
    rewrite Forall_forall in H3. by apply H3.
Qed.

End ScanPipeline.

(** ** The configuration tree *)

Section ConfigTree.

Import ConfigManager.

Lemma dict_get_set_eq key v items : dict_get key (dict_set key v items) = Some v.
Proof.
  induction items as [|[k w] items IH]; simpl.
  - by rewrite String.eqb_refl.
  - destruct (String.eqb k key) eqn:Hk; simpl; by rewrite Hk.
Qed.

Lemma dict_get_set_ne key key' v items :
  key ≠ key' → dict_get key' (dict_set key v items) = dict_get key' items.
Proof.
  intros Hne. induction items as [|[k w] items IH]; simpl.
  - by rewrite (proj2 (String.eqb_neq _ _) Hne).
  - destruct (String.eqb k key) eqn:Hk; simpl.
    + apply String.eqb_eq in Hk as ->.
      by rewrite (proj2 (String.eqb_neq _ _) Hne).
    + by rewrite IH.
Qed.

Lemma dict_set_get_id key v items :
  dict_get key items = Some v → dict_set key v items = items.
Proof.
  induction items as [|[k w] items IH]; simpl; [done|].
  destruct (String.eqb k key); [by intros [= ->]|].
  intros Hget. by rewrite IH.
Qed.

Lemma split_char_not_nil sep s : split_char sep s ≠ [].
Proof.
  destruct s as [|c s]; simpl; [done|].
  destruct (Ascii.eqb c sep); [done|].
  unfold cons_head. by destruct (split_char sep s).
Qed.

Lemma split_char_last sep s :
  split_char sep s
  = removelast (split_char sep s) ++ [List.last (split_char sep s) EmptyString].
Proof. apply app_removelast_last, split_char_not_nil. Qed.

Lemma set_walk_read keys final v config config' :
  set_walk keys final v config = (config', true) →
  walk (keys ++ [final]) config' = Some v.
Proof.
  revert config config'.
  induction keys as [|key rest IH]; intros config config' Hset; simpl in *.
  - destruct config; try done. inversion Hset; subst. simpl.
    by rewrite dict_get_set_eq.
  - destruct config as [items| | | | |]; try done.
    destruct (dict_get key
                match dict_get key items with
                | Some _ => items
                | None => dict_set key (VDict []) items
                end) as [child|]; [|done].
    destruct (set_walk rest final v child) as [child' reached] eqn:Hrec.
    inversion Hset; subst. simpl. rewrite dict_get_set_eq. by eapply IH.
Qed.

Lemma set_walk_fresh keys final v :
  snd (set_walk keys final v (VDict [])) = true.
Proof.
  induction keys as [|key rest IH]; simpl; [done|].
  rewrite String.eqb_refl.
  by destruct (set_walk rest final v (VDict [])) as [child' reached].
Qed.

Lemma set_walk_failed keys final v config config' :
  set_walk keys final v config = (config', false) →
  config' = config ∧ walk (keys ++ [final]) config = None.
Proof.
  revert config config'.
  induction keys as [|key rest IH]; intros config config' Hset; simpl in *.
  - destruct config; inversion Hset; by subst.
  - destruct config as [items| | | | |]; try (inversion Hset; by subst).
    destruct (dict_get key items) as [child|] eqn:Hget.
    + rewrite Hget in Hset.
      destruct (set_walk rest final v child) as [child' reached] eqn:Hrec.
      inversion Hset; subst.
      destruct (IH _ _ Hrec) as [-> Hwalk].
      split; [by rewrite dict_set_get_id|].
      unfold subscript. by rewrite Hget.
    + rewrite dict_get_set_eq in Hset.
      pose proof (set_walk_fresh rest final v) as Hfresh.
      destruct (set_walk rest final v (VDict [])) as [child' reached].
      simpl in Hfresh. inversion Hset; subst. done.
Qed.

Lemma set_walk_frame keys final v config key' rest' :
  hd final keys ≠ key' →
  walk (key' :: rest') (fst (set_walk keys final v config))
  = walk (key' :: rest') config.
Proof.
  intros Hne. destruct keys as [|key rest]; simpl in *.
  - destruct config; try done. simpl. by rewrite dict_get_set_ne.
  - destruct config as [items| | | | |]; try done.
    destruct (dict_get key items) as [child|] eqn:Hget.
    + rewrite Hget.
      destruct (set_walk rest final v child) as [child' reached].
      simpl. by rewrite dict_get_set_ne.
    + rewrite dict_get_set_eq.
      destruct (set_walk rest final v (VDict [])) as [child' reached].
      simpl. by rewrite !dict_get_set_ne.
Qed.

Lemma hd_removelast (l : list string) d :
  l ≠ [] → hd (List.last l d) (removelast l) = hd d l.
Proof. destruct l as [|x [|y l]]; done. Qed.

(** X8.  What [set] has stored under a key path, [get] reads back under
    that path; and on an empty configuration every [set] succeeds. *)
Theorem config_get_after_set config key_path v default :
  snd (set config key_path v) = true →
  get (fst (set config key_path v)) key_path default = v
  ∧ snd (set (VDict []) key_path v) = true.
Proof.
  intros Hok. split; [|apply set_walk_fresh].
  unfold get, set in *.
  destruct (set_walk _ _ v config) as [config' reached] eqn:Hset.
  simpl in *. subst reached.
  rewrite (split_char_last "." key_path).
  by rewrite (set_walk_read _ _ _ _ _ Hset).
Qed.

(** X9.  A [set] that fails (a value that is not a dict lies on the key
    path) leaves the configuration as it was, and [get] on that path
    yields the default. *)
Theorem config_set_failure_changes_nothing config key_path v default :
  snd (set config key_path v) = false →
  fst (set config key_path v) = config
  ∧ get config key_path default = default.
Proof.
  intros Hfail. unfold get, set in *.
  destruct (set_walk _ _ v config) as [config' reached] eqn:Hset.
  simpl in *. subst reached.
  destruct (set_walk_failed _ _ _ _ _ Hset) as [-> Hwalk].
  split; [done|].
  by rewrite (split_char_last "." key_path), Hwalk.
Qed.

(** X10.  A [set] under a key path leaves alone every key path that
    starts with another key: [get] reads there what it read before. *)
Theorem config_set_keeps_other_keys config key_path v other default :
  hd EmptyString (split_char "." key_path) ≠ hd EmptyString (split_char "." other) →
  get (fst (set config key_path v)) other default = get config other default.
Proof.
  intros Hne. unfold get, set.
  destruct (split_char "." other) as [|key' rest'] eqn:Hother.
  { by apply split_char_not_nil in Hother. }
  rewrite set_walk_frame; [done|].
  simpl in Hne. intros Heq. apply Hne. rewrite <- Heq.
  symmetry. apply hd_removelast, split_char_not_nil.
Qed.

End ConfigTree.

Lemma config_get_after_set_witness :
  snd (ConfigManager.set (VDict [("general", VDict [("create_backups", VBool true)])])
         "update_behavior.max_concurrent_updates" (VNum 5)) = true
  ∧ ConfigManager.get
      (fst (ConfigManager.set
              (VDict [("general", VDict [("create_backups", VBool true)])])
              "update_behavior.max_concurrent_updates" (VNum 5)))
      "update_behavior.max_concurrent_updates" (VNum 3) = VNum 5.
Proof.
  split; [reflexivity|].
  apply (config_get_after_set
           (VDict [("general", VDict [("create_backups", VBool true)])])
           "update_behavior.max_concurrent_updates" (VNum 5) (VNum 3)).
  reflexivity.
Defined.

Lemma config_set_failure_changes_nothing_witness :
  snd (ConfigManager.set (VDict [("general", VNum 7)])
         "general.create_backups" (VBool false)) = false
  ∧ fst (ConfigManager.set (VDict [("general", VNum 7)])
           "general.create_backups" (VBool false))
    = VDict [("general", VNum 7)].
Proof.
  split; [reflexivity|].
  apply (config_set_failure_changes_nothing (VDict [("general", VNum 7)])
           "general.create_backups" (VBool false) VNone).
  reflexivity.
Defined.

Lemma config_set_keeps_other_keys_witness :
  hd EmptyString (split_char "." "update_behavior.download_only")
  ≠ hd EmptyString (split_char "." "general.create_backups")
  ∧ ConfigManager.get
      (fst (ConfigManager.set
              (VDict [("general", VDict [("create_backups", VBool true)])])
              "update_behavior.download_only" (VBool true)))
      "general.create_backups" VNone
    = ConfigManager.get
        (VDict [("general", VDict [("create_backups", VBool true)])])
        "general.create_backups" VNone.
Proof.
  split; [discriminate|].
  apply (config_set_keeps_other_keys
           (VDict [("general", VDict [("create_backups", VBool true)])])
           "update_behavior.download_only" (VBool true)
           "general.create_backups" VNone).
  discriminate.
Defined.

(** ** The exclusion filter *)

Section Exclusion.

Lemma lower_char_idempotent c : lower_char (lower_char c) = lower_char c.
Proof. destruct c as [[] [] [] [] [] [] [] []]; reflexivity. Qed.

Lemma lower_idempotent s : lower (lower s) = lower s.
Proof.
  unfold lower. induction s as [|c s IH]; simpl; [done|].
  by rewrite lower_char_idempotent, IH.
Qed.

Lemma is_empty_lower s : is_empty (lower s) = is_empty s.
Proof. by destruct s. Qed.

(** X11.  The exclusion filter does not look at the case of the letters
    of a program name or of a publisher: two names, and two publishers,
    that are equal once lowercased get the same verdict. *)
Theorem exclusion_ignores_case cfg n n' pub pub' :
  lower n = lower n' → lower pub = lower pub' →
  is_program_excluded cfg n pub = is_program_excluded cfg n' pub'.
Proof.
  intros Hn Hpub. unfold is_program_excluded.
  rewrite Hn, Hpub.
  by rewrite <- (is_empty_lower pub), <- (is_empty_lower pub'), Hpub.
Qed.

End Exclusion.

Lemma exclusion_ignores_case_witness :
  lower "MICROSOFT EDGE WEBVIEW2" = lower "Microsoft Edge WebView2"
  ∧ lower "ACME" = lower "Acme"
  ∧ is_program_excluded default_config "MICROSOFT EDGE WEBVIEW2" "ACME"
    = is_program_excluded default_config "Microsoft Edge WebView2" "Acme".
Proof.
  split; [reflexivity|]. split; [reflexivity|].
  apply (exclusion_ignores_case default_config); reflexivity.
Defined.

(** ** The update checker as a whole *)

Section CheckerWhole.

Variable cfg : Config.
Variable tool : tool_oracle.
Variable lib : VersionLib.
Variable re_search_package : string → string → re_result.

Lemma checked_refl p : checked p p.
Proof. by left. Qed.

Lemma checked_mark p v : checked p (mark_update p v).
Proof. right. by exists v. Qed.

Lemma checked_same p p' : checked p p' → same_program_flag_kept p p'.
Proof. intros [->|[v ->]]; by repeat split. Qed.

Lemma check_ok_ret p : check_ok p (ret p).
Proof.
  intros tr. exists p, []. simpl. rewrite app_nil_r.
  split; [done|]. split; [apply checked_refl|lia].
Qed.

Ltac one_run p' cmd :=
  exists p', [cmd]; split; [done|]; split;
  [first [apply checked_refl|apply checked_mark]|simpl; lia].

Lemma check_winget_ok p : check_ok p (_check_winget_updates tool p).
Proof.
  intros tr. unfold _check_winget_updates, try_except, bind, subprocess_run.
  destruct (is_empty (package_id p)); [apply check_ok_ret|].
  destruct (tool tr _) as [[?|?|?]|r]; simpl;
    try (one_run p (winget_upgrade_check_cmd (package_id p))).
  destruct (_ || _); [|one_run p (winget_upgrade_check_cmd (package_id p))].
  destruct (re_search_version three_groups_tail (stdout r)) as [v|].
  - one_run (mark_update p v) (winget_upgrade_check_cmd (package_id p)).
  - one_run (mark_update p "Unknown") (winget_upgrade_check_cmd (package_id p)).
Qed.

Lemma check_chocolatey_ok p :
  check_ok p (_check_chocolatey_updates tool re_search_package p).
Proof.
  intros tr. unfold _check_chocolatey_updates, try_except, bind, subprocess_run.
  destruct (is_empty (package_id p)); [apply check_ok_ret|].
  destruct (tool tr _) as [[?|?|?]|r]; simpl;
    try (one_run p (choco_upgrade_check_cmd (package_id p))).
  destruct (contains _ _); [|one_run p (choco_upgrade_check_cmd (package_id p))].
  destruct (re_search_package (package_id p) (stdout r)) as [| |v]; simpl.
  - one_run p (choco_upgrade_check_cmd (package_id p)).
  - one_run (mark_update p "Unknown") (choco_upgrade_check_cmd (package_id p)).
  - one_run (mark_update p v) (choco_upgrade_check_cmd (package_id p)).
Qed.

Lemma compare_and_mark_checked p candidate :
  checked p (compare_and_mark lib p candidate).
Proof.
  destruct (compare_and_mark_cases lib p candidate)
    as [->|(w & c & a & _ & _ & _ & _ & ->)];
    [apply checked_refl|apply checked_mark].
Qed.

Lemma check_via_search_ok package pat p :
  check_ok p (check_via_search tool lib package pat p).
Proof.
  intros tr. unfold check_via_search, try_except, bind, subprocess_run.
  destruct (tool tr _) as [e|r]; simpl; [one_run p (winget_search_cmd package)|].
  destruct (returncode r =? 0); [|one_run p (winget_search_cmd package)].
  destruct (re_search_after package pat (stdout r)) as [candidate|];
    [|one_run p (winget_search_cmd package)].
  exists (compare_and_mark lib p candidate), [winget_search_cmd package].
  split; [done|]. split; [apply compare_and_mark_checked|simpl; lia].
Qed.

Lemma try_except_transparent {A} (m : M A) handler tr a tr' :
  m tr = (inr a, tr') → try_except m handler tr = (inr a, tr').
Proof. unfold try_except. by intros ->. Qed.

Lemma run_custom_checkers_ok checkers p :
  Forall (fun nc => check_ok p (nc.2 p)) checkers →
  check_ok p (run_custom_checkers checkers p).
Proof.
  induction 1 as [|[n checker] checkers Hc Hrest IH]; simpl.
  - apply check_ok_ret.
  - destruct (contains n (lower (name p))); [|done].
    intros tr. destruct (Hc tr) as (p' & cmds & Hrun & Hchk & Hlen).
    exists p', cmds. split; [|done].
    by apply try_except_transparent.
Qed.

Lemma custom_checkers_ok p :
  Forall (fun nc => check_ok p (nc.2 p)) (custom_checkers tool lib).
Proof. repeat constructor; apply check_via_search_ok. Qed.

Lemma check_custom_ok p : check_ok p (_check_custom_updates tool lib p).
Proof. apply run_custom_checkers_ok, custom_checkers_ok. Qed.

Lemma kept_cons_excluded p programs :
  is_program_excluded cfg (name p) (publisher p) = true →
  kept cfg (p :: programs) = kept cfg programs.
Proof.
  intros Hex. unfold kept. rewrite filter_cons.
  rewrite decide_False; [done|congruence].
Qed.

Lemma kept_cons_kept p programs :
  is_program_excluded cfg (name p) (publisher p) = false →
  kept cfg (p :: programs) = p :: kept cfg programs.
Proof.
  intros Hex. unfold kept. rewrite filter_cons. by rewrite decide_True.
Qed.

(** The dispatch of [check_for_updates] on the source of the program. *)
Lemma dispatch_ok p :
  check_ok p
    (if String.eqb (source p) "winget" && winget_enabled cfg
     then _check_winget_updates tool p
     else if String.eqb (source p) "chocolatey" && chocolatey_enabled cfg
     then _check_chocolatey_updates tool re_search_package p
     else if custom_enabled cfg
     then _check_custom_updates tool lib p
     else ret p).
Proof.
  destruct (_ && _); [apply check_winget_ok|].
  destruct (_ && _); [apply check_chocolatey_ok|].
  destruct (custom_enabled cfg); [apply check_custom_ok|apply check_ok_ret].
Qed.

Lemma check_for_updates_fold programs acc tr :
  ∃ result cmds,
    for_each programs (check_one cfg tool lib re_search_package) acc tr
    = (inr (acc ++ result), tr ++ map Run cmds)
    ∧ Forall2 checked (kept cfg programs) result
    ∧ (length cmds ≤ length result)%nat.
Proof.
  revert acc tr. induction programs as [|p programs IH]; intros acc tr.
  - exists [], []. simpl. rewrite !app_nil_r. split; [done|].
    split; [constructor|done].
  - simpl. unfold bind at 1. unfold check_one at 1.
    destruct (is_program_excluded cfg (name p) (publisher p)) eqn:Hex.
    + unfold ret at 1. rewrite kept_cons_excluded by done. apply IH.
    + unfold bind at 1.
      destruct (dispatch_ok p tr) as (p' & cmds1 & -> & Hchk & Hlen1).
      unfold ret at 1.
      destruct (IH (acc ++ [p']) (tr ++ map Run cmds1))
        as (result & cmds2 & -> & Hall & Hlen2).
      exists (p' :: result), (cmds1 ++ cmds2).
      rewrite kept_cons_kept by done.
      split; [|split].
      * by rewrite <- !app_assoc, map_app.
      * by constructor.
      * rewrite length_app. simpl. lia.
Qed.

(** X12.  [check_for_updates] never raises.  It returns, in their order,
    the programs the exclusion filter lets through, each either untouched
    or flagged with a version: name, version, publisher, location, source
    and package id are never written, and a flag that was set stays set. *)
Theorem check_for_updates_returns_kept_programs programs tr :
  ∃ result tr',
    check_for_updates cfg tool lib re_search_package programs tr
    = (inr result, tr')
    ∧ Forall2 checked (kept cfg programs) result
    ∧ Forall2 same_program_flag_kept (kept cfg programs) result
    ∧ length result = length (kept cfg programs).
Proof.
  destruct (check_for_updates_fold programs [] tr)
    as (result & cmds & Hrun & Hall & _).
  exists result, (tr ++ map Run cmds). split; [exact Hrun|].
  split; [done|]. split.
  - eapply Forall2_impl; [exact Hall|]. apply checked_same.
  - symmetry. by eapply Forall2_length.
Qed.

(** X13.  The only effect of [check_for_updates] is to run commands:
    at most one for each program it returns, and so none for the programs
    the exclusion filter holds back. *)
Theorem check_for_updates_runs_at_most_one_command_each programs tr :
  ∃ result cmds,
    check_for_updates cfg tool lib re_search_package programs tr
    = (inr result, tr ++ map Run cmds)
    ∧ (length cmds ≤ length (kept cfg programs))%nat
    ∧ (kept cfg programs = [] → result = [] ∧ cmds = []).
Proof.
  destruct (check_for_updates_fold programs [] tr)
    as (result & cmds & Hrun & Hall & Hlen).
  exists result, cmds. split; [exact Hrun|].
  pose proof (Forall2_length _ _ _ Hall) as Hl.
  split; [lia|]. intros Hnil. rewrite Hnil in Hl. simpl in Hl.
  destruct result; [|done]. split; [done|]. destruct cmds; [done|simpl in *; lia].
Qed.

(** *** No tool, or no source *)

Lemma check_winget_raising p tr :
  (∀ tr0 cmd, ∃ e, tool tr0 cmd = inl e) →
  fst (_check_winget_updates tool p tr) = inr p.
Proof.
  intros Hraise. unfold _check_winget_updates, try_except, bind, subprocess_run.
  destruct (is_empty (package_id p)); [done|].
  destruct (Hraise tr (winget_upgrade_check_cmd (package_id p))) as [e ->].
  by destruct e.
Qed.

Lemma check_chocolatey_raising p tr :
  (∀ tr0 cmd, ∃ e, tool tr0 cmd = inl e) →
  fst (_check_chocolatey_updates tool re_search_package p tr) = inr p.
Proof.
  intros Hraise. unfold _check_chocolatey_updates, try_except, bind, subprocess_run.
  destruct (is_empty (package_id p)); [done|].
  destruct (Hraise tr (choco_upgrade_check_cmd (package_id p))) as [e ->].
  by destruct e.
Qed.

Lemma check_via_search_raising package pat p tr :
  (∀ tr0 cmd, ∃ e, tool tr0 cmd = inl e) →
  fst (check_via_search tool lib package pat p tr) = inr p.
Proof.
  intros Hraise. unfold check_via_search, try_except, bind, subprocess_run.
  by destruct (Hraise tr (winget_search_cmd package)) as [e ->].
Qed.

Lemma run_custom_checkers_unchanged checkers p tr :
  Forall (fun nc => check_ok p (nc.2 p) ∧ ∀ tr0, fst (nc.2 p tr0) = inr p)
         checkers →
  fst (run_custom_checkers checkers p tr) = inr p.
Proof.
  induction 1 as [|[n checker] checkers [Hok Hsame] Hrest IH]; simpl; [done|].
  destruct (contains n (lower (name p))); [|done].
  destruct (Hok tr) as (p' & cmds & Hrun & _).
  rewrite (try_except_transparent _ _ _ _ _ Hrun).
  specialize (Hsame tr). by rewrite Hrun in Hsame.
Qed.

Lemma check_custom_raising p tr :
  (∀ tr0 cmd, ∃ e, tool tr0 cmd = inl e) →
  fst (_check_custom_updates tool lib p tr) = inr p.
Proof.
  intros Hraise. apply run_custom_checkers_unchanged.
  repeat constructor; try apply check_via_search_ok;
    intros tr0; by apply check_via_search_raising.
Qed.

Lemma check_for_updates_fold_unchanged programs acc tr :
  (∀ p tr0,
     fst ((if String.eqb (source p) "winget" && winget_enabled cfg
           then _check_winget_updates tool p
           else if String.eqb (source p) "chocolatey" && chocolatey_enabled cfg
           then _check_chocolatey_updates tool re_search_package p
           else if custom_enabled cfg
           then _check_custom_updates tool lib p
           else ret p) tr0) = inr p) →
  fst (for_each programs (check_one cfg tool lib re_search_package) acc tr)
  = inr (acc ++ kept cfg programs).
Proof.
  intros Hsame. revert acc tr.
  induction programs as [|p programs IH]; intros acc tr.
  - simpl. by rewrite app_nil_r.
  - simpl. unfold bind at 1. unfold check_one at 1.
    destruct (is_program_excluded cfg (name p) (publisher p)) eqn:Hex.
    + unfold ret at 1. rewrite kept_cons_excluded by done. apply IH.
    + unfold bind at 1. specialize (Hsame p tr).
      destruct (dispatch_ok p tr) as (p' & cmds1 & Hrun & _).
      rewrite Hrun in Hsame |- *. simpl in Hsame. inversion Hsame; subst p'.
      unfold ret at 1. rewrite IH. rewrite kept_cons_kept by done.
      by rewrite <- app_assoc.
Qed.

(** X14.  When every call of a tool raises (no tool is installed, or
    each one times out), [check_for_updates] returns the programs the
    exclusion filter lets through exactly as they were given. *)
Theorem check_for_updates_without_tools programs tr :
  (∀ tr0 cmd, ∃ e, tool tr0 cmd = inl e) →
  fst (check_for_updates cfg tool lib re_search_package programs tr)
  = inr (kept cfg programs).
Proof.
  intros Hraise. unfold check_for_updates.
  rewrite check_for_updates_fold_unchanged; [done|].
  intros p tr0.
  destruct (_ && _); [by apply check_winget_raising|].
  destruct (_ && _); [by apply check_chocolatey_raising|].
  destruct (custom_enabled cfg); [by apply check_custom_raising|done].
Qed.

End CheckerWhole.

Lemma check_for_updates_without_tools_witness :
  (∀ tr0 cmd, ∃ e, no_tools tr0 cmd = inl e)
  ∧ fst (check_for_updates default_config no_tools ReleaseVersion.lib
           no_package_match five_programs [])
    = inr (kept default_config five_programs).
Proof.
  split; [intros; by eexists|].
  apply (check_for_updates_without_tools default_config no_tools
           ReleaseVersion.lib no_package_match five_programs []).
  intros; by eexists.
Defined.

Section CheckerDispatch.

Variable cfg : Config.
Variable tool : tool_oracle.
Variable lib : VersionLib.
Variable re_search_package : string → string → re_result.

Lemma check_for_updates_fold_disabled programs acc tr :
  winget_enabled cfg = false → chocolatey_enabled cfg = false →
  custom_enabled cfg = false →
  for_each programs (check_one cfg tool lib re_search_package) acc tr
  = (inr (acc ++ kept cfg programs), tr).
Proof.
  intros Hw Hc Hcu. revert acc.
  induction programs as [|p programs IH]; intros acc.
  - simpl. by rewrite app_nil_r.
  - simpl. unfold bind at 1. unfold check_one at 1.
    destruct (is_program_excluded cfg (name p) (publisher p)) eqn:Hex.
    + unfold ret at 1. rewrite kept_cons_excluded by done. apply IH.
    + rewrite Hw, Hc, Hcu, !andb_false_r. unfold bind at 1, ret at 1 2.
      rewrite IH, kept_cons_kept by done. by rewrite <- app_assoc.
Qed.

(** X15.  With the three update sources disabled in the configuration,
    [check_for_updates] runs no tool and returns the programs the
    exclusion filter lets through exactly as they were given. *)
Theorem check_for_updates_sources_disabled programs tr :
  winget_enabled cfg = false → chocolatey_enabled cfg = false →
  custom_enabled cfg = false →
  check_for_updates cfg tool lib re_search_package programs tr
  = (inr (kept cfg programs), tr).
Proof.
  intros Hw Hc Hcu. unfold check_for_updates.
  by rewrite check_for_updates_fold_disabled.
Qed.

Lemma try_except_search package pat p handler tr :
  try_except (check_via_search tool lib package pat p) handler tr
  = check_via_search tool lib package pat p tr.
Proof.
  destruct (check_via_search_ok tool lib package pat p tr)
    as (p' & cmds & Hrun & _).
  rewrite Hrun. by apply try_except_transparent.
Qed.

(** X16.  [_check_custom_updates] runs the checker of the first of
    "chrome", "firefox", "vlc", "notepad++" that occurs in the lowercased
    name of the program, and only that one; a program whose name holds
    none of them is returned as it is and no tool is run. *)
Theorem custom_check_first_match_wins p tr :
  let n := lower (name p) in
  (contains "chrome" n = true →
   _check_custom_updates tool lib p tr = _check_chrome_update tool lib p tr)
  ∧ (contains "chrome" n = false → contains "firefox" n = true →
     _check_custom_updates tool lib p tr = _check_firefox_update tool lib p tr)
  ∧ (contains "chrome" n = false → contains "firefox" n = false →
     contains "vlc" n = true →
     _check_custom_updates tool lib p tr = _check_vlc_update tool lib p tr)
  ∧ (contains "chrome" n = false → contains "firefox" n = false →
     contains "vlc" n = false → contains "notepad++" n = true →
     _check_custom_updates tool lib p tr = _check_notepadpp_update tool lib p tr)
  ∧ (contains "chrome" n = false → contains "firefox" n = false →
     contains "vlc" n = false → contains "notepad++" n = false →
     _check_custom_updates tool lib p tr = (inr p, tr)).
Proof.
  intros n. unfold _check_custom_updates, custom_checkers, run_custom_checkers.
  fold n. unfold _check_chrome_update, _check_firefox_update,
    _check_vlc_update, _check_notepadpp_update.
  repeat split.
  - intros ->. apply try_except_search.
  - intros -> ->. apply try_except_search.
  - intros -> -> ->. apply try_except_search.
  - intros -> -> -> ->. apply try_except_search.
  - by intros -> -> -> ->.
Qed.

End CheckerDispatch.

Lemma check_for_updates_sources_disabled_witness :
  winget_enabled sources_disabled = false
  ∧ check_for_updates sources_disabled (prints "1 upgrades available.")
      ReleaseVersion.lib no_package_match five_programs []
    = (inr (kept sources_disabled five_programs), []).
Proof.
  split; [reflexivity|].
  apply (check_for_updates_sources_disabled sources_disabled
           (prints "1 upgrades available.") ReleaseVersion.lib no_package_match
           five_programs []); reflexivity.
Defined.

(** ** One install *)

Section SingleInstall.

Variable cfg : Config.
Variable tool : tool_oracle.

Lemma install_without_command p tr :
  install_cmd cfg p = None →
  _install_single_update cfg tool p tr
  = (inr (failed_result p
            (if String.eqb (source p) "winget" || String.eqb (source p) "chocolatey"
             then "No package ID available"
             else "Custom update not implemented")), tr).
Proof.
  unfold install_cmd, _install_single_update, try_except, bind.
  destruct (String.eqb (source p) "winget").
  - unfold _install_winget_update, try_except.
    destruct (is_empty (package_id p)); [done|discriminate].
  - destruct (String.eqb (source p) "chocolatey"); [|done].
    unfold _install_chocolatey_update, try_except.
    destruct (is_empty (package_id p)); [done|discriminate].
Qed.

Lemma install_with_command p tr cmd :
  install_cmd cfg p = Some cmd →
  _install_single_update cfg tool p tr
  = (inr match tool tr cmd with
         | inr r => {| program := p; success := returncode r =? 0;
                       error_message := stderr r; output := stdout r |}
         | inl (TimeoutExpired _) => failed_result p "Update timed out"
         | inl e => failed_result p ("Exception: " +:+ exn_str e)
         end,
     tr ++ [Run cmd]).
Proof.
  unfold install_cmd, _install_single_update, try_except, bind.
  destruct (String.eqb (source p) "winget").
  - unfold _install_winget_update, try_except, bind, subprocess_run.
    destruct (is_empty (package_id p)); [discriminate|].
    intros [= <-]. by destruct (tool tr _) as [[?|?|?]|r].
  - destruct (String.eqb (source p) "chocolatey"); [|discriminate].
    unfold _install_chocolatey_update, try_except, bind, subprocess_run.
    destruct (is_empty (package_id p)); [discriminate|].
    intros [= <-]. by destruct (tool tr _) as [[?|?|?]|r].
Qed.

Lemma install_trace p tr :
  snd (_install_single_update cfg tool p tr)
  = tr ++ map Run (install_cmds cfg p).
Proof.
  unfold install_cmds. destruct (install_cmd cfg p) as [cmd|] eqn:Hcmd.
  - by rewrite (install_with_command p tr cmd Hcmd).
  - rewrite (install_without_command p tr Hcmd). simpl. by rewrite app_nil_r.
Qed.

(** X17.  A program that has no package id, or whose source is neither
    winget nor chocolatey, is never installed: the install runs no tool
    and yields a failed result, with the message "No package ID
    available" for a winget or chocolatey program and "Custom update not
    implemented" for any other source. *)
Theorem install_without_package_runs_nothing p tr :
  (source p ≠ "winget" → source p ≠ "chocolatey" →
   _install_single_update cfg tool p tr
   = (inr (failed_result p "Custom update not implemented"), tr))
  ∧ (source p = "winget" ∨ source p = "chocolatey" →
     package_id p = EmptyString →
     _install_single_update cfg tool p tr
     = (inr (failed_result p "No package ID available"), tr)).
Proof.
  split.
  - intros Hw Hc. rewrite install_without_command.
    + by rewrite (proj2 (String.eqb_neq _ _) Hw), (proj2 (String.eqb_neq _ _) Hc).
    + unfold install_cmd.
      by rewrite (proj2 (String.eqb_neq _ _) Hw), (proj2 (String.eqb_neq _ _) Hc).
  - intros Hsrc Hid. rewrite install_without_command.
    + destruct Hsrc as [-> | ->]; done.
    + unfold install_cmd. rewrite Hid.
      destruct Hsrc as [-> | ->]; done.
Qed.

(** X18.  The install of a winget or chocolatey program with a package
    id runs exactly one command, and its result mirrors the tool: it
    succeeds exactly when the tool ends with exit code 0, its output and
    error message are then the standard output and error of the tool; a
    timeout gives the message "Update timed out", any other exception a
    failure whose message starts with "Exception: ". *)
Theorem install_result_mirrors_tool p tr cmd :
  install_cmd cfg p = Some cmd →
  ∃ r,
    _install_single_update cfg tool p tr = (inr r, tr ++ [Run cmd])
    ∧ program r = p
    ∧ (success r = true ↔ ∃ done, tool tr cmd = inr done ∧ returncode done = 0)
    ∧ (∀ done, tool tr cmd = inr done →
         output r = stdout done ∧ error_message r = stderr done)
    ∧ (∀ msg, tool tr cmd = inl (TimeoutExpired msg) →
         error_message r = "Update timed out")
    ∧ (∀ msg, tool tr cmd = inl (FileNotFoundError msg) →
         error_message r = "Exception: " +:+ msg).
Proof.
  intros Hcmd. rewrite (install_with_command p tr cmd Hcmd).
  eexists. split; [reflexivity|].
  destruct (tool tr cmd) as [[msg|msg|msg]|done]; simpl.
  - split; [done|]. split; [split; [done|by intros [d [Hd _]]]|].
    split; [done|]. split; [done|]. by intros m [= ->].
  - split; [done|]. split; [split; [done|by intros [d [Hd _]]]|].
    by repeat split.
  - split; [done|]. split; [split; [done|by intros [d [Hd _]]]|].
    by repeat split.
  - split; [done|]. split; [split|].
    + intros Hrc%Z.eqb_eq. by exists done.
    + intros [d [[= <-] Hrc]]. by apply Z.eqb_eq.
    + split; [|by split]. by intros d [= <-].
Qed.

End SingleInstall.

Lemma install_result_mirrors_tool_witness :
  install_cmd default_config (updatable "Alpha" "winget" "Vendor.Alpha")
  = Some (winget_upgrade_cmd default_config "Vendor.Alpha")
  ∧ ∃ r,
      _install_single_update default_config only_winget
        (updatable "Alpha" "winget" "Vendor.Alpha") []
      = (inr r, [Run (winget_upgrade_cmd default_config "Vendor.Alpha")])
      ∧ success r = true.
Proof.
  split; [reflexivity|].
  destruct (install_result_mirrors_tool default_config only_winget
              (updatable "Alpha" "winget" "Vendor.Alpha") []
              (winget_upgrade_cmd default_config "Vendor.Alpha") eq_refl)
    as (r & Hrun & _ & Hok & _).
  exists r. split; [exact Hrun|].
  apply Hok. eexists. split; reflexivity.
Defined.

(** ** The trace of an install run *)

Section TraceProjections.

Lemma runs_app tr1 tr2 : runs (tr1 ++ tr2) = runs tr1 ++ runs tr2.
Proof. apply omap_app. Qed.

Lemma backups_app tr1 tr2 : backups (tr1 ++ tr2) = backups tr1 ++ backups tr2.
Proof. apply omap_app. Qed.

Lemma progress_calls_app tr1 tr2 :
  progress_calls (tr1 ++ tr2) = progress_calls tr1 ++ progress_calls tr2.
Proof. apply omap_app. Qed.

Lemma runs_map_run cmds : runs (map Run cmds) = cmds.
Proof. induction cmds as [|c cmds IH]; simpl; [done|]. by f_equal. Qed.

Lemma backups_map_run cmds : backups (map Run cmds) = [].
Proof. by induction cmds. Qed.

Lemma progress_calls_map_run cmds : progress_calls (map Run cmds) = [].
Proof. by induction cmds. Qed.

End TraceProjections.

Section InstallTrace.

Variable cfg : Config.
Variable tool : tool_oracle.
Variable progress_callback : bool.
Variable is_alive : nat → nat → nat → bool.

Local Abbreviation install := (_install_single_update cfg tool).

Lemma call_progress_trace n ok done total tr :
  snd (call_progress progress_callback n ok done total tr)
  = tr ++ (if progress_callback then [Progress n ok done total] else []).
Proof.
  unfold call_progress. destruct progress_callback; simpl; [done|].
  by rewrite app_nil_r.
Qed.

Lemma run_events_nil todo : run_events cfg progress_callback todo 0 0 [] [].
Proof. by split. Qed.

(** A program is started: its commands are run. *)
Lemma run_events_start todo started finished pending rest p :
  todo !! started = Some p →
  run_events cfg progress_callback todo started finished pending rest →
  run_events cfg progress_callback todo (S started) finished (pending ++ [p])
    (rest ++ map Run (install_cmds cfg p)).
Proof.
  intros Hp [Hb Hr Hs Hc Ht Hn]. split.
  - by rewrite backups_app, backups_map_run, Hb.
  - rewrite runs_app, runs_map_run, Hr, (take_S_r _ _ _ Hp).
    rewrite flat_map_app. simpl. by rewrite app_nil_r.
  - intros Hcb. by rewrite progress_calls_app, progress_calls_map_run, Hs.
  - intros Hcb. rewrite progress_calls_app, progress_calls_map_run, app_nil_r.
    by apply Hc.
  - by rewrite progress_calls_app, progress_calls_map_run, app_nil_r.
  - intros Hcb. rewrite progress_calls_app, progress_calls_map_run, app_nil_r.
    rewrite (take_S_r _ _ _ Hp), !fmap_app, app_assoc. simpl.
    by rewrite (Hn Hcb).
Qed.

(** A program ends: the callback, if there is one, is called. *)
Lemma run_events_finish todo started finished pending pending' rest p ok :
  name <$> pending ≡ₚ name p :: (name <$> pending') →
  run_events cfg progress_callback todo started finished pending rest →
  run_events cfg progress_callback todo started (S finished) pending'
    (rest ++ (if progress_callback
              then [Progress (name p) ok (S finished) (length todo)] else [])).
Proof.
  intros Hperm [Hb Hr Hs Hc Ht Hn]. split.
  - rewrite backups_app, Hb. by destruct progress_callback.
  - rewrite runs_app, Hr. destruct progress_callback; simpl; by rewrite app_nil_r.
  - intros ->. rewrite app_nil_r. by apply Hs.
  - intros Hcb. by rewrite Hcb, progress_calls_app, fmap_app, (Hc Hcb), seq_S.
  - rewrite progress_calls_app. apply Forall_app. split; [done|].
    destruct progress_callback; simpl; by repeat constructor.
  - intros Hcb. rewrite Hcb, progress_calls_app, fmap_app. simpl.
    rewrite <- (Hn Hcb), Hperm. by rewrite <- app_assoc.
Qed.

(** *** The sequential mode *)

Lemma sequential_trace total l res tr :
  ∃ res' rest,
    for_each l (sequential_step cfg tool progress_callback total) res tr
    = (inr res', tr ++ rest)
    ∧ backups rest = []
    ∧ runs rest = flat_map (install_cmds cfg) l
    ∧ (progress_callback = false → progress_calls rest = [])
    ∧ Forall (fun c => call_total c = total) (progress_calls rest)
    ∧ (progress_callback = true →
       call_name <$> progress_calls rest = name <$> l)
    ∧ (progress_callback = true → NoDup (name <$> l) →
       (∀ p, p ∈ l → res !! name p = None) →
       call_done <$> progress_calls rest = seq (S (size res)) (length l)).
Proof.
  revert res tr. induction l as [|p l IH]; intros res tr.
  - exists res, []. rewrite app_nil_r. by repeat split.
  - destruct (install_single_update_returns cfg tool p tr)
      as (r & tr1 & Hr & _).
    pose proof (install_trace cfg tool p tr) as Htr1.
    rewrite Hr in Htr1. simpl in Htr1. subst tr1.
    set (res1 := <[name p := r]> res).
    destruct (call_progress_returns progress_callback (name p) (success r)
                (size res1) total (tr ++ map Run (install_cmds cfg p)))
      as [tr2 Hcb].
    pose proof (call_progress_trace (name p) (success r) (size res1) total
                  (tr ++ map Run (install_cmds cfg p))) as Htr2.
    rewrite Hcb in Htr2. simpl in Htr2. subst tr2.
    destruct (IH res1
                ((tr ++ map Run (install_cmds cfg p)) ++
                 (if progress_callback
                  then [Progress (name p) (success r) (size res1) total]
                  else [])))
      as (res' & rest & Hrun & Hb & Hruns & Hsilent & Htot & Hnames & Hcounts).
    exists res',
      (map Run (install_cmds cfg p) ++
       (if progress_callback
        then [Progress (name p) (success r) (size res1) total] else []) ++ rest).
    split; [|split; [|split; [|split; [|split; [|split]]]]].
    + simpl. unfold bind at 1. unfold sequential_step at 1. unfold bind at 1.
      rewrite Hr. unfold bind at 1. fold res1. rewrite Hcb. unfold ret at 1.
      rewrite Hrun. by rewrite <- !app_assoc.
    + rewrite !backups_app, backups_map_run, Hb.
      by destruct progress_callback.
    + rewrite !runs_app, runs_map_run, Hruns. simpl.
      destruct progress_callback; simpl; [done|done].
    + intros Hf. rewrite Hf in *. simpl.
      by rewrite progress_calls_app, progress_calls_map_run, Hsilent.
    + rewrite !progress_calls_app, progress_calls_map_run. simpl.
      apply Forall_app. split; [|done].
      destruct progress_callback; simpl; by repeat constructor.
    + intros Ht. rewrite Ht in *.
      rewrite !progress_calls_app, progress_calls_map_run. simpl.
      f_equal. by apply Hnames.
    + intros Ht Hnd Hfresh. rewrite Ht in *.
      rewrite fmap_cons in Hnd. apply NoDup_cons in Hnd as [Hp Hnd].
      rewrite !progress_calls_app, progress_calls_map_run. simpl.
      assert (Hsize : size res1 = S (size res)).
      { apply map_size_insert_None, Hfresh. by left. }
      f_equal; [done|]. rewrite <- Hsize.
      apply (Hcounts eq_refl Hnd).
      intros q Hq. unfold res1. rewrite lookup_insert_ne.
      * apply Hfresh. by right.
      * intros Heq. apply Hp. rewrite Heq. by apply list_elem_of_fmap_2.
Qed.

End InstallTrace.

Section ConcurrentTrace.

Variable cfg : Config.
Variable tool : tool_oracle.
Variable progress_callback : bool.
Variable is_alive : nat → nat → nat → bool.
Variable programs : list Program.
Variable tr0 : trace.

Local Abbreviation inv := (loop_inv cfg tool programs).
Local Abbreviation tinv := (trace_inv cfg progress_callback programs tr0).
Local Abbreviation start := (start_thread cfg tool).
Local Abbreviation reap1 := (reap_one progress_callback is_alive programs).
Local Abbreviation step := (iteration cfg tool progress_callback is_alive programs).
Local Abbreviation loop := (poll_loop cfg tool progress_callback is_alive programs).

Lemma remove_thread_perm th (l : list thread) :
  NoDup (th_index <$> l) → th ∈ l → l ≡ₚ th :: remove_thread th l.
Proof.
  unfold remove_thread.
  induction l as [|x l IH]; intros Hnd Hin; [by apply elem_of_nil in Hin|].
  rewrite fmap_cons in Hnd. apply NoDup_cons in Hnd as [Hx Hnd].
  rewrite filter_cons. destruct (decide (th_index x ≠ th_index th)) as [Hne|Heq].
  - apply elem_of_cons in Hin as [->|Hin]; [done|].
    rewrite (IH Hnd Hin) at 1. apply Permutation_swap.
  - apply dec_stable in Heq.
    assert (Hall : filter (λ t, th_index t ≠ th_index th) l = l).
    { clear IH Hin Hnd. induction l as [|y l IH]; [done|].
      rewrite fmap_cons, not_elem_of_cons in Hx. destruct Hx as [Hxy Hx].
      rewrite filter_cons. rewrite decide_True by congruence.
      f_equal. by apply IH. }
    rewrite Hall.
    apply elem_of_cons in Hin as [->|Hin]; [done|].
    exfalso. apply Hx. rewrite Heq. by apply list_elem_of_fmap_2.
Qed.

Lemma initial_trace_inv : tinv (initial tr0).
Proof.
  split; [done|]. exists []. simpl. rewrite app_nil_r.
  split; [done|apply run_events_nil].
Qed.

Lemma start_thread_trace_inv st p :
  programs !! program_index st = Some p → tinv st → tinv (start st p).
Proof.
  intros Hp [Hcount (rest & Hev & Hre)].
  destruct (start_thread_eq cfg tool st p) as (r & tr' & Hr & ->).
  pose proof (install_trace cfg tool p (events st)) as Htr.
  rewrite Hr in Htr. simpl in Htr. subst tr'.
  split; simpl.
  - rewrite length_app. simpl. lia.
  - exists (rest ++ map Run (install_cmds cfg p)).
    split; [by rewrite Hev, <- app_assoc|].
    rewrite fmap_app. simpl. by apply run_events_start.
Qed.

Lemma spawn_loop_trace_inv n st :
  tinv st → tinv (spawn_loop cfg tool programs n st).
Proof.
  revert st. induction n as [|n IH]; intros st Hinv; simpl; [done|].
  destruct (_ && _); [|done].
  destruct (programs !! program_index st) as [p|] eqn:Hp; [|done].
  by apply IH, start_thread_trace_inv.
Qed.

Lemma reap_one_trace_inv st th :
  inv st → th ∈ threads st → tinv st → tinv (reap1 st th).
Proof.
  intros Hinv Hin Htinv.
  destruct (is_alive (polls st) (th_started th) (th_index th)) eqn:Halive.
  { by rewrite reap_one_alive. }
  destruct Htinv as [Hcount (rest & Hev & Hre)].
  pose proof (li_nodup _ _ _ _ Hinv) as Hnd.
  destruct (li_threads _ _ _ _ Hinv th Hin) as [_ _ (r & tr1 & Hout & _)].
  rewrite (reap_one_dead _ _ _ st th r Halive Hout).
  pose proof (remove_thread_length th _ Hnd Hin) as Hlen.
  split; simpl; [lia|].
  rewrite call_progress_trace.
  exists (rest ++ (if progress_callback
                   then [Progress (name (th_program th)) (success r)
                           (S (completed st)) (length programs)]
                   else [])).
  split; [by rewrite Hev, <- app_assoc|].
  eapply run_events_finish; [|exact Hre].
  rewrite (remove_thread_perm th _ Hnd Hin) at 1. by rewrite !fmap_cons.
Qed.

Lemma reap_fold_trace_inv l st :
  inv st → tinv st → NoDup (th_index <$> l) →
  (∀ th, th ∈ l → th ∈ threads st) →
  tinv (foldl reap1 st l).
Proof.
  revert st. induction l as [|h l IH]; intros st Hinv Htinv Hnd Hsub; [done|].
  rewrite fmap_cons in Hnd. apply NoDup_cons in Hnd as [Hh Hnd].
  simpl. apply IH; [| |done|].
  - apply reap_one_inv; [done|]. apply Hsub. by left.
  - apply reap_one_trace_inv; [done| |done]. apply Hsub. by left.
  - intros th Hin.
    destruct (reap_one_threads progress_callback is_alive programs st h)
      as [->| ->].
    + apply Hsub. by right.
    + apply list_elem_of_filter. split; [|apply Hsub; by right].
      intros Heq. apply Hh. rewrite <- Heq. by apply list_elem_of_fmap_2.
Qed.

Lemma iteration_trace_inv st : inv st → tinv st → tinv (step st).
Proof.
  intros Hinv Htinv. unfold iteration.
  assert (Hs : inv (spawn cfg tool programs st)) by by apply spawn_loop_inv.
  assert (Hts : tinv (spawn cfg tool programs st))
    by by apply spawn_loop_trace_inv.
  assert (Hr : tinv (reap progress_callback is_alive programs
                       (spawn cfg tool programs st))).
  { apply reap_fold_trace_inv; try done. apply (li_nodup _ _ _ _ Hs). }
  exact Hr.
Qed.

Lemma poll_loop_trace_inv fuel st st' :
  loop fuel st = Some st' → inv st → tinv st → tinv st'.
Proof.
  revert st. induction fuel as [|fuel IH]; intros st Hloop Hinv Htinv.
  - simpl in Hloop. destruct (loop_condition programs st); [done|].
    by inversion Hloop; subst.
  - destruct (loop_condition programs st) eqn:Hcond.
    + rewrite loop_step in Hloop by done.
      apply (IH _ Hloop); [by apply iteration_inv|by apply iteration_trace_inv].
    + rewrite loop_stop in Hloop by done. by inversion Hloop; subst.
Qed.

(** What the bounded-concurrent mode has added to the trace when it
    returns. *)
Lemma install_concurrent_trace fuel out tr' :
  _install_concurrent_updates cfg tool progress_callback is_alive programs
    fuel tr0 = Some (out, tr') →
  ∃ rest,
    tr' = tr0 ++ rest
    ∧ run_events cfg progress_callback programs
        (length programs) (length programs) [] rest.
Proof.
  unfold _install_concurrent_updates.
  destruct (loop fuel (initial tr0)) as [st'|] eqn:Hloop; [|done].
  destruct (poll_loop_sound _ _ _ _ _ _ _ _ Hloop (initial_inv _ _ _ tr0))
    as [Hinv Hcond].
  pose proof (poll_loop_trace_inv _ _ _ Hloop (initial_inv _ _ _ tr0)
                initial_trace_inv) as [Hcount (rest & Hev & Hre)].
  destruct (loop_exit _ _ _ st' Hinv Hcond) as [Hnil _].
  unfold join_all. rewrite Hnil. simpl. intros [= <- <-].
  exists rest. split; [done|].
  assert (Hidx : program_index st' = length programs).
  { pose proof (li_index _ _ _ _ Hinv).
    unfold loop_condition in Hcond. apply orb_false_iff in Hcond as [Hi _].
    apply Nat.ltb_ge in Hi. lia. }
  rewrite Hnil in Hcount, Hre. simpl in Hcount, Hre.
  assert (Hdone : completed st' = length programs) by lia.
  by rewrite Hidx, Hdone in Hre.
Qed.

End ConcurrentTrace.

(** ** The trace of [install_updates] *)

Section InstallUpdatesTrace.

Variable cfg : Config.
Variable tool : tool_oracle.
Variable progress_callback : bool.
Variable is_alive : nat → nat → nat → bool.

Lemma install_updates_trace fuel programs tr out tr' :
  install_updates cfg tool progress_callback is_alive fuel programs tr
  = Some (out, tr') →
  attempted programs ≠ [] →
  ∃ rest,
    tr' = tr ++ (if create_backups cfg then [Backup (attempted programs)] else [])
             ++ rest
    ∧ backups rest = []
    ∧ runs rest = flat_map (install_cmds cfg) (attempted programs)
    ∧ (progress_callback = false → progress_calls rest = [])
    ∧ Forall (fun c => call_total c = length (attempted programs))
             (progress_calls rest)
    ∧ (progress_callback = true →
       call_name <$> progress_calls rest ≡ₚ name <$> attempted programs)
    ∧ (progress_callback = true → update_all_at_once cfg = true →
       call_name <$> progress_calls rest = name <$> attempted programs)
    ∧ (progress_callback = true →
       update_all_at_once cfg = false ∨ NoDup (name <$> attempted programs) →
       call_done <$> progress_calls rest = seq 1 (length (attempted programs))).
Proof.
  unfold install_updates. fold (attempted programs).
  destruct (attempted programs) as [|p todo] eqn:Htodo; [done|].
  intros Hrun _.
  assert (Hbackup :
            (if create_backups cfg then _create_backup (p :: todo) else ret tt) tr
            = (inr tt, tr ++ (if create_backups cfg
                              then [Backup (p :: todo)] else []))).
  { destruct (create_backups cfg); [done|]. unfold ret. by rewrite app_nil_r. }
  rewrite Hbackup in Hrun.
  destruct (update_all_at_once cfg) eqn:Hseq.
  - destruct (sequential_trace cfg tool progress_callback (length (p :: todo))
                (p :: todo) ∅
                (tr ++ (if create_backups cfg then [Backup (p :: todo)] else [])))
      as (res' & rest & Hfor & Hb & Hr & Hs & Ht & Hn & Hc).
    rewrite Hfor in Hrun. inversion Hrun; subst.
    exists rest. split; [by rewrite <- app_assoc|].
    split; [done|]. split; [done|]. split; [done|]. split; [done|].
    split; [intros Hcb; by rewrite Hn|]. split; [intros Hcb _; by apply Hn|].
    intros Hcb [?|Hnd]; [done|].
    rewrite (Hc Hcb Hnd); [done|]. intros q _. apply lookup_empty.
  - destruct (install_concurrent_trace cfg tool progress_callback is_alive
                (p :: todo) _ fuel out tr' Hrun)
      as (rest & -> & [Hb Hr Hs Hc Ht Hn]).
    rewrite firstn_all in Hr, Hn.
    exists rest. split; [by rewrite <- app_assoc|].
    split; [done|]. split; [done|]. split; [done|]. split; [done|].
    split; [|split; [done|]].
    + intros Hcb. specialize (Hn Hcb). by rewrite app_nil_r in Hn.
    + intros Hcb _. by apply Hc.
Qed.

(** X19.  When no program of the list has an update available,
    [install_updates] returns the empty map at once: no backup is
    written, no tool is run and the callback is not called. *)
Theorem install_updates_nothing_to_do fuel programs tr :
  (∀ p, p ∈ programs → update_available p = false) →
  install_updates cfg tool progress_callback is_alive fuel programs tr
  = Some (inr ∅, tr).
Proof.
  intros Hnone. unfold install_updates.
  assert (Hnil : filter (fun p => update_available p = true) programs = []).
  { induction programs as [|q l IH]; [done|].
    rewrite filter_cons. rewrite decide_False.
    - apply IH. intros r Hr. apply Hnone. by right.
    - rewrite (Hnone q) by (by left). done. }
  by rewrite Hnil.
Qed.

(** X20.  In the bounded-concurrent mode with a limit of concurrent
    updates that is not positive, a call of [install_updates] with a
    program to update never returns: the polling loop starts no thread
    and goes on for ever. *)
Theorem install_updates_stuck_without_workers fuel programs tr :
  update_all_at_once cfg = false →
  max_concurrent cfg <= 0 →
  attempted programs ≠ [] →
  install_updates cfg tool progress_callback is_alive fuel programs tr = None.
Proof.
  intros Hseq Hk Htodo. unfold install_updates. fold (attempted programs).
  destruct (attempted programs) as [|p todo]; [done|].
  destruct (create_backup_returns (p :: todo) tr) as [trb Hb].
  assert (Hbackup : ∃ tr1,
             (if create_backups cfg then _create_backup (p :: todo) else ret tt) tr
             = (inr tt, tr1)).
  { destruct (create_backups cfg); [by exists trb|by exists tr]. }
  destruct Hbackup as [tr1 ->]. rewrite Hseq.
  unfold _install_concurrent_updates.
  rewrite poll_loop_stuck; [done|done|done|done|simpl; lia].
Qed.

(** X21.  When [install_updates] returns, the commands it has run are
    those of the programs with an update available, one for each program
    that has a command (a winget or chocolatey program with a package id)
    and nothing else; in the sequential mode they were run in the order
    of the list. *)
Theorem install_updates_runs_one_command_each fuel programs tr out tr' :
  install_updates cfg tool progress_callback is_alive fuel programs tr
  = Some (out, tr') →
  ∃ cmds,
    runs tr' = runs tr ++ cmds
    ∧ cmds ≡ₚ flat_map (install_cmds cfg) (attempted programs)
    ∧ (update_all_at_once cfg = true →
       cmds = flat_map (install_cmds cfg) (attempted programs)).
Proof.
  intros Hrun. destruct (attempted programs) as [|p todo] eqn:Htodo.
  - unfold install_updates in Hrun. fold (attempted programs) in Hrun.
    rewrite Htodo in Hrun. inversion Hrun; subst.
    exists []. by rewrite app_nil_r.
  - destruct (install_updates_trace _ _ _ _ _ Hrun)
      as (rest & -> & _ & Hr & _); [by rewrite Htodo|].
    rewrite Htodo in Hr.
    exists (runs rest). rewrite Hr. split; [|done].
    rewrite !runs_app, Hr. by destruct (create_backups cfg).
Qed.

(** X22.  When [install_updates] returns, the progress callback has been
    called once for each program with an update available, with the name
    of that program and with the number of these programs as total.  In
    the sequential mode the calls are in the order of the list, and when
    the names are distinct the completed counts run 1, 2, ... up to the
    total.  Without a callback nothing is called. *)
Theorem install_updates_calls_back_once_each fuel programs tr out tr' :
  install_updates cfg tool progress_callback is_alive fuel programs tr
  = Some (out, tr') →
  ∃ calls,
    progress_calls tr' = progress_calls tr ++ calls
    ∧ (progress_callback = false → calls = [])
    ∧ Forall (fun c => call_total c = length (attempted programs)) calls
    ∧ (progress_callback = true →
       call_name <$> calls ≡ₚ name <$> attempted programs)
    ∧ (progress_callback = true → update_all_at_once cfg = true →
       call_name <$> calls = name <$> attempted programs)
    ∧ (progress_callback = true → update_all_at_once cfg = true →
       NoDup (name <$> attempted programs) →
       call_done <$> calls = seq 1 (length (attempted programs))).
Proof.
  intros Hrun. destruct (attempted programs) as [|p todo] eqn:Htodo.
  - unfold install_updates in Hrun. fold (attempted programs) in Hrun.
    rewrite Htodo in Hrun. inversion Hrun; subst.
    exists []. rewrite app_nil_r. by repeat split.
  - destruct (install_updates_trace _ _ _ _ _ Hrun)
      as (rest & -> & _ & _ & Hs & Ht & Hn & Ho & Hc); [by rewrite Htodo|].
    rewrite Htodo in *.
    exists (progress_calls rest).
    split; [rewrite !progress_calls_app; by destruct (create_backups cfg)|].
    split; [done|]. split; [done|]. split; [done|]. split; [done|].
    intros Hcb _ Hnd. apply Hc; [done|by right].
Qed.

(** X23.  When [install_updates] has something to update, the first
    thing it does, if backups are enabled, is to write one backup of the
    programs with an update available; no other backup is written, and
    none at all when backups are disabled. *)
Theorem install_updates_backs_up_first fuel programs tr out tr' :
  install_updates cfg tool progress_callback is_alive fuel programs tr
  = Some (out, tr') →
  attempted programs ≠ [] →
  ∃ rest,
    tr' = tr ++ (if create_backups cfg then [Backup (attempted programs)] else [])
             ++ rest
    ∧ backups rest = [].
Proof.
  intros Hrun Htodo.
  destruct (install_updates_trace _ _ _ _ _ Hrun Htodo) as (rest & Htr & Hb & _).
  by exists rest.
Qed.

End InstallUpdatesTrace.

Lemma install_updates_nothing_to_do_witness :
  (∀ p, p ∈ [new_program "Alpha" "1.0" EmptyString EmptyString "winget" "Vendor.Alpha"] →
        update_available p = false)
  ∧ install_updates default_config only_winget true (alive_for 3) 0
      [new_program "Alpha" "1.0" EmptyString EmptyString "winget" "Vendor.Alpha"] []
    = Some (inr ∅, []).
Proof.
  assert (H : ∀ p, p ∈ [new_program "Alpha" "1.0" EmptyString EmptyString
                          "winget" "Vendor.Alpha"] →
                   update_available p = false).
  { intros p Hp. apply list_elem_of_singleton in Hp. by rewrite Hp. }
  split; [exact H|].
  exact (install_updates_nothing_to_do default_config only_winget true
           (alive_for 3) 0 _ [] H).
Defined.

Lemma install_updates_stuck_without_workers_witness :
  update_all_at_once (config_with_limit (-1)) = false
  ∧ max_concurrent (config_with_limit (-1)) <= 0
  ∧ install_updates (config_with_limit (-1)) only_winget true (alive_for 3) 1000
      five_programs [] = None.
Proof.
  split; [reflexivity|]. split; [discriminate|].
  apply (install_updates_stuck_without_workers (config_with_limit (-1))
           only_winget true (alive_for 3) 1000 five_programs []);
    [reflexivity|discriminate|discriminate].
Defined.

Lemma install_updates_runs_one_command_each_witness :
  ∃ out tr' cmds,
    install_updates sequential_config only_winget true (alive_for 3) 0
      five_programs [] = Some (out, tr')
    ∧ runs tr' = runs [] ++ cmds
    ∧ cmds = flat_map (install_cmds sequential_config) (attempted five_programs).
Proof.
  destruct (install_updates sequential_config only_winget true (alive_for 3) 0
              five_programs []) as [[out tr']|] eqn:Hrun;
    [|vm_compute in Hrun; discriminate].
  destruct (install_updates_runs_one_command_each _ _ _ _ _ _ _ _ _ Hrun)
    as (cmds & Hruns & _ & Hcmds).
  exists out, tr', cmds. split; [reflexivity|]. split; [exact Hruns|].
  apply Hcmds. reflexivity.
Defined.

Lemma install_updates_calls_back_once_each_witness :
  ∃ out tr' calls,
    install_updates (config_with_limit 2) only_winget true (alive_for 3) 20
      five_programs [] = Some (out, tr')
    ∧ progress_calls tr' = progress_calls [] ++ calls
    ∧ call_name <$> calls ≡ₚ name <$> attempted five_programs.
Proof.
  destruct (install_updates (config_with_limit 2) only_winget true (alive_for 3) 20
              five_programs []) as [[out tr']|] eqn:Hrun;
    [|vm_compute in Hrun; discriminate].
  destruct (install_updates_calls_back_once_each _ _ _ _ _ _ _ _ _ Hrun)
    as (calls & Hcalls & _ & _ & Hnames & _).
  exists out, tr', calls. split; [reflexivity|]. split; [exact Hcalls|].
  apply Hnames. reflexivity.
Defined.

Lemma install_updates_backs_up_first_witness :
  ∃ out tr' rest,
    install_updates sequential_config only_winget true (alive_for 3) 0
      five_programs [] = Some (out, tr')
    ∧ tr' = [] ++ [Backup (attempted five_programs)] ++ rest
    ∧ backups rest = [].
Proof.
  destruct (install_updates sequential_config only_winget true (alive_for 3) 0
              five_programs []) as [[out tr']|] eqn:Hrun;
    [|vm_compute in Hrun; discriminate].
  destruct (install_updates_backs_up_first _ _ _ _ _ _ _ _ _ Hrun)
    as (rest & Htr & Hb); [discriminate|].
  exists out, tr', rest. split; [reflexivity|]. split; [exact Htr|exact Hb].
Defined.
